(** * SafeOps: a shallow embedding of SafeOps.c and its checked contracts

    The C library keeps three kinds of state: the diagnostics cells
    ([g_lastError], [g_logger], [errno]), the memory its pointer arguments
    refer to, and the descriptor table touched by [SafeFOpen].  The
    embedding threads one [state] record through every call.  A call either
    returns a value and a new state, or has undefined behaviour in C
    (a read or write outside an object, [free] of a dead pointer), which is
    the outcome [Fault]. *)

From stdpp Require Import gmap strings list fin_maps.
From Stdlib Require Import ZArith Lia.

Local Open Scope Z_scope.

(** ** Error codes (SafeOps.h) *)

Inductive SafeOpsError :=
| SAFEOPS_OK
| SAFEOPS_ERR_NULL_POINTER
| SAFEOPS_ERR_OUT_OF_BOUNDS
| SAFEOPS_ERR_OVERFLOW
| SAFEOPS_ERR_INVALID_PARAM
| SAFEOPS_ERR_ALLOCATION_FAILED
| SAFEOPS_ERR_FILE_ACCESS
| SAFEOPS_ERR_OVERLAP
| SAFEOPS_ERR_UNKNOWN.

#[global] Instance SafeOpsError_eq_dec : EqDecision SafeOpsError.
Proof. solve_decision. Defined.

(** ** Machine constants (LP64) *)

Definition SIZE_MAX : Z := 2 ^ 64 - 1.
Definition INT_MAX : Z := 2 ^ 31 - 1.
Definition INT_MIN : Z := - 2 ^ 31.
Definition sizeof_size_t : Z := 8.
Definition EINVAL : Z := 22.
Definition EOVERFLOW : Z := 75.

(** Arithmetic on [size_t] and [uintptr_t] wraps modulo 2^64. *)
Definition wrap (z : Z) : Z := z mod 2 ^ 64.

(** Two's complement wrap-around of [int]. *)
Definition wrap_int (z : Z) : Z := (z - INT_MIN) mod 2 ^ 32 + INT_MIN.

(** ** Memory *)

(** A pointer is null or an offset into a block (an allocated object).
    A block has a numeric base address, which pointer comparisons and
    [uintptr_t] casts observe, and an array of elements: [char], [wchar_t]
    or [int] values, all carried as [Z]. *)
Inductive ptr := NULL | Ptr (b : nat) (ofs : Z).

#[global] Instance ptr_eq_dec : EqDecision ptr.
Proof. solve_decision. Defined.

Record block := mkBlock {
  base : Z;          (* address of element 0 *)
  on_heap : bool;    (* obtained from malloc/calloc *)
  cells : list Z
}.

(** Events of the operating system interface used by [SafeFOpen]. *)
Inductive syscall :=
| SysOpen (path : list Z) (flags : Z) (mode : Z) (fd : option nat)
| SysFopen (path : list Z) (mode : list Z) (fd : option nat)
| SysFstat (fd : nat) (st_mode : option Z)
| SysClose (fd : nat)
| SysFclose (fd : nat)
| SysFdopen (fd : nat) (mode : list Z) (ok : bool).

Record state := mkState {
  g_lastError : SafeOpsError;             (* thread-local last-error cell *)
  g_logger : bool;                        (* a logger is installed *)
  logged : list (SafeOpsError * string);  (* calls received by the logger *)
  errno : Z;
  mem : gmap nat block;
  ptrvars : gmap nat ptr;                 (* pointer variables ([void *] cells) *)
  brk : Z;                                (* next base address of the allocator *)
  avail : Z;                              (* bytes the allocator can still grant *)
  fds : gmap nat Z;                       (* open descriptors and their st_mode *)
  syscalls : list syscall
}.

Definition set_lastError (e : SafeOpsError) (s : state) : state :=
  mkState e (g_logger s) (logged s) (errno s) (mem s) (ptrvars s)
          (brk s) (avail s) (fds s) (syscalls s).
Definition set_logger (l : bool) (s : state) : state :=
  mkState (g_lastError s) l (logged s) (errno s) (mem s) (ptrvars s)
          (brk s) (avail s) (fds s) (syscalls s).
Definition add_log (e : SafeOpsError) (msg : string) (s : state) : state :=
  mkState (g_lastError s) (g_logger s) (logged s ++ [(e, msg)]) (errno s)
          (mem s) (ptrvars s) (brk s) (avail s) (fds s) (syscalls s).
Definition set_errno (e : Z) (s : state) : state :=
  mkState (g_lastError s) (g_logger s) (logged s) e (mem s) (ptrvars s)
          (brk s) (avail s) (fds s) (syscalls s).
Definition set_mem (m : gmap nat block) (s : state) : state :=
  mkState (g_lastError s) (g_logger s) (logged s) (errno s) m (ptrvars s)
          (brk s) (avail s) (fds s) (syscalls s).
Definition set_ptrvars (p : gmap nat ptr) (s : state) : state :=
  mkState (g_lastError s) (g_logger s) (logged s) (errno s) (mem s) p
          (brk s) (avail s) (fds s) (syscalls s).
Definition set_heap (m : gmap nat block) (b a : Z) (s : state) : state :=
  mkState (g_lastError s) (g_logger s) (logged s) (errno s) m (ptrvars s)
          b a (fds s) (syscalls s).
Definition set_fds (f : gmap nat Z) (s : state) : state :=
  mkState (g_lastError s) (g_logger s) (logged s) (errno s) (mem s) (ptrvars s)
          (brk s) (avail s) f (syscalls s).
Definition add_syscall (e : syscall) (s : state) : state :=
  mkState (g_lastError s) (g_logger s) (logged s) (errno s) (mem s) (ptrvars s)
          (brk s) (avail s) (fds s) (syscalls s ++ [e]).

(** ** The monad of C calls *)

Inductive outcome (A : Type) :=
| Fault                       (* undefined behaviour *)
| Ret (a : A) (s : state).
Arguments Fault {A}.
Arguments Ret {A} a s.

Definition M (A : Type) : Type := state -> outcome A.

Definition ret {A} (a : A) : M A := fun s => Ret a s.
Definition fault {A} : M A := fun _ => Fault.
Definition bind {A B} (m : M A) (k : A -> M B) : M B :=
  fun s => match m s with
           | Fault => Fault
           | Ret a s' => k a s'
           end.
Definition get : M state := fun s => Ret s s.
Definition modify (f : state -> state) : M unit := fun s => Ret tt (f s).
(** A partial memory operation: undefined behaviour when it has no value. *)
Definition lift {A} (o : option A) : M A :=
  match o with Some a => ret a | None => fault end.

#[global] Instance M_ret : MRet M := @ret.
#[global] Instance M_bind : MBind M := fun A B k m => bind m k.

(** ** Diagnostics (SafeOps.c lines 44-63) *)

(** The state left by [SetError]: the code is stored in the last-error
    cell and, when a logger is installed, the logger is invoked. *)
Definition reported (error : SafeOpsError) (message : string) (s : state) : state :=
  let s1 := set_lastError error s in
  if g_logger s1 then add_log error message s1 else s1.

Definition SetError (error : SafeOpsError) (message : string) : M unit :=
  modify (reported error message).

Definition SafeOpsSetLogger (logger : bool) : M unit :=
  modify (set_logger logger).

Definition SafeOpsGetLastError : M SafeOpsError :=
  fun s => Ret (g_lastError s) s.

(** ** Memory primitives of the C library *)

(** The elements from [p] to the end of its object. *)
Definition view (m : gmap nat block) (p : ptr) : option (list Z) :=
  match p with
  | NULL => None
  | Ptr b ofs =>
      blk ← m !! b;
      if decide (0 <= ofs <= Z.of_nat (length (cells blk)))
      then Some (drop (Z.to_nat ofs) (cells blk)) else None
  end.

(** [p[i]] as an rvalue. *)
Definition nth_cell (l : list Z) (i : Z) : option Z :=
  if decide (0 <= i) then l !! Z.to_nat i else None.

(** The characters of the string at the head of [l], without its
    terminator; no value when [l] holds no terminator. *)
Fixpoint c_str (l : list Z) : option (list Z) :=
  match l with
  | [] => None
  | c :: l' => if decide (c = 0) then Some [] else (c ::.) <$> c_str l'
  end.

Definition string_at (m : gmap nat block) (p : ptr) : option (list Z) :=
  v ← view m p; c_str v.

Definition len (l : list Z) : Z := Z.of_nat (length l).

Definition write_at (l : list Z) (i : Z) (bs : list Z) : option (list Z) :=
  if decide (0 <= i /\ i + len bs <= len l)
  then Some (take (Z.to_nat i) l ++ bs ++ drop (Z.to_nat i + length bs) l)
  else None.

Definition store (m : gmap nat block) (p : ptr) (bs : list Z)
  : option (gmap nat block) :=
  match p with
  | NULL => None
  | Ptr b ofs =>
      blk ← m !! b;
      cs ← write_at (cells blk) ofs bs;
      Some (<[b := mkBlock (base blk) (on_heap blk) cs]> m)
  end.

Definition load (m : gmap nat block) (p : ptr) (n : Z) : option (list Z) :=
  v ← view m p;
  if decide (0 <= n <= len v) then Some (take (Z.to_nat n) v) else None.

Definition ptr_add (p : ptr) (d : Z) : ptr :=
  match p with NULL => NULL | Ptr b ofs => Ptr b (ofs + d) end.

(** The numeric address of a pointer into a live object. *)
Definition addr (m : gmap nat block) (p : ptr) : option Z :=
  match p with
  | NULL => Some 0
  | Ptr b ofs => blk ← m !! b; Some (base blk + ofs)
  end.

(** [n] elements at [p] and [k] elements at [q] share no element. *)
Definition disjoint_regions (p : ptr) (n : Z) (q : ptr) (k : Z) : bool :=
  match p, q with
  | Ptr b1 o1, Ptr b2 o2 =>
      negb (bool_decide (b1 = b2)) || (n <=? 0) || (k <=? 0)
      || (o1 + n <=? o2) || (o2 + k <=? o1)
  | _, _ => true
  end.

Definition memmove (dest src : ptr) (n : Z) : M unit :=
  s ← get;
  bs ← lift (load (mem s) src n);
  m' ← lift (store (mem s) dest bs);
  modify (set_mem m').

(** [memcpy]: undefined when the two regions overlap. *)
Definition memcpy (dest src : ptr) (n : Z) : M unit :=
  if disjoint_regions dest n src n then memmove dest src n else fault.

Definition strlen (str : ptr) : M Z :=
  s ← get; t ← lift (string_at (mem s) str); ret (len t).

(** The [n] elements written by [strncpy]/[wcsncpy]: the characters of the
    source up to its terminator, then zero padding. *)
Fixpoint strncpy_data (l : list Z) (n : nat) : option (list Z) :=
  match n with
  | O => Some []
  | S n' =>
      match l with
      | [] => None
      | c :: l' =>
          if decide (c = 0) then Some (replicate n 0)
          else (c ::.) <$> strncpy_data l' n'
      end
  end.

(** The elements of the source that [strncpy] reads: up to and including
    the terminator, at most [n]. *)
Fixpoint c_str_upto (l : list Z) (n : nat) : option (list Z) :=
  match n with
  | O => Some []
  | S n' =>
      match l with
      | [] => None
      | c :: l' =>
          if decide (c = 0) then Some [c]
          else (c ::.) <$> c_str_upto l' n'
      end
  end.

(** The elements appended by [wcsncat]: at most [n] characters of the
    source, then a terminator. *)
Fixpoint strncat_data (l : list Z) (n : nat) : option (list Z) :=
  match n with
  | O => Some [0]
  | S n' =>
      match l with
      | [] => None
      | c :: l' =>
          if decide (c = 0) then Some [0]
          else (c ::.) <$> strncat_data l' n'
      end
  end.

(** [strstr] on string contents: the offset of the first occurrence. *)
Fixpoint is_prefix (n h : list Z) : bool :=
  match n, h with
  | [], _ => true
  | _ :: _, [] => false
  | a :: n', b :: h' => bool_decide (a = b) && is_prefix n' h'
  end.

Fixpoint strstr (h n : list Z) : option nat :=
  if is_prefix n h then Some O
  else match h with
       | [] => None
       | _ :: h' => S <$> strstr h' n
       end.

(** ** The allocator *)

Definition new_block (cs : list Z) : M ptr :=
  fun s =>
    let b := fresh (dom (mem s)) in
    Ret (Ptr b 0)
        (set_heap (<[b := mkBlock (brk s) true cs]> (mem s))
                  (brk s + len cs) (avail s - len cs) s).

(** [calloc(1, size)]: null when the allocator cannot grant [size] bytes. *)
Definition calloc (size : Z) : M ptr :=
  s ← get;
  if decide (size <= avail s)
  then new_block (replicate (Z.to_nat size) 0)
  else ret NULL.

(** [malloc(size)]: the contents [junk] of the new object are indeterminate. *)
Definition malloc (junk : nat -> Z) (size : Z) : M ptr :=
  s ← get;
  if decide (size <= avail s)
  then new_block (junk <$> seq 0 (Z.to_nat size))
  else ret NULL.

(** [free(p)] for non-null [p]: undefined unless [p] is the start of a
    live heap object. *)
Definition free (p : ptr) : M unit :=
  fun s =>
    match p with
    | Ptr b 0 =>
        match mem s !! b with
        | Some blk =>
            if on_heap blk
            then Ret tt (set_heap (delete b (mem s)) (brk s)
                                  (avail s + len (cells blk)) s)
            else Fault
        | None => Fault
        end
    | _ => Fault
    end.

(** ** 1) Safe memory allocation / free (SafeOps.c lines 65-131) *)

Definition SafeMalloc (size : Z) : M ptr :=
  if decide (size = 0) then
    SetError SAFEOPS_ERR_INVALID_PARAM "Zero size allocation requested";;
    ret NULL
  else if decide (size > SIZE_MAX - sizeof_size_t) then
    SetError SAFEOPS_ERR_OVERFLOW "Allocation size would overflow";;
    ret NULL
  else
    p ← calloc size;
    if decide (p = NULL) then
      SetError SAFEOPS_ERR_ALLOCATION_FAILED "Memory allocation failed";;
      ret NULL
    else ret p.

Definition SafeMallocUninitialized (junk : nat -> Z) (size : Z) : M ptr :=
  if decide (size = 0) then
    SetError SAFEOPS_ERR_INVALID_PARAM "Zero size allocation requested";;
    ret NULL
  else if decide (size > SIZE_MAX - sizeof_size_t) then
    SetError SAFEOPS_ERR_OVERFLOW "Allocation size would overflow";;
    ret NULL
  else
    p ← malloc junk size;
    if decide (p = NULL) then
      SetError SAFEOPS_ERR_ALLOCATION_FAILED "Memory allocation failed";;
      ret NULL
    else ret p.

(** [ptrRef] is null ([None]) or the address of a pointer variable. *)
Definition deref (ptrRef : nat) : M ptr :=
  s ← get; lift (ptrvars s !! ptrRef).

Definition assign (ptrRef : nat) (p : ptr) : M unit :=
  modify (fun s => set_ptrvars (<[ptrRef := p]> (ptrvars s)) s).

Definition SafeFree (ptrRef : option nat) : M unit :=
  match ptrRef with
  | None => ret tt
  | Some r =>
      p ← deref r;
      if decide (p = NULL) then ret tt
      else free p;; assign r NULL
  end.

Definition SafeFreeTyped (ptrRef : option nat) (size : Z) : M bool :=
  match ptrRef with
  | None => modify (set_errno EINVAL);; ret false
  | Some r =>
      p ← deref r;
      if decide (p = NULL) then modify (set_errno EINVAL);; ret false
      else
        (* memset( *ptrRef, 0, size) *)
        s ← get;
        m' ← lift (store (mem s) p (replicate (Z.to_nat size) 0));
        modify (set_mem m');;
        free p;;
        assign r NULL;;
        ret true
  end.

(** ** 2) Safe copy / move (SafeOps.c lines 133-291) *)

(** An out-parameter: [false] is a null pointer.  Functions with an
    out-parameter return their [bool] together with the value stored
    through it, if any. *)
Definition out_ptr := bool.

Definition is_null (p : ptr) : bool := bool_decide (p = NULL).

Definition SafeMemCopy (dest : ptr) (destSize : Z) (src : ptr) (srcSize : Z)
  : M bool :=
  if is_null dest || is_null src then
    SetError SAFEOPS_ERR_NULL_POINTER "NULL pointer in SafeMemCopy";;
    ret false
  else if decide (srcSize > destSize) then
    SetError SAFEOPS_ERR_OUT_OF_BOUNDS "Source size exceeds destination buffer";;
    ret false
  else
    s ← get;
    asrc ← lift (addr (mem s) src);
    adest ← lift (addr (mem s) dest);
    (if (bool_decide (asrc < adest) && bool_decide (wrap (asrc + srcSize) > adest))
        || (bool_decide (adest < asrc) && bool_decide (wrap (adest + destSize) > asrc))
     then
       if g_logger s
       then modify (add_log SAFEOPS_OK "Memory regions overlap, using memmove")
       else ret tt
     else ret tt);;
    memmove dest src srcSize;;
    ret true.

(** The loop [while (len < maxLen && str[len] != 0) len++]: the final
    [len], or no value when it reads past the end of the object. *)
Fixpoint scan (l : list Z) (maxLen n : Z) {struct l} : option Z :=
  if decide (n < maxLen) then
    match l with
    | [] => None
    | c :: l' => if decide (c = 0) then Some n else scan l' maxLen (n + 1)
    end
  else Some n.

(** The test [len == maxLen && str[len] != 0] after the loop. *)
Definition exceeds (v : list Z) (maxLen n : Z) : option bool :=
  if decide (n = maxLen)
  then c ← nth_cell v n; Some (negb (bool_decide (c = 0)))
  else Some false.

Definition SafeStrLen (str : ptr) (maxLen : Z) (outLen : out_ptr)
  : M (bool * option Z) :=
  if is_null str || negb outLen then
    SetError SAFEOPS_ERR_NULL_POINTER "NULL pointer in SafeStrLen";;
    ret (false, None)
  else
    s ← get;
    v ← lift (view (mem s) str);
    n ← lift (scan v maxLen 0);
    over ← lift (exceeds v maxLen n);
    if over : bool then
      SetError SAFEOPS_ERR_OUT_OF_BOUNDS "String exceeds maximum length";;
      ret (false, None)
    else ret (true, Some n).

Definition SafeWStrLen (str : ptr) (maxLen : Z) (outLen : out_ptr)
  : M (bool * option Z) :=
  if is_null str || negb outLen then
    SetError SAFEOPS_ERR_NULL_POINTER "NULL pointer in SafeWStrLen";;
    ret (false, None)
  else
    s ← get;
    v ← lift (view (mem s) str);
    n ← lift (scan v maxLen 0);
    over ← lift (exceeds v maxLen n);
    if over : bool then
      SetError SAFEOPS_ERR_OUT_OF_BOUNDS "String exceeds maximum length";;
      ret (false, None)
    else ret (true, Some n).

Definition SafeStrCat (dest : ptr) (destSize : Z) (src : ptr) : M bool :=
  if is_null dest || is_null src then
    SetError SAFEOPS_ERR_NULL_POINTER "NULL pointer in SafeStrCat";;
    ret false
  else
    r1 ← SafeStrLen dest destSize true;
    match r1 with
    | (true, Some destLen) =>
        r2 ← SafeStrLen src SIZE_MAX true;
        match r2 with
        | (true, Some srcLen) =>
            if decide (wrap (destLen + srcLen) >= destSize) then
              SetError SAFEOPS_ERR_OUT_OF_BOUNDS
                       "Concatenation would overflow buffer";;
              ret false
            else
              memcpy (ptr_add dest destLen) src (wrap (srcLen + 1));;
              ret true
        | _ => ret false
        end
    | _ => ret false
    end.

(** [strncpy(dest, src, n)]: the regions must not overlap. *)
Definition strncpy (dest src : ptr) (n : Z) : M unit :=
  s ← get;
  v ← lift (view (mem s) src);
  bs ← lift (strncpy_data v (Z.to_nat n));
  t ← lift (c_str_upto v (Z.to_nat n));
  if disjoint_regions dest n src (len t) then
    m' ← lift (store (mem s) dest bs);
    modify (set_mem m')
  else fault.

Definition store_cell (p : ptr) (i : Z) (c : Z) : M unit :=
  s ← get;
  m' ← lift (store (mem s) (ptr_add p i) [c]);
  modify (set_mem m').

Definition SafeStrCopy (dest : ptr) (destSize : Z) (src : ptr) : M bool :=
  if negb (negb (is_null dest) && negb (is_null src) && bool_decide (destSize > 0))
  then modify (set_errno EINVAL);; ret false
  else
    srcLen ← strlen src;
    if decide (srcLen >= destSize) then
      modify (set_errno EOVERFLOW);; ret false
    else
      strncpy dest src (destSize - 1);;
      store_cell dest (destSize - 1) 0;;
      ret true.

Definition SafeWStrNCopy (dest : ptr) (destSize : Z) (src : ptr) (count : Z)
  : M bool :=
  if is_null dest || is_null src then
    SetError SAFEOPS_ERR_NULL_POINTER "NULL pointer in SafeWStrNCopy";;
    ret false
  else if decide (destSize = 0) then
    SetError SAFEOPS_ERR_INVALID_PARAM "Destination size is 0";;
    ret false
  else
    r ← SafeWStrLen src count true;
    match r with
    | (true, Some srcLen) =>
        let copyLen := if decide (srcLen < count) then srcLen else count in
        if decide (copyLen >= destSize) then
          SetError SAFEOPS_ERR_OUT_OF_BOUNDS
                   "Insufficient destination buffer size";;
          ret false
        else
          strncpy dest src copyLen;;
          store_cell dest copyLen 0;;
          ret true
    | _ => ret false
    end.

(** [wcsncat(dest, src, n)]: appends after the terminator of [dest]. *)
Definition wcsncat (dest src : ptr) (n : Z) : M unit :=
  s ← get;
  d ← lift (string_at (mem s) dest);
  v ← lift (view (mem s) src);
  bs ← lift (strncat_data v (Z.to_nat n));
  if disjoint_regions (ptr_add dest (len d)) (len bs) src (len bs) then
    m' ← lift (store (mem s) (ptr_add dest (len d)) bs);
    modify (set_mem m')
  else fault.

Definition SafeWStrNCat (dest : ptr) (destSize : Z) (src : ptr) (count : Z)
  : M bool :=
  if is_null dest || is_null src then
    SetError SAFEOPS_ERR_NULL_POINTER "NULL pointer in SafeWStrNCat";;
    ret false
  else
    r1 ← SafeWStrLen dest destSize true;
    match r1 with
    | (true, Some destLen) =>
        r2 ← SafeWStrLen src count true;
        match r2 with
        | (true, Some srcLen) =>
            let copyLen := if decide (srcLen < count) then srcLen else count in
            if decide (wrap (destLen + copyLen) >= destSize) then
              SetError SAFEOPS_ERR_OUT_OF_BOUNDS
                       "Concatenation would overflow buffer";;
              ret false
            else
              wcsncat dest src copyLen;;
              store_cell dest (wrap (destLen + copyLen)) 0;;
              ret true
        | _ => ret false
        end
    | _ => ret false
    end.

(** ** Search and replace (SafeOps.c lines 293-387) *)

Definition SafeStrFind (haystack : ptr) (haystackLen : Z) (needle : ptr)
           (outPos : out_ptr) : M (bool * option Z) :=
  if is_null haystack || is_null needle || negb outPos then
    SetError SAFEOPS_ERR_NULL_POINTER "NULL pointer in SafeStrFind";;
    ret (false, None)
  else
    needleLen ← strlen needle;
    if bool_decide (needleLen = 0) || bool_decide (needleLen > haystackLen) then
      SetError SAFEOPS_ERR_INVALID_PARAM "Invalid needle length";;
      ret (false, None)
    else
      s ← get;
      h ← lift (string_at (mem s) haystack);
      n ← lift (string_at (mem s) needle);
      match strstr h n with
      | None => ret (true, Some haystackLen)
      | Some found => ret (true, Some (Z.of_nat found))
      end.

(** The counting loop
    [while ((pos = strstr(pos, oldStr)) != NULL) { count++; pos += oldLen; }]
    on the string [h] at [pos].  [fuel] bounds the iterations. *)
Fixpoint count_loop (fuel : nat) (h old : list Z) (count : Z) : option Z :=
  match fuel with
  | O => None
  | S fuel' =>
      match strstr h old with
      | Some i => count_loop fuel' (drop (i + length old) h) old (count + 1)
      | None => Some count
      end
  end.

(** The replacement loop.  [rd] is the string at [readPos], [tmp] the
    scratch buffer and [w] the offset of [writePos] in it.  The outer
    [option] is fuel, the inner one a write outside the scratch buffer. *)
Fixpoint replace_loop (fuel : nat) (rd old new : list Z) (tmp : list Z) (w : Z)
  : option (option (list Z)) :=
  match fuel with
  | O => None
  | S fuel' =>
      match strstr rd old with
      | Some i =>
          (* memcpy(writePos, readPos, chunkLen); writePos += chunkLen *)
          match write_at tmp w (take i rd) with
          | None => Some None
          | Some tmp1 =>
              (* memcpy(writePos, newStr, newLen); writePos += newLen *)
              match write_at tmp1 (w + Z.of_nat i) new with
              | None => Some None
              | Some tmp2 =>
                  replace_loop fuel' (drop (i + length old) rd) old new tmp2
                               (w + Z.of_nat i + len new)
              end
          end
      | None =>
          (* strcpy(writePos, readPos) *)
          Some (write_at tmp w (rd ++ [0]))
      end
  end.

(** [finalLen = strLen + count * (newLen - oldLen)] in [size_t] arithmetic. *)
Definition final_length (strLen count newLen oldLen : Z) : Z :=
  wrap (strLen + wrap (count * wrap (newLen - oldLen))).

(** Enough iterations for a string [h]: every iteration consumes at least
    one character when [oldStr] is not empty. *)
Definition enough (h : list Z) : nat := S (length h).

Definition SafeStrReplace (str : ptr) (strSize : Z) (oldStr newStr : ptr)
           (outLen : out_ptr) : M (bool * option Z) :=
  if is_null str || is_null oldStr || is_null newStr || negb outLen then
    SetError SAFEOPS_ERR_NULL_POINTER "NULL pointer in SafeStrReplace";;
    ret (false, None)
  else
    strLen ← strlen str;
    oldLen ← strlen oldStr;
    newLen ← strlen newStr;
    if decide (oldLen = 0) then
      SetError SAFEOPS_ERR_INVALID_PARAM "Empty string to replace";;
      ret (false, None)
    else
      s ← get;
      text ← lift (string_at (mem s) str);
      old ← lift (string_at (mem s) oldStr);
      new ← lift (string_at (mem s) newStr);
      (* First, count occurrences to calculate final size *)
      count ← lift (count_loop (enough text) text old 0);
      (* Calculate new string length *)
      let finalLen := final_length strLen count newLen oldLen in
      if decide (finalLen >= strSize) then
        SetError SAFEOPS_ERR_OUT_OF_BOUNDS "Replacement would overflow buffer";;
        ret (false, None)
      else if decide (count = 0) then
        ret (true, Some strLen)
      else
        (* Allocate temporary buffer for the result *)
        tempBuf ← SafeMalloc strSize;
        if is_null tempBuf then ret (false, None)
        else
          s1 ← get;
          tmp ← lift (view (mem s1) tempBuf);
          (* Perform replacements, then copy the remaining part *)
          r ← lift (replace_loop (enough text) text old new tmp 0);
          tmp' ← lift r;
          m1 ← lift (store (mem s1) tempBuf tmp');
          modify (set_mem m1);;
          (* Copy result back to original buffer *)
          memcpy str tempBuf (wrap (finalLen + 1));;
          (* SafeFree((void** )&tempBuf) *)
          free tempBuf;;
          ret (true, Some finalLen).

(** ** 3) Safe indexed read/write (SafeOps.c lines 393-409) *)

Definition SafeWriteInt (array : ptr) (arraySize index value : Z) : M bool :=
  if is_null array then modify (set_errno EINVAL);; ret false
  else if negb (bool_decide (index < arraySize)) then
    modify (set_errno EINVAL);; ret false
  else
    store_cell array index value;;
    ret true.

Definition SafeReadInt (array : ptr) (arraySize index : Z) (outValue : out_ptr)
  : M (bool * option Z) :=
  if negb (negb (is_null array) && outValue) then
    modify (set_errno EINVAL);; ret (false, None)
  else if negb (bool_decide (index < arraySize)) then
    modify (set_errno EINVAL);; ret (false, None)
  else
    s ← get;
    v ← lift (view (mem s) array);
    c ← lift (nth_cell v index);
    ret (true, Some c).

(** ** 4) Safe pointer offsets (SafeOps.c lines 415-427) *)

Definition SafePointerOffset (base_ : ptr) (baseSize offset : Z) : M ptr :=
  if is_null base_ then modify (set_errno EINVAL);; ret NULL
  else
    s ← get;
    a ← lift (addr (mem s) base_);
    if bool_decide (offset > baseSize) || bool_decide (wrap (a + offset) < a) then
      modify (set_errno EOVERFLOW);; ret NULL
    else ret (ptr_add base_ offset).

(** ** 5) Safe arithmetic (SafeOps.c lines 433-466) *)

(** [gnuc] selects the branch compiled under [__GNUC__] or [__clang__],
    where [__builtin_sadd_overflow] stores the wrapped sum in every case. *)
Definition SafeAddInt (gnuc : bool) (a b : Z) (result : out_ptr)
  : M (bool * option Z) :=
  if negb result then modify (set_errno EINVAL);; ret (false, None)
  else if gnuc then
    if bool_decide (a + b > INT_MAX) || bool_decide (a + b < INT_MIN) then
      modify (set_errno EOVERFLOW);; ret (false, Some (wrap_int (a + b)))
    else ret (true, Some (wrap_int (a + b)))
  else
    if (bool_decide (b > 0) && bool_decide (a > INT_MAX - b))
       || (bool_decide (b < 0) && bool_decide (a < INT_MIN - b))
    then modify (set_errno EOVERFLOW);; ret (false, None)
    else ret (true, Some (a + b)).

Definition SafeCastLongLongToInt (val : Z) (out : out_ptr)
  : M (bool * option Z) :=
  if negb out then modify (set_errno EINVAL);; ret (false, None)
  else if bool_decide (val > INT_MAX) || bool_decide (val < INT_MIN) then
    modify (set_errno EOVERFLOW);; ret (false, None)
  else ret (true, Some val).

(** ** 6) Safe printf (SafeOps.c lines 472-482) *)

(** [written] is what [vprintf] returns; the output itself is not modelled. *)
Definition SafePrintf (format : ptr) (written : Z) : M Z :=
  if is_null format then modify (set_errno EINVAL);; ret (-1)
  else ret written.

(** ** 7) TOCTOU and file handling (SafeOps.c lines 488-566) *)

Record SafeFileOpts := mkOpts {
  followSymlinks : bool;
  requireRegularFile : bool;
  createMode : Z;
  secureDelete : bool
}.

Definition defaultOpts : SafeFileOpts := mkOpts false true 420 (* 0644 *) false.

(** [fcntl.h] and [sys/stat.h] constants (Linux values). *)
Definition O_RDONLY : Z := 0.
Definition O_WRONLY : Z := 1.
Definition O_CREAT : Z := 64.
Definition O_TRUNC : Z := 512.
Definition O_APPEND : Z := 1024.
Definition O_NOFOLLOW : Z := 131072.
Definition S_IFMT : Z := 61440.   (* 0170000 *)
Definition S_IFREG : Z := 32768.  (* 0100000 *)

Definition S_ISREG (m : Z) : bool := bool_decide (Z.land m S_IFMT = S_IFREG).

(** The answers of the operating system.  [os_open path flags mode] is the
    [st_mode] of the file the call opens, or [None] when it fails;
    [os_fopen] likewise for [fopen_s]; [os_fstat_ok] and [os_fdopen_ok]
    say whether [fstat] and [fdopen] succeed on a descriptor. *)
Record os := mkOs {
  os_open : list Z -> Z -> Z -> option Z;
  os_fopen : list Z -> list Z -> option Z;
  os_fstat_ok : nat -> bool;
  os_fdopen_ok : nat -> list Z -> bool
}.

(** The build.  [SafeFOpen] is compiled for Windows ([_WIN32]) or for
    POSIX; in the POSIX build, lines 525-529 add [O_NOFOLLOW] only under
    [#ifdef O_NOFOLLOW], and [<fcntl.h>] defines that macro only when the
    build asks for the POSIX.1-2008 features.  The repository's own build
    (C99, compiler extensions off) does not. *)
Inductive platform := POSIX (o_nofollow : bool) | WIN32.

(** A [FILE *] stream over a descriptor. *)
Inductive FILE := Stream (fd : nat).

Definition strchr (str : list Z) (c : Z) : bool := bool_decide (c ∈ str).

(** [open]/[fopen_s]: on success the lowest unused descriptor is entered
    in the descriptor table. *)
Definition sys_open (E : os) (path : list Z) (flags mode : Z) : M (option nat) :=
  fun s =>
    match os_open E path flags mode with
    | None => Ret None (add_syscall (SysOpen path flags mode None) s)
    | Some st =>
        let fd := fresh (dom (fds s)) in
        Ret (Some fd)
            (add_syscall (SysOpen path flags mode (Some fd))
                         (set_fds (<[fd := st]> (fds s)) s))
    end.

Definition sys_fopen (E : os) (path mode : list Z) : M (option nat) :=
  fun s =>
    match os_fopen E path mode with
    | None => Ret None (add_syscall (SysFopen path mode None) s)
    | Some st =>
        let fd := fresh (dom (fds s)) in
        Ret (Some fd)
            (add_syscall (SysFopen path mode (Some fd))
                         (set_fds (<[fd := st]> (fds s)) s))
    end.

(** [fstat(fd, &st)]: the identity recorded for the open descriptor. *)
Definition sys_fstat (E : os) (fd : nat) : M (option Z) :=
  fun s =>
    let r := if os_fstat_ok E fd then fds s !! fd else None in
    Ret r (add_syscall (SysFstat fd r) s).

Definition sys_close (fd : nat) : M unit :=
  modify (fun s => add_syscall (SysClose fd) (set_fds (delete fd (fds s)) s)).

Definition sys_fclose (fd : nat) : M unit :=
  modify (fun s => add_syscall (SysFclose fd) (set_fds (delete fd (fds s)) s)).

Definition sys_fdopen (E : os) (fd : nat) (mode : list Z) : M bool :=
  fun s =>
    let ok := os_fdopen_ok E fd mode in
    Ret ok (add_syscall (SysFdopen fd mode ok) s).

(** The flags of the POSIX [open] call; [o_nofollow] says whether the
    build defines [O_NOFOLLOW]. *)
Definition open_flags (o_nofollow : bool) (md : list Z) (opts : SafeFileOpts)
  : Z :=
  let flags :=
    if strchr md 119 (* 'w' *) then Z.lor (Z.lor O_WRONLY O_CREAT) O_TRUNC
    else if strchr md 97 (* 'a' *) then Z.lor (Z.lor O_WRONLY O_CREAT) O_APPEND
    else O_RDONLY in
  if negb (followSymlinks opts)
  then (* #ifdef O_NOFOLLOW *)
       if o_nofollow then Z.lor flags O_NOFOLLOW else flags
  else flags.

Definition SafeFOpen (P : platform) (E : os) (filePath mode : ptr)
           (opts : option SafeFileOpts) : M (option FILE) :=
  if is_null filePath || is_null mode then
    SetError SAFEOPS_ERR_NULL_POINTER "NULL pointer in SafeFOpen";;
    ret None
  else
    (* Use default options if none provided *)
    let opts := match opts with Some o => o | None => defaultOpts end in
    s ← get;
    path ← lift (string_at (mem s) filePath);
    md ← lift (string_at (mem s) mode);
    match P with
    | WIN32 =>
        r ← sys_fopen E path md;
        match r with
        | None =>
            SetError SAFEOPS_ERR_FILE_ACCESS "Failed to open file";;
            ret None
        | Some fd =>
            st ← sys_fstat E fd;
            match st with
            | None =>
                sys_fclose fd;;
                SetError SAFEOPS_ERR_FILE_ACCESS "Failed to stat file";;
                ret None
            | Some st_mode =>
                if requireRegularFile opts && negb (S_ISREG st_mode) then
                  sys_fclose fd;;
                  SetError SAFEOPS_ERR_FILE_ACCESS "Not a regular file";;
                  ret None
                else ret (Some (Stream fd))
            end
        end
    | POSIX o_nofollow =>
        let flags := open_flags o_nofollow md opts in
        r ← sys_open E path flags (createMode opts);
        match r with
        | None =>
            SetError SAFEOPS_ERR_FILE_ACCESS "Failed to open file";;
            ret None
        | Some fd =>
            (* Get file information using the file descriptor *)
            st ← sys_fstat E fd;
            match st with
            | None =>
                sys_close fd;;
                SetError SAFEOPS_ERR_FILE_ACCESS "Failed to stat file";;
                ret None
            | Some st_mode =>
                if requireRegularFile opts && negb (S_ISREG st_mode) then
                  sys_close fd;;
                  SetError SAFEOPS_ERR_FILE_ACCESS "Not a regular file";;
                  ret None
                else
                  ok ← sys_fdopen E fd md;
                  if ok : bool then ret (Some (Stream fd))
                  else
                    sys_close fd;;
                    SetError SAFEOPS_ERR_FILE_ACCESS
                             "Failed to create FILE stream";;
                    ret None
            end
        end
    end.

(** ** 8) Additional helpers (SafeOps.c lines 572-575) *)

Definition IsValidPointer (p : ptr) : bool := negb (is_null p).

(** ** Concrete buffers *)

Definition bytes (str : string) : list Z :=
  (fun a => Z.of_N (Ascii.N_of_ascii a)) <$> String.list_ascii_of_string str.

(** A [char buf[cap]] holding [str] and zero padding. *)
Definition buffer (cap : nat) (str : string) : list Z :=
  take cap (bytes str ++ replicate cap 0).

Definition literal (str : string) : list Z := bytes str ++ [0].

Definition init_state (m : gmap nat block) : state :=
  mkState SAFEOPS_OK false [] 0 m ∅ 4096 65536 ∅ [].

(** * Specification-level definitions *)

(** The functions below restate what the operations compute, the
    statements of the contracts, and the concrete memories used to run
    the code. *)

Definition value_of {A} (o : outcome A) : option A :=
  match o with Fault => None | Ret a _ => Some a end.

(** What [SafeStrLen] computes from the elements [v] of its argument:
    no value for a read outside the object, [Some None] for a failure. *)
Definition bounded_scan (v : list Z) (maxLen : Z) : option (option Z) :=
  n ← scan v maxLen 0;
  over ← exceeds v maxLen n;
  Some (if over : bool then None else Some n).

(** One element and its terminator. *)
Definition two_cells : state :=
  init_state (<[0%nat := mkBlock 4096 false [65; 0]]> ∅).

(** A haystack and a needle that occurs after the third byte. *)
Definition abcdef : state :=
  init_state (<[0%nat := mkBlock 4096 false (literal "abcdef")]>
             (<[1%nat := mkBlock 4104 false (literal "ef")]> ∅)).

(** The specification's scan, position by position: at a position where
    [old] occurs the occurrence is counted and the scan advances past it by
    its full length ([skip] positions remain to be passed over). *)
Fixpoint count_nonoverlapping (skip : nat) (old h : list Z) : nat :=
  match h with
  | [] => O
  | _ :: h' =>
      match skip with
      | S k => count_nonoverlapping k old h'
      | O =>
          if is_prefix old h
          then S (count_nonoverlapping (length old - 1) old h')
          else count_nonoverlapping O old h'
      end
  end.

(** The specification's result: each literal chunk followed by each
    replacement. *)
Fixpoint replaced (skip : nat) (old new h : list Z) : list Z :=
  match h with
  | [] => []
  | c :: h' =>
      match skip with
      | S k => replaced k old new h'
      | O =>
          if is_prefix old h
          then new ++ replaced (length old - 1) old new h'
          else c :: replaced O old new h'
      end
  end.

(** The part of [SafeStrReplace] after its checks: scratch allocation,
    replacement, copy back, release. *)
Definition replace_commit (str : ptr) (strSize : Z) (text old new : list Z)
           (finalLen : Z) : M (bool * option Z) :=
  tempBuf ← SafeMalloc strSize;
  if is_null tempBuf then mret (false, None)
  else
    s1 ← get;
    tmp ← lift (view (mem s1) tempBuf);
    r ← lift (replace_loop (enough text) text old new tmp 0);
    tmp' ← lift r;
    m1 ← lift (store (mem s1) tempBuf tmp');
    modify (set_mem m1);;
    memcpy str tempBuf (wrap (finalLen + 1));;
    free tempBuf;;
    mret (true, Some finalLen).

(** The state after a successful replacement: the buffer holds the result
    and its terminator, the scratch object is gone and its bytes are back
    with the allocator. *)
Definition replaced_state (s : state) (sb : nat) (ofs strSize : Z) (r : list Z)
  : state :=
  match mem s !! sb with
  | Some blk =>
      set_heap
        (<[sb := mkBlock (base blk) (on_heap blk)
                         (take (Z.to_nat ofs) (cells blk) ++ (r ++ [0])
                          ++ drop (Z.to_nat ofs + length (r ++ [0])) (cells blk))]>
           (mem s))
        (brk s + strSize) (avail s) s
  | None => s
  end.

(** A buffer of capacity 16 holding "a-b-c", and the strings "-", "+"
    and "". *)
Definition dashed : state :=
  init_state (<[0%nat := mkBlock 4096 false (buffer 16 "a-b-c")]>
             (<[1%nat := mkBlock 4112 false (literal "-")]>
             (<[2%nat := mkBlock 4114 false (literal "+")]>
             (<[3%nat := mkBlock 4116 false (literal "")]> ∅)))).

(** A buffer of capacity 8 holding "a", with an allocator that has
    nothing left to grant. *)
Definition exhausted : state :=
  mkState SAFEOPS_OK false [] 0
          (<[0%nat := mkBlock 4096 false (buffer 8 "a")]>
          (<[1%nat := mkBlock 4104 false (literal "a")]>
          (<[2%nat := mkBlock 4106 false (literal "")]> ∅)))
          ∅ 8192 0 ∅ [].

(** The buffers of the string test. *)
Definition greeting : state :=
  init_state (<[0%nat := mkBlock 4096 false (buffer 50 "Hello, World!")]>
             (<[1%nat := mkBlock 4160 false (literal " How are you?")]>
             (<[2%nat := mkBlock 4176 false (literal "World")]>
             (<[3%nat := mkBlock 4184 false (literal "Everyone")]> ∅)))).

(** The scenario of the string test: concatenate, then replace, reading
    the buffer after each call. *)
Definition end_to_end
  : M (bool * option (list Z) * (bool * option Z) * option (list Z)) :=
  catOk ← SafeStrCat (Ptr 0 0) 50 (Ptr 1 0);
  s1 ← get;
  r ← SafeStrReplace (Ptr 0 0) 50 (Ptr 2 0) (Ptr 3 0) true;
  s2 ← get;
  mret (catOk, string_at (mem s1) (Ptr 0 0), r, string_at (mem s2) (Ptr 0 0)).

(** A destination of four characters without terminator. *)
Definition unterminated : state :=
  init_state (<[0%nat := mkBlock 4096 false (bytes "ABCD")]>
             (<[1%nat := mkBlock 4100 false (literal "x")]> ∅)).

(** What a successful allocation leaves: a fresh live heap object of the
    requested size, paid for from the allocator's budget. *)
Definition allocated (s s' : state) (size : Z) (p : ptr) : Prop :=
  exists b blk,
    p = Ptr b 0 /\ mem s !! b = None
    /\ mem s' = <[b := blk]> (mem s) /\ on_heap blk = true
    /\ length (cells blk) = Z.to_nat size
    /\ avail s' = avail s - len (cells blk)
    /\ ptrvars s' = ptrvars s.

(** The events a call appended to the trace. *)
Definition events_since (s s' : state) (evs : list syscall) : Prop :=
  syscalls s' = syscalls s ++ evs.

(** The event opened, respectively closed, the descriptor [fd]. *)
Definition opens (fd : nat) (e : syscall) : Prop :=
  match e with
  | SysOpen _ _ _ (Some fd') | SysFopen _ _ (Some fd') => fd' = fd
  | _ => False
  end.

Definition closes (fd : nat) (e : syscall) : Prop :=
  match e with
  | SysClose fd' | SysFclose fd' => fd' = fd
  | _ => False
  end.

(** [opts->requireRegularFile] after the default options are applied. *)
Definition required_regular (opts : option SafeFileOpts) : bool :=
  match opts with Some o => requireRegularFile o | None => true end.

(** An operating system where every path opens a directory. *)
Definition dir_os : os :=
  mkOs (fun _ _ _ => Some 16877 (* S_IFDIR | 0755 *)) (fun _ _ => Some 16877)
       (fun _ => true) (fun _ _ => true).

Definition tmp_dir : state :=
  init_state (<[0%nat := mkBlock 4096 false (literal "/tmp")]>
             (<[1%nat := mkBlock 4104 false (literal "r")]> ∅)).

(** The four operations that write through a destination capacity. *)
Inductive write_op :=
| Copy (dest : ptr) (destSize : Z) (src : ptr)
| Concatenate (dest : ptr) (destSize : Z) (src : ptr)
| MemCopy (dest : ptr) (destSize : Z) (src : ptr) (srcSize : Z)
| ReplaceAll (str : ptr) (strSize : Z) (oldStr newStr : ptr).

Definition run_op (o : write_op) : M bool :=
  match o with
  | Copy dest destSize src => SafeStrCopy dest destSize src
  | Concatenate dest destSize src => SafeStrCat dest destSize src
  | MemCopy dest destSize src srcSize => SafeMemCopy dest destSize src srcSize
  | ReplaceAll str strSize oldStr newStr =>
      r ← SafeStrReplace str strSize oldStr newStr true; mret (fst r)
  end.

Definition capacity (o : write_op) : Z :=
  match o with
  | Copy _ c _ | Concatenate _ c _ | MemCopy _ c _ _ | ReplaceAll _ c _ _ => c
  end.

(** The number of elements the operation has to write into its
    destination, terminator included, on well-formed arguments. *)
Definition required_size (m : gmap nat block) (o : write_op) : option Z :=
  match o with
  | Copy dest _ src =>
      if is_null dest then None
      else t ← string_at m src; Some (len t + 1)
  | Concatenate dest _ src =>
      d ← string_at m dest; t ← string_at m src; Some (len d + len t + 1)
  | MemCopy dest _ src srcSize =>
      if is_null dest || is_null src then None else Some srcSize
  | ReplaceAll str _ oldStr newStr =>
      text ← string_at m str; old ← string_at m oldStr; new ← string_at m newStr;
      if decide (old = []) then None
      else Some (len (replaced O old new text) + 1)
  end.

(** A destination of capacity 4 and the string "Hello". *)
Definition small_dest : state :=
  init_state (<[0%nat := mkBlock 4096 false (buffer 4 "")]>
             (<[1%nat := mkBlock 4100 false (literal "Hello")]> ∅)).

(** The fallible operations of the library. *)
Inductive call :=
| CallMalloc (size : Z)
| CallMallocUninitialized (junk : nat -> Z) (size : Z)
| CallFreeTyped (ptrRef : option nat) (size : Z)
| CallMemCopy (dest : ptr) (destSize : Z) (src : ptr) (srcSize : Z)
| CallStrLen (str : ptr) (maxLen : Z) (outLen : out_ptr)
| CallWStrLen (str : ptr) (maxLen : Z) (outLen : out_ptr)
| CallStrCat (dest : ptr) (destSize : Z) (src : ptr)
| CallStrCopy (dest : ptr) (destSize : Z) (src : ptr)
| CallWStrNCopy (dest : ptr) (destSize : Z) (src : ptr) (count : Z)
| CallWStrNCat (dest : ptr) (destSize : Z) (src : ptr) (count : Z)
| CallStrFind (haystack : ptr) (haystackLen : Z) (needle : ptr) (outPos : out_ptr)
| CallStrReplace (str : ptr) (strSize : Z) (oldStr newStr : ptr) (outLen : out_ptr)
| CallWriteInt (array : ptr) (arraySize index value : Z)
| CallReadInt (array : ptr) (arraySize index : Z) (outValue : out_ptr)
| CallPointerOffset (base_ : ptr) (baseSize offset : Z)
| CallAddInt (gnuc : bool) (a b : Z) (result : out_ptr)
| CallCastLongLongToInt (val : Z) (out : out_ptr)
| CallFOpen (P : platform) (E : os) (filePath mode : ptr) (opts : option SafeFileOpts).

(** A call and its success indicator: the returned [bool], or whether the
    returned pointer or stream is non-null. *)
Definition run_call (c : call) : M bool :=
  match c with
  | CallMalloc size => p ← SafeMalloc size; mret (negb (is_null p))
  | CallMallocUninitialized junk size =>
      p ← SafeMallocUninitialized junk size; mret (negb (is_null p))
  | CallFreeTyped ptrRef size => SafeFreeTyped ptrRef size
  | CallMemCopy dest destSize src srcSize => SafeMemCopy dest destSize src srcSize
  | CallStrLen str maxLen outLen => r ← SafeStrLen str maxLen outLen; mret (fst r)
  | CallWStrLen str maxLen outLen => r ← SafeWStrLen str maxLen outLen; mret (fst r)
  | CallStrCat dest destSize src => SafeStrCat dest destSize src
  | CallStrCopy dest destSize src => SafeStrCopy dest destSize src
  | CallWStrNCopy dest destSize src count => SafeWStrNCopy dest destSize src count
  | CallWStrNCat dest destSize src count => SafeWStrNCat dest destSize src count
  | CallStrFind haystack haystackLen needle outPos =>
      r ← SafeStrFind haystack haystackLen needle outPos; mret (fst r)
  | CallStrReplace str strSize oldStr newStr outLen =>
      r ← SafeStrReplace str strSize oldStr newStr outLen; mret (fst r)
  | CallWriteInt array arraySize index value =>
      SafeWriteInt array arraySize index value
  | CallReadInt array arraySize index outValue =>
      r ← SafeReadInt array arraySize index outValue; mret (fst r)
  | CallPointerOffset base_ baseSize offset =>
      p ← SafePointerOffset base_ baseSize offset; mret (negb (is_null p))
  | CallAddInt gnuc a b result => r ← SafeAddInt gnuc a b result; mret (fst r)
  | CallCastLongLongToInt val out => r ← SafeCastLongLongToInt val out; mret (fst r)
  | CallFOpen P E filePath mode opts =>
      r ← SafeFOpen P E filePath mode opts; mret (bool_decide (is_Some r))
  end.

(** The operations whose failure paths call [SetError]; the others assign
    [errno] only. *)
Definition reports_through_SetError (c : call) : bool :=
  match c with
  | CallFreeTyped _ _ | CallStrCopy _ _ _ | CallWriteInt _ _ _ _
  | CallReadInt _ _ _ _ | CallPointerOffset _ _ _ | CallAddInt _ _ _ _
  | CallCastLongLongToInt _ _ => false
  | _ => true
  end.

(** The codes a failing call stores. *)
Definition failure_codes : list SafeOpsError :=
  [SAFEOPS_ERR_NULL_POINTER; SAFEOPS_ERR_OUT_OF_BOUNDS; SAFEOPS_ERR_OVERFLOW;
   SAFEOPS_ERR_INVALID_PARAM; SAFEOPS_ERR_ALLOCATION_FAILED;
   SAFEOPS_ERR_FILE_ACCESS].

(** What a returned call leaves in the diagnostics cells. *)
Definition last_error_contract (via_SetError : bool) (s : state) (ok : bool)
           (s' : state) : Prop :=
  if ok then g_lastError s' = g_lastError s
  else if via_SetError then g_lastError s' ∈ failure_codes
       else g_lastError s' = g_lastError s
            /\ (errno s' = EINVAL \/ errno s' = EOVERFLOW).

(** One object of eight elements, for copies between overlapping regions. *)
Definition one_object : state :=
  init_state (<[0%nat := mkBlock 4096 false [1; 2; 3; 4; 5; 0; 0; 0]]> ∅).

(** A handle (pointer variable 7) that owns a heap object of four
    elements. *)
Definition held : state :=
  mkState SAFEOPS_OK false [] 0
          (<[5%nat := mkBlock 8192 true [1; 2; 3; 4]]> ∅)
          (<[7%nat := Ptr 5 0]> ∅) 8196 1000 ∅ [].

(** An [int numbers[4]]. *)
Definition numbers : state :=
  init_state (<[0%nat := mkBlock 4096 false [10; 20; 30; 40]]> ∅).

(** What a failed call must leave alone: the objects, the pointer
    variables, the descriptor table and the heap budget. *)
Definition kept (s s' : state) : Prop :=
  mem s' = mem s /\ ptrvars s' = ptrvars s /\ fds s' = fds s
  /\ brk s' = brk s /\ avail s' = avail s.

(** What a returned call leaves in the log.  Without a logger, nothing.
    With a logger, a failure reported through [SetError] is one new entry
    carrying the code of the last-error cell, a failure reported through
    [errno] is no entry, and a success is at most one entry with code Ok. *)
Definition log_contract (via_SetError : bool) (s : state) (ok : bool)
           (s' : state) : Prop :=
  g_logger s' = g_logger s
  /\ if g_logger s then
       if ok then
         logged s' = logged s
         \/ exists msg, logged s' = logged s ++ [(SAFEOPS_OK, msg)]
       else if via_SetError then
         exists msg, logged s' = logged s ++ [(g_lastError s', msg)]
       else logged s' = logged s
     else logged s' = logged s.

(** Two handles to one heap object. *)
Definition shared : state :=
  mkState SAFEOPS_OK false [] 0
          (<[5%nat := mkBlock 8192 true [1; 2; 3; 4]]> ∅)
          (<[7%nat := Ptr 5 0]> (<[8%nat := Ptr 5 0]> ∅)) 8196 1000 ∅ [].

(** A run of [n] letters 'a' in a buffer of [n + 1] bytes, the string "a",
    and a replacement of [n + 1] letters 'b'; the allocator can still
    grant [2^33] bytes. *)
Definition long_run (n : nat) : state :=
  mkState SAFEOPS_OK false [] 0
          (<[0%nat := mkBlock 4096 false (replicate n 97 ++ [0])]>
          (<[1%nat := mkBlock (4097 + Z.of_nat n) false [97; 0]]>
          (<[2%nat := mkBlock (4099 + Z.of_nat n) false
                              (replicate (S n) 98 ++ [0])]> ∅)))
          ∅ (4101 + 2 * Z.of_nat n) (2 ^ 33) ∅ [].

(** The run of [2^32] letters: 4 GiB of text in a buffer of [2^32 + 1]
    bytes. *)
Definition wrapping : state := long_run (Z.to_nat (2 ^ 32)).

(** The state after the elements [bs] are stored at offset [ofs] of the
    object [b]. *)
Definition with_cells (s : state) (b : nat) (ofs : Z) (bs : list Z) : state :=
  match mem s !! b with
  | Some blk =>
      set_mem
        (<[b := mkBlock (base blk) (on_heap blk)
                        (take (Z.to_nat ofs) (cells blk) ++ bs
                         ++ drop (Z.to_nat ofs + length bs) (cells blk))]>
           (mem s)) s
  | None => s
  end.

(** * Properties *)

(** ** Running monadic code *)

Ltac unfold_monad :=
  unfold mbind, M_bind, mret, M_ret, bind, ret, get, modify, lift, fault,
    SetError in *.

Ltac run := unfold_monad; simpl in *.

Lemma bind_Ret {A B} (m : M A) (k : A -> M B) (s s' : state) (a : A) :
  m s = Ret a s' -> (m ≫= k) s = k a s'.
Proof. intros H. unfold mbind, M_bind, bind. by rewrite H. Qed.

Lemma bind_Fault {A B} (m : M A) (k : A -> M B) (s : state) :
  m s = Fault -> (m ≫= k) s = Fault.
Proof. intros H. unfold mbind, M_bind, bind. by rewrite H. Qed.

Lemma bind_lift {A B} (a : A) (k : A -> M B) (s : state) :
  (lift (Some a) ≫= k) s = k a s.
Proof. reflexivity. Qed.

Lemma bind_get {B} (k : state -> M B) (s : state) : (get ≫= k) s = k s s.
Proof. reflexivity. Qed.

Lemma bind_modify {B} (f : state -> state) (k : unit -> M B) (s : state) :
  (modify f ≫= k) s = k tt (f s).
Proof. reflexivity. Qed.

Lemma bind_SetError {B} e msg (k : unit -> M B) (s : state) :
  (SetError e msg ≫= k) s = k tt (reported e msg s).
Proof. reflexivity. Qed.

Lemma option_bind_Some {A B} (a : A) (f : A -> option B) : Some a ≫= f = f a.
Proof. reflexivity. Qed.

Ltac step :=
  rewrite ?option_bind_Some, ?bind_lift, ?bind_get, ?bind_modify, ?bind_SetError.

Lemma len_nonneg (l : list Z) : 0 <= len l.
Proof. unfold len. lia. Qed.

Lemma len_app (a b : list Z) : len (a ++ b) = len a + len b.
Proof. unfold len. rewrite length_app. lia. Qed.

Lemma len_cons (c : Z) (l : list Z) : len (c :: l) = 1 + len l.
Proof. unfold len. simpl. lia. Qed.

Lemma len_nil : len [] = 0.
Proof. reflexivity. Qed.

Lemma g_lastError_reported e msg s : g_lastError (reported e msg s) = e.
Proof. unfold reported. simpl. destruct (g_logger s); reflexivity. Qed.

Lemma mem_reported e msg s : mem (reported e msg s) = mem s.
Proof. unfold reported. simpl. destruct (g_logger s); reflexivity. Qed.

Lemma fds_reported e msg s : fds (reported e msg s) = fds s.
Proof. unfold reported. simpl. destruct (g_logger s); reflexivity. Qed.

(** ** Strings in memory *)

Lemma c_str_nonzero (l t : list Z) : c_str l = Some t -> 0 ∉ t.
Proof.
  revert t. induction l as [|c l IH]; intros t H; simpl in H; [discriminate|].
  destruct (decide (c = 0)) as [->|Hc].
  - injection H as <-. apply not_elem_of_nil.
  - destruct (c_str l) as [t'|]; simpl in H; [|discriminate].
    injection H as <-. rewrite elem_of_cons. intros [E|E]; [congruence|].
    by apply (IH t').
Qed.

Lemma c_str_split (l t : list Z) :
  c_str l = Some t -> l = t ++ 0 :: drop (S (length t)) l.
Proof.
  revert t. induction l as [|c l IH]; intros t H; simpl in H; [discriminate|].
  destruct (decide (c = 0)) as [->|Hc].
  - injection H as <-. simpl. by rewrite drop_0.
  - destruct (c_str l) as [t'|]; simpl in H; [|discriminate].
    injection H as <-. simpl. f_equal. by apply IH.
Qed.

Lemma c_str_app (t r : list Z) : 0 ∉ t -> c_str (t ++ 0 :: r) = Some t.
Proof.
  induction t as [|c t IH]; intros H; simpl.
  - reflexivity.
  - rewrite not_elem_of_cons in H. destruct H as [Hc Ht].
    rewrite decide_False by congruence. by rewrite IH.
Qed.

Lemma c_str_length (l t : list Z) : c_str l = Some t -> (length t < length l)%nat.
Proof.
  intros H. apply c_str_split in H.
  apply (f_equal length) in H. rewrite length_app in H. simpl in H. lia.
Qed.

(** ** The bounded length scan *)

Lemma scan_spec (l : list Z) (maxLen n : Z) :
  n <= maxLen ->
  scan l maxLen n =
    match c_str (take (Z.to_nat (maxLen - n)) l) with
    | Some t => Some (n + len t)
    | None =>
        if decide (Z.to_nat (maxLen - n) <= length l)%nat
        then Some maxLen else None
    end.
Proof.
  revert n. induction l as [|c l IH]; intros n Hn; simpl.
  - rewrite take_nil. simpl. destruct (decide (n < maxLen)) as [Hlt|Hge].
    + rewrite decide_False by lia. reflexivity.
    + rewrite decide_True by lia. f_equal. lia.
  - destruct (decide (n < maxLen)) as [Hlt|Hge].
    + replace (Z.to_nat (maxLen - n)) with (S (Z.to_nat (maxLen - (n + 1)))) by lia.
      simpl. destruct (decide (c = 0)) as [->|Hc].
      * f_equal. rewrite len_nil. lia.
      * rewrite IH by lia.
        destruct (c_str (take (Z.to_nat (maxLen - (n + 1))) l)) as [t|]; simpl.
        -- f_equal. rewrite len_cons. lia.
        -- destruct (decide (Z.to_nat (maxLen - (n + 1)) <= length l)%nat);
             [rewrite decide_True by lia | rewrite decide_False by lia]; reflexivity.
    + replace (Z.to_nat (maxLen - n)) with O by lia. simpl.
      f_equal. lia.
Qed.

Lemma c_str_take_snoc (v : list Z) (k : nat) :
  c_str (take (S k) v) =
    match c_str (take k v) with
    | Some t => Some t
    | None =>
        match v !! k with
        | Some c => if decide (c = 0) then Some (take k v) else None
        | None => None
        end
    end.
Proof.
  revert v. induction k as [|k IH]; intros [|c v]; simpl; try reflexivity.
  destruct (decide (c = 0)); [reflexivity|].
  rewrite (IH v).
  destruct (c_str (take k v)); simpl; [reflexivity|].
  destruct (v !! k) as [d|]; simpl; [|reflexivity].
  destruct (decide (d = 0)); reflexivity.
Qed.

Lemma bounded_scan_spec (v : list Z) (maxLen : Z) :
  0 <= maxLen ->
  bounded_scan v maxLen =
    match c_str (take (S (Z.to_nat maxLen)) v) with
    | Some t => Some (Some (len t))
    | None => if decide (Z.to_nat maxLen < length v)%nat then Some None else None
    end.
Proof.
  intros Hm. unfold bounded_scan. rewrite scan_spec by lia.
  rewrite Z.sub_0_r, c_str_take_snoc.
  destruct (c_str (take (Z.to_nat maxLen) v)) as [t|] eqn:Ht; simpl.
  - assert (length t < Z.to_nat maxLen)%nat.
    { apply c_str_length in Ht. rewrite length_take in Ht. lia. }
    unfold exceeds. rewrite decide_False by (unfold len; lia). reflexivity.
  - destruct (decide (Z.to_nat maxLen <= length v)%nat) as [Hle|Hgt]; simpl.
    + unfold exceeds, nth_cell. rewrite decide_True by reflexivity.
      rewrite decide_True by lia.
      destruct (v !! Z.to_nat maxLen) as [c|] eqn:Hc; simpl.
      * apply lookup_lt_Some in Hc as Hlt.
        destruct (decide (c = 0)) as [->|Hne].
        -- rewrite bool_decide_true by reflexivity. simpl. do 2 f_equal.
           unfold len. rewrite length_take. lia.
        -- rewrite bool_decide_false by assumption. simpl.
           rewrite decide_True by lia. reflexivity.
      * apply lookup_ge_None in Hc. rewrite decide_False by lia. reflexivity.
    + rewrite lookup_ge_None_2 by lia. rewrite decide_False by lia. reflexivity.
Qed.

Lemma SafeStrLen_eq (str : ptr) (maxLen : Z) (s : state) :
  str <> NULL ->
  SafeStrLen str maxLen true s =
    match view (mem s) str ≫= (fun v => bounded_scan v maxLen) with
    | None => Fault
    | Some None =>
        Ret (false, None)
            (reported SAFEOPS_ERR_OUT_OF_BOUNDS "String exceeds maximum length" s)
    | Some (Some n) => Ret (true, Some n) s
    end.
Proof.
  intros Hp. unfold SafeStrLen, is_null. rewrite bool_decide_false by assumption.
  run. destruct (view (mem s) str) as [v|]; simpl; [|reflexivity].
  unfold bounded_scan. destruct (scan v maxLen 0) as [n|]; simpl; [|reflexivity].
  destruct (exceeds v maxLen n) as [[]|]; reflexivity.
Qed.

Lemma SafeWStrLen_eq (str : ptr) (maxLen : Z) (s : state) :
  str <> NULL ->
  SafeWStrLen str maxLen true s =
    match view (mem s) str ≫= (fun v => bounded_scan v maxLen) with
    | None => Fault
    | Some None =>
        Ret (false, None)
            (reported SAFEOPS_ERR_OUT_OF_BOUNDS "String exceeds maximum length" s)
    | Some (Some n) => Ret (true, Some n) s
    end.
Proof.
  intros Hp. unfold SafeWStrLen, is_null. rewrite bool_decide_false by assumption.
  run. destruct (view (mem s) str) as [v|]; simpl; [|reflexivity].
  unfold bounded_scan. destruct (scan v maxLen 0) as [n|]; simpl; [|reflexivity].
  destruct (exceeds v maxLen n) as [[]|]; reflexivity.
Qed.

Lemma c_str_None_iff (l : list Z) : c_str l = None <-> 0 ∉ l.
Proof.
  induction l as [|c l IH]; simpl.
  - split; [intros _; apply not_elem_of_nil | reflexivity].
  - rewrite not_elem_of_cons. destruct (decide (c = 0)) as [->|Hc].
    + split; [discriminate | intros [? _]; congruence].
    + destruct (c_str l); simpl.
      * split; [discriminate|]. intros [_ H]. by apply IH in H.
      * split; [|reflexivity]. intros _. split; [congruence|]. by apply IH.
Qed.

Lemma c_str_first (l : list Z) (k : nat) :
  l !! k = Some 0 -> 0 ∉ take k l -> c_str l = Some (take k l).
Proof.
  intros Hk Hn. rewrite <- (take_drop_middle l k 0 Hk) at 1.
  by apply c_str_app.
Qed.

Lemma c_str_elem (l t : list Z) : c_str l = Some t -> 0 ∈ l.
Proof.
  intros H. destruct (decide (0 ∈ l)) as [|Hn]; [assumption|].
  apply c_str_None_iff in Hn. congruence.
Qed.

(** C6 (amended).  The bounded length scan of [SafeStrLen] and [SafeWStrLen]
    examines the elements at indices 0..maxLen, that is at most the first
    maxLen + 1 elements: its result is the same on any two sequences that
    agree there.  It succeeds, returning the index of the first terminator
    and leaving the state untouched, exactly when a terminator occurs among
    those maxLen + 1 elements, and it fails with OutOfBounds when they are
    all present and none of them is a terminator. *)
Theorem SafeStrLen_scans_through_maxLen
  (s : state) (str : ptr) (maxLen : Z) (v : list Z)
  (Hv : view (mem s) str = Some v) (Hm : 0 <= maxLen) :
  SafeWStrLen str maxLen true s = SafeStrLen str maxLen true s
  /\ (forall k : nat,
        Z.of_nat k <= maxLen -> v !! k = Some 0 -> 0 ∉ take k v ->
        SafeStrLen str maxLen true s = Ret (true, Some (Z.of_nat k)) s)
  /\ ((exists n, value_of (SafeStrLen str maxLen true s) = Some (true, Some n))
      <-> 0 ∈ take (S (Z.to_nat maxLen)) v)
  /\ (0 ∉ take (S (Z.to_nat maxLen)) v -> maxLen < len v ->
      SafeStrLen str maxLen true s =
        Ret (false, None)
            (reported SAFEOPS_ERR_OUT_OF_BOUNDS "String exceeds maximum length" s))
  /\ (forall (s' : state) (str' : ptr) (v' : list Z),
        view (mem s') str' = Some v' ->
        take (S (Z.to_nat maxLen)) v' = take (S (Z.to_nat maxLen)) v ->
        value_of (SafeStrLen str' maxLen true s')
        = value_of (SafeStrLen str maxLen true s)).
Proof.
  assert (Hp : str <> NULL) by (intros ->; discriminate).
  assert (Hlen : forall w : list Z,
             (Z.to_nat maxLen < length w)%nat
             <-> length (take (S (Z.to_nat maxLen)) w) = S (Z.to_nat maxLen)).
  { intros w. rewrite length_take. lia. }
  rewrite SafeWStrLen_eq, SafeStrLen_eq by assumption.
  rewrite Hv. simpl. rewrite bounded_scan_spec by assumption.
  split; [reflexivity|]. split; [|split; [|split]].
  - intros k Hk H0 Hn.
    assert (c_str (take (S (Z.to_nat maxLen)) v) = Some (take k v)) as ->.
    { assert (Ht : take k (take (S (Z.to_nat maxLen)) v) = take k v).
      { rewrite take_take. f_equal. lia. }
      rewrite <- Ht. apply c_str_first.
      - rewrite lookup_take_lt by lia. assumption.
      - rewrite Ht. assumption. }
    do 2 f_equal. f_equal. unfold len. rewrite length_take.
    apply lookup_lt_Some in H0. lia.
  - destruct (c_str (take (S (Z.to_nat maxLen)) v)) as [t|] eqn:Ht.
    + split; [intros _; by apply (c_str_elem _ t) | intros _; by eexists].
    + apply c_str_None_iff in Ht. split; [|tauto].
      intros [n Hn]. destruct (decide (Z.to_nat maxLen < length v)%nat); discriminate.
  - intros Hn Hl. apply c_str_None_iff in Hn. rewrite Hn.
    rewrite decide_True by (unfold len in Hl; lia). reflexivity.
  - intros s' str' v' Hv' Heq.
    assert (Hp' : str' <> NULL) by (intros ->; discriminate).
    rewrite SafeStrLen_eq by assumption. rewrite Hv'. simpl.
    rewrite bounded_scan_spec by assumption. rewrite Heq.
    destruct (c_str (take (S (Z.to_nat maxLen)) v)); [reflexivity|].
    destruct (decide (Z.to_nat maxLen < length v')%nat) as [H1|H1];
      destruct (decide (Z.to_nat maxLen < length v)%nat) as [H2|H2];
      try reflexivity; exfalso;
      rewrite Hlen in H1; rewrite Hlen in H2; rewrite Heq in H1; contradiction.
Qed.

Lemma SafeStrLen_scans_through_maxLen_witness :
  view (mem two_cells) (Ptr 0 0) = Some [65; 0] /\ 0 <= 1
  /\ SafeStrLen (Ptr 0 0) 1 true two_cells = Ret (true, Some 1) two_cells.
Proof.
  split; [reflexivity|]. split; [lia|].
  destruct (SafeStrLen_scans_through_maxLen two_cells (Ptr 0 0) 1 [65; 0])
    as (_ & H & _); [reflexivity | lia |].
  apply (H 1%nat); [lia | reflexivity |].
  simpl. rewrite not_elem_of_cons. split; [lia | apply not_elem_of_nil].
Defined.

(** C6 as it is written fails: with [maxLen = 1] the sequence [65; 0] has
    no terminator among its first [maxLen] elements, yet the scan succeeds
    with length 1, and two sequences that agree on their first [maxLen]
    elements get different answers. *)
Lemma SafeStrLen_terminator_at_maxLen :
  (0 ∉ take 1 [65; 0])
  /\ SafeStrLen (Ptr 0 0) 1 true two_cells = Ret (true, Some 1) two_cells
  /\ take 1 [65; 66] = take 1 [65; 0]
  /\ value_of (SafeStrLen (Ptr 0 0) 1 true
                 (init_state (<[0%nat := mkBlock 4096 false [65; 66]]> ∅)))
     = Some (false, None).
Proof.
  split; [|split; [reflexivity | split; reflexivity]].
  simpl. rewrite not_elem_of_cons. split; [lia | apply not_elem_of_nil].
Qed.

(** ** Substring search *)

Lemma is_prefix_spec (n h : list Z) : is_prefix n h = true <-> n `prefix_of` h.
Proof.
  revert h. induction n as [|a n IH]; intros h; simpl.
  - split; [intros _; apply prefix_nil | reflexivity].
  - destruct h as [|b h].
    + split; [discriminate|]. intros [k Hk]. discriminate.
    + rewrite andb_true_iff, bool_decide_eq_true, IH. split.
      * intros [-> Hp]. by apply prefix_cons.
      * intros [k Hk]. simpl in Hk. injection Hk as -> ->.
        split; [reflexivity|]. by exists k.
Qed.

Lemma is_prefix_length (n h : list Z) :
  is_prefix n h = true -> (length n <= length h)%nat.
Proof. rewrite is_prefix_spec. apply prefix_length. Qed.

(** [strstr] returns the first offset at which the needle occurs. *)
Lemma strstr_Some (h n : list Z) (i : nat) :
  strstr h n = Some i ->
  is_prefix n (drop i h) = true
  /\ forall j, (j < i)%nat -> is_prefix n (drop j h) = false.
Proof.
  revert i. induction h as [|c h IH]; intros i; simpl.
  - destruct (is_prefix n []) eqn:Hp; [|discriminate].
    intros [= <-]. split; [assumption | intros; lia].
  - destruct (is_prefix n (c :: h)) eqn:Hp.
    + intros [= <-]. split; [assumption | intros; lia].
    + destruct (strstr h n) as [k|]; simpl; [|discriminate].
      intros [= <-]. destruct (IH k eq_refl) as [H1 H2].
      split; [assumption|]. intros [|j] Hj; [assumption|].
      simpl. apply H2. lia.
Qed.

Lemma strstr_None (h n : list Z) :
  strstr h n = None -> forall j, is_prefix n (drop j h) = false.
Proof.
  induction h as [|c h IH]; simpl.
  - destruct (is_prefix n []) eqn:Hp; [discriminate|].
    intros _ j. by rewrite drop_nil.
  - destruct (is_prefix n (c :: h)) eqn:Hp; [discriminate|].
    destruct (strstr h n) as [k|]; simpl; [discriminate|].
    intros _ [|j]; [assumption|]. simpl. by apply IH.
Qed.

Lemma strstr_bound (h n : list Z) (i : nat) :
  strstr h n = Some i -> (i + length n <= length h)%nat.
Proof.
  intros H. apply strstr_Some in H as [H Hfirst].
  apply is_prefix_length in H. rewrite length_drop in H.
  destruct (decide (i <= length h)%nat); [lia|].
  destruct n; [|simpl in H; lia].
  specialize (Hfirst O). simpl in Hfirst. discriminate Hfirst. lia.
Qed.

Lemma strstr_bound_nonempty (h n : list Z) (i : nat) :
  n <> [] -> strstr h n = Some i -> (i < length h)%nat.
Proof.
  intros Hn H. apply strstr_Some in H as [H _].
  apply is_prefix_length in H. rewrite length_drop in H.
  destruct n; [congruence|]. simpl in H. lia.
Qed.

Lemma strlen_eq (p : ptr) (t : list Z) (s : state) :
  string_at (mem s) p = Some t -> strlen p s = Ret (len t) s.
Proof. intros H. unfold strlen. run. rewrite H. reflexivity. Qed.

(** On a haystack whose length is [haystackLen], [SafeStrFind] reports
    [haystackLen] when the needle does not occur and the first offset
    otherwise. *)
Lemma SafeStrFind_whole_string
  (s : state) (haystack needle : ptr) (h n : list Z)
  (Hh : string_at (mem s) haystack = Some h)
  (Hn : string_at (mem s) needle = Some n)
  (Hne : n <> []) (Hle : len n <= len h) :
  exists pos,
    SafeStrFind haystack (len h) needle true s = Ret (true, Some pos) s
    /\ (pos = len h <-> forall j, is_prefix n (drop j h) = false)
    /\ (pos <> len h ->
        is_prefix n (drop (Z.to_nat pos) h) = true
        /\ forall j, (j < Z.to_nat pos)%nat -> is_prefix n (drop j h) = false).
Proof.
  assert (haystack <> NULL) by (intros ->; discriminate).
  assert (needle <> NULL) by (intros ->; discriminate).
  unfold SafeStrFind, is_null. rewrite !bool_decide_false by assumption. simpl.
  unfold mbind at 1, M_bind at 1, bind at 1. rewrite (strlen_eq _ _ _ Hn).
  assert (len n <> 0) by (destruct n; [congruence | rewrite len_cons; pose proof (len_nonneg n); lia]).
  rewrite !bool_decide_false by lia. run. rewrite Hh, Hn. simpl.
  destruct (strstr h n) as [i|] eqn:Hs.
  - exists (Z.of_nat i). split; [reflexivity|].
    pose proof (strstr_bound_nonempty h n i Hne Hs) as Hb.
    destruct (strstr_Some h n i Hs) as [Hocc Hfirst]. rewrite Nat2Z.id.
    split; [split|].
    + unfold len. lia.
    + intros Hall. rewrite Hall in Hocc. discriminate.
    + intros _. split; assumption.
  - exists (len h). split; [reflexivity|]. split; [|congruence].
    split; [|reflexivity]. intros _. by apply strstr_None.
Qed.

(** C3 at the input where the code departs from it: the haystack "abcdef"
    with [haystackLen = 3] and the needle "ef".  The needle does not occur
    in the first three bytes, so the claim asks for the sentinel 3; the
    search runs to the terminator of the haystack and reports offset 4. *)
Lemma SafeStrFind_searches_past_haystackLen :
  strstr (take 3 (bytes "abcdef")) (bytes "ef") = None
  /\ SafeStrFind (Ptr 0 0) 3 (Ptr 1 0) true abcdef = Ret (true, Some 4) abcdef.
Proof. split; reflexivity. Qed.

(** ** Counting and replacing occurrences *)

Lemma count_skip (old h : list Z) (k : nat) :
  count_nonoverlapping k old h = count_nonoverlapping O old (drop k h).
Proof.
  revert k. induction h as [|c h IH]; intros [|k]; try reflexivity.
  simpl. apply IH.
Qed.

Lemma replaced_skip (old new h : list Z) (k : nat) :
  replaced k old new h = replaced O old new (drop k h).
Proof.
  revert k. induction h as [|c h IH]; intros [|k]; try reflexivity.
  simpl. apply IH.
Qed.

Lemma drop_past_match (old h : list Z) (c : Z) :
  old <> [] -> drop (length old) (c :: h) = drop (length old - 1) h.
Proof. destruct old; [congruence|]. intros _. simpl. by rewrite Nat.sub_0_r. Qed.

Lemma count_no_match (old h : list Z) :
  strstr h old = None -> count_nonoverlapping O old h = O.
Proof.
  induction h as [|c h IH]; simpl; [reflexivity|].
  destruct (is_prefix old (c :: h)) eqn:Hp; [discriminate|].
  destruct (strstr h old); simpl; [discriminate|]. intros _. by apply IH.
Qed.

Lemma replaced_no_match (old new h : list Z) :
  strstr h old = None -> replaced O old new h = h.
Proof.
  induction h as [|c h IH]; simpl; [reflexivity|].
  destruct (is_prefix old (c :: h)) eqn:Hp; [discriminate|].
  destruct (strstr h old); simpl; [discriminate|].
  intros _. f_equal. by apply IH.
Qed.

Lemma count_match (old h : list Z) (i : nat) :
  old <> [] -> strstr h old = Some i ->
  count_nonoverlapping O old h
  = S (count_nonoverlapping O old (drop (i + length old) h)).
Proof.
  intros Ho. revert i. induction h as [|c h IH]; intros i.
  - destruct old; [congruence | discriminate].
  - simpl strstr. simpl count_nonoverlapping.
    destruct (is_prefix old (c :: h)) eqn:Hp.
    + intros [= <-]. rewrite count_skip. simpl plus.
      by rewrite drop_past_match.
    + destruct (strstr h old) as [k|]; simpl; [|discriminate].
      intros [= <-]. by rewrite (IH k).
Qed.

Lemma replaced_match (old new h : list Z) (i : nat) :
  old <> [] -> strstr h old = Some i ->
  replaced O old new h
  = take i h ++ new ++ replaced O old new (drop (i + length old) h).
Proof.
  intros Ho. revert i. induction h as [|c h IH]; intros i.
  - destruct old; [congruence | discriminate].
  - simpl strstr. simpl replaced.
    destruct (is_prefix old (c :: h)) eqn:Hp.
    + intros [= <-]. rewrite replaced_skip. simpl plus.
      by rewrite drop_past_match.
    + destruct (strstr h old) as [k|]; simpl; [|discriminate].
      intros [= <-]. by rewrite (IH k).
Qed.

(** The counting loop of the code terminates within its fuel and counts
    what the specification's scan counts. *)
Lemma count_loop_spec (fuel : nat) (h old : list Z) (count : Z) :
  old <> [] -> (length h < fuel)%nat ->
  count_loop fuel h old count
  = Some (count + Z.of_nat (count_nonoverlapping O old h)).
Proof.
  intros Ho. revert h count. induction fuel as [|fuel IH]; intros h count Hf; [lia|].
  simpl. destruct (strstr h old) as [i|] eqn:Hs.
  - rewrite IH.
    + rewrite (count_match old h i Ho Hs). f_equal. lia.
    + rewrite length_drop. apply strstr_bound_nonempty in Hs; [|assumption].
      assert (length old <> O) by (destruct old; [congruence | discriminate]).
      lia.
  - rewrite (count_no_match old h Hs). f_equal. lia.
Qed.

(** Occurrences that do not overlap fit in the string. *)
Lemma count_bound (old h : list Z) :
  old <> [] ->
  (count_nonoverlapping O old h * length old <= length h)%nat.
Proof.
  intros Ho. remember (length h) as n eqn:Hn.
  revert h Hn. induction n as [n IH] using lt_wf_ind. intros h ->.
  destruct (strstr h old) as [i|] eqn:Hs.
  - rewrite (count_match old h i Ho Hs).
    pose proof (strstr_bound h old i Hs) as Hb.
    pose proof (strstr_bound_nonempty h old i Ho Hs) as Hb'.
    specialize (IH (length (drop (i + length old) h))).
    rewrite length_drop in IH.
    assert (length old <> O) by (destruct old; [congruence | discriminate]).
    specialize (IH ltac:(lia) (drop (i + length old) h)).
    rewrite length_drop in IH. specialize (IH eq_refl). simpl. lia.
  - rewrite (count_no_match old h Hs). lia.
Qed.

(** The length of the result is the specification's formula. *)
Lemma replaced_length (old new h : list Z) :
  old <> [] ->
  len (replaced O old new h)
  = len h + Z.of_nat (count_nonoverlapping O old h) * (len new - len old).
Proof.
  intros Ho. remember (length h) as n eqn:Hn.
  revert h Hn. induction n as [n IH] using lt_wf_ind. intros h ->.
  destruct (strstr h old) as [i|] eqn:Hs.
  - rewrite (count_match old h i Ho Hs), (replaced_match old new h i Ho Hs).
    pose proof (strstr_bound h old i Hs) as Hb.
    assert (length old <> O) by (destruct old; [congruence | discriminate]).
    rewrite !len_app.
    rewrite (IH (length (drop (i + length old) h))
                ltac:(rewrite length_drop; lia) _ eq_refl).
    unfold len. rewrite length_take, length_drop. nia.
  - rewrite (count_no_match old h Hs), (replaced_no_match old new h Hs). lia.
Qed.

(** ** Writes into a buffer *)

Lemma write_at_Some (l : list Z) (i : Z) (bs : list Z) :
  0 <= i -> i + len bs <= len l ->
  write_at l i bs
  = Some (take (Z.to_nat i) l ++ bs ++ drop (Z.to_nat i + length bs) l).
Proof. intros. unfold write_at. by rewrite decide_True. Qed.

Lemma write_at_length (l l' : list Z) (i : Z) (bs : list Z) :
  write_at l i bs = Some l' -> length l' = length l.
Proof.
  unfold write_at, len. case_decide; [|discriminate]. intros [= <-].
  rewrite !length_app, length_take, length_drop. lia.
Qed.

(** Two adjacent writes are one write of the concatenation. *)
Lemma write_at_app (l : list Z) (i : Z) (a b : list Z) :
  write_at l i (a ++ b)
  = write_at l i a ≫= (fun l1 => write_at l1 (i + len a) b).
Proof.
  pose proof (len_nonneg a). pose proof (len_nonneg b).
  destruct (write_at l i a) as [l1|] eqn:H1; simpl.
  - pose proof (write_at_length _ _ _ _ H1) as Hl.
    unfold write_at in *. rewrite len_app.
    case_decide as Hd; [|discriminate]. injection H1 as <-.
    unfold len in *.
    destruct (decide (0 <= i /\ i + (Z.of_nat (length a) + Z.of_nat (length b))
                                <= Z.of_nat (length l))) as [Hd'|Hd'].
    + rewrite decide_True by lia. f_equal.
      replace (Z.to_nat (i + Z.of_nat (length a)))
        with (length (take (Z.to_nat i) l ++ a))
        by (rewrite length_app, length_take; lia).
      rewrite (app_assoc (take (Z.to_nat i) l) a).
      rewrite take_app_length, drop_app_add, drop_drop.
      rewrite length_app at 1. rewrite <- !app_assoc. do 3 f_equal.
      f_equal. lia.
    + rewrite decide_False by lia. reflexivity.
  - unfold write_at in *. rewrite len_app.
    case_decide; [discriminate|]. rewrite decide_False by lia. reflexivity.
Qed.

(** The replacement loop terminates within its fuel, and its writes
    amount to one write of the specification's result and a terminator. *)
Lemma replace_loop_spec (fuel : nat) (rd old new tmp : list Z) (w : Z) :
  old <> [] -> (length rd < fuel)%nat ->
  replace_loop fuel rd old new tmp w
  = Some (write_at tmp w (replaced O old new rd ++ [0])).
Proof.
  intros Ho. revert rd tmp w.
  induction fuel as [|fuel IH]; intros rd tmp w Hf; [lia|].
  simpl. destruct (strstr rd old) as [i|] eqn:Hs.
  - pose proof (strstr_bound_nonempty rd old i Ho Hs) as Hb.
    assert (length old <> O) by (destruct old; [congruence | discriminate]).
    rewrite (replaced_match old new rd i Ho Hs).
    rewrite <- !app_assoc. rewrite write_at_app.
    assert (Hi : len (take i rd) = Z.of_nat i)
      by (unfold len; rewrite length_take; lia).
    rewrite Hi.
    destruct (write_at tmp w (take i rd)) as [tmp1|]; simpl; [|reflexivity].
    rewrite write_at_app.
    destruct (write_at tmp1 (w + Z.of_nat i) new) as [tmp2|]; simpl; [|reflexivity].
    apply IH. rewrite length_drop. lia.
  - by rewrite (replaced_no_match old new rd Hs).
Qed.

(** ** [size_t] arithmetic *)

Lemma wrap_small (z : Z) : 0 <= z <= SIZE_MAX -> wrap z = z.
Proof. unfold wrap, SIZE_MAX. intros H. apply Z.mod_small. lia. Qed.

Lemma final_length_mod (strLen count newLen oldLen : Z) :
  final_length strLen count newLen oldLen
  = wrap (strLen + count * (newLen - oldLen)).
Proof.
  unfold final_length, wrap.
  rewrite Zmult_mod_idemp_r, Zplus_mod_idemp_r. reflexivity.
Qed.

(** The wrapped computation yields the exact length whenever that length
    is representable, also when [newLen - oldLen] itself wraps. *)
Lemma final_length_exact (old new h : list Z) :
  old <> [] -> len (replaced O old new h) <= SIZE_MAX ->
  final_length (len h) (Z.of_nat (count_nonoverlapping O old h)) (len new) (len old)
  = len (replaced O old new h).
Proof.
  intros Ho Hr. rewrite final_length_mod, <- replaced_length by assumption.
  apply wrap_small. pose proof (len_nonneg (replaced O old new h)). lia.
Qed.

(** ** The allocator *)

Lemma SafeMalloc_granted (size : Z) (s : state) :
  0 < size <= SIZE_MAX - sizeof_size_t -> size <= avail s ->
  SafeMalloc size s = new_block (replicate (Z.to_nat size) 0) s.
Proof.
  intros Hs Ha. unfold SafeMalloc, calloc.
  rewrite !decide_False by lia. run. rewrite decide_True by assumption.
  unfold new_block. reflexivity.
Qed.

Lemma SafeMalloc_overflow (size : Z) (s : state) :
  size > SIZE_MAX - sizeof_size_t ->
  SafeMalloc size s
  = Ret NULL (reported SAFEOPS_ERR_OVERFLOW "Allocation size would overflow" s).
Proof.
  intros Hs. unfold SafeMalloc.
  rewrite decide_False by (unfold SIZE_MAX, sizeof_size_t in Hs; lia).
  rewrite decide_True by assumption. reflexivity.
Qed.

Lemma SafeMalloc_exhausted (size : Z) (s : state) :
  0 < size <= SIZE_MAX - sizeof_size_t -> avail s < size ->
  SafeMalloc size s
  = Ret NULL (reported SAFEOPS_ERR_ALLOCATION_FAILED "Memory allocation failed" s).
Proof.
  intros Hs Ha. unfold SafeMalloc, calloc.
  rewrite !decide_False by lia. run. rewrite decide_False by lia. reflexivity.
Qed.

(** ** Replace-all *)

Section Replace.
Variables (s : state) (str oldStr newStr : ptr) (strSize : Z).
Variables (text old new : list Z).
Hypothesis Htext : string_at (mem s) str = Some text.
Hypothesis Hold : string_at (mem s) oldStr = Some old.
Hypothesis Hnew : string_at (mem s) newStr = Some new.

Let count : Z := Z.of_nat (count_nonoverlapping O old text).
Let finalLen : Z := final_length (len text) count (len new) (len old).

Lemma replace_pointers : str <> NULL /\ oldStr <> NULL /\ newStr <> NULL.
Proof. repeat split; intros ->; discriminate. Qed.

Lemma SafeStrReplace_empty_old :
  old = [] ->
  SafeStrReplace str strSize oldStr newStr true s
  = Ret (false, None)
        (reported SAFEOPS_ERR_INVALID_PARAM "Empty string to replace" s).
Proof.
  intros Ho. destruct replace_pointers as (H1 & H2 & H3).
  unfold SafeStrReplace, is_null. rewrite !bool_decide_false by assumption.
  simpl. unfold mbind, M_bind, bind.
  rewrite (strlen_eq _ _ _ Htext), (strlen_eq _ _ _ Hold), (strlen_eq _ _ _ Hnew).
  subst old. reflexivity.
Qed.

Lemma SafeStrReplace_checked :
  old <> [] ->
  SafeStrReplace str strSize oldStr newStr true s
  = if decide (finalLen >= strSize) then
      Ret (false, None)
          (reported SAFEOPS_ERR_OUT_OF_BOUNDS "Replacement would overflow buffer" s)
    else if decide (count = 0) then Ret (true, Some (len text)) s
    else replace_commit str strSize text old new finalLen s.
Proof.
  intros Ho. destruct replace_pointers as (H1 & H2 & H3).
  unfold SafeStrReplace, is_null. rewrite !bool_decide_false by assumption.
  cbn [orb negb]. unfold mbind at 1, M_bind at 1, bind at 1.
  rewrite (strlen_eq _ _ _ Htext).
  unfold mbind at 1, M_bind at 1, bind at 1.
  rewrite (strlen_eq _ _ _ Hold).
  unfold mbind at 1, M_bind at 1, bind at 1.
  rewrite (strlen_eq _ _ _ Hnew).
  assert (len old <> 0).
  { destruct old; [congruence|]. rewrite len_cons. pose proof (len_nonneg l). lia. }
  rewrite decide_False by assumption.
  unfold mbind at 1, M_bind at 1, bind at 1, get at 1.
  rewrite Htext, Hold, Hnew. cbn [lift].
  unfold mbind at 1, M_bind at 1, bind at 1, ret at 1.
  unfold mbind at 1, M_bind at 1, bind at 1, ret at 1.
  unfold mbind at 1, M_bind at 1, bind at 1, ret at 1.
  rewrite count_loop_spec by (assumption || (unfold enough; lia)).
  cbn [lift]. unfold mbind at 1, M_bind at 1, bind at 1, ret at 1.
  rewrite Z.add_0_l. fold count. fold finalLen.
  destruct (decide (finalLen >= strSize)); [reflexivity|].
  destruct (decide (count = 0)); reflexivity.
Qed.
End Replace.

Lemma view_start (m : gmap nat block) (b : nat) (blk : block) :
  m !! b = Some blk -> view m (Ptr b 0) = Some (cells blk).
Proof.
  intros H. unfold view. rewrite H. simpl.
  rewrite decide_True by lia. reflexivity.
Qed.

Lemma write_at_all (l bs : list Z) :
  length bs = length l -> write_at l 0 bs = Some bs.
Proof.
  intros H. rewrite write_at_Some by (unfold len; lia). simpl.
  rewrite H, drop_all, app_nil_r. reflexivity.
Qed.

Lemma len_replicate (n : Z) (c : Z) : 0 <= n -> len (replicate (Z.to_nat n) c) = n.
Proof. intros H. unfold len. rewrite length_replicate. lia. Qed.

Lemma memmove_ok (dest src : ptr) (n : Z) (s : state) (bs : list Z)
      (m' : gmap nat block) :
  load (mem s) src n = Some bs -> store (mem s) dest bs = Some m' ->
  memmove dest src n s = Ret tt (set_mem m' s).
Proof. intros Hl Hs. unfold memmove. step. rewrite Hl. step. rewrite Hs. reflexivity. Qed.

Lemma free_ok (b : nat) (blk : block) (s : state) :
  mem s !! b = Some blk -> on_heap blk = true ->
  free (Ptr b 0) s
  = Ret tt (set_heap (delete b (mem s)) (brk s) (avail s + len (cells blk)) s).
Proof. intros Hb Hh. unfold free. rewrite Hb, Hh. reflexivity. Qed.

Lemma replace_commit_ok
  (s : state) (sb : nat) (ofs strSize : Z) (blk : block) (text old new : list Z) :
  let r := replaced O old new text in
  old <> [] ->
  mem s !! sb = Some blk ->
  0 <= ofs -> ofs + len r + 1 <= len (cells blk) ->
  len r < strSize <= SIZE_MAX - sizeof_size_t ->
  strSize <= avail s ->
  replace_commit (Ptr sb ofs) strSize text old new (len r) s
  = Ret (true, Some (len r)) (replaced_state s sb ofs strSize r).
Proof.
  intros r Ho Hblk Hofs Hfit Hsz Hav.
  pose proof (len_nonneg r) as Hr.
  set (b := fresh (dom (mem s))).
  assert (Hfresh : mem s !! b = None).
  { apply not_elem_of_dom. apply is_fresh. }
  assert (Hne : sb <> b) by congruence.
  set (zeros := replicate (Z.to_nat strSize) 0).
  assert (Hz : len zeros = strSize) by (apply len_replicate; lia).
  set (tmp' := (r ++ [0]) ++ drop (length (r ++ [0])) zeros).
  assert (Hw : write_at zeros 0 (r ++ [0]) = Some tmp').
  { rewrite write_at_Some; [reflexivity | lia |].
    rewrite len_app, len_cons, len_nil. lia. }
  assert (Hlen' : length tmp' = length zeros) by (by apply write_at_length in Hw).
  unfold replace_commit, replaced_state. rewrite Hblk.
  rewrite (bind_Ret _ _ s _ _ (SafeMalloc_granted strSize s ltac:(lia) Hav)).
  fold b zeros. unfold is_null. rewrite bool_decide_false by discriminate.
  step. cbn [mem set_heap].
  rewrite (view_start _ b _ (lookup_insert_eq _ _ _)). cbn [cells]. step.
  rewrite replace_loop_spec by (assumption || (unfold enough; lia)).
  fold r. rewrite Hw. step.
  unfold store at 1. rewrite lookup_insert_eq.
  cbn [mbind option_bind cells base on_heap].
  rewrite write_at_all by assumption. step.
  rewrite insert_insert_eq.
  rewrite wrap_small by (unfold sizeof_size_t in Hsz; lia).
  unfold memcpy, disjoint_regions. rewrite bool_decide_false by assumption.
  cbn [negb orb].
  set (T := fun cs => mkBlock (brk s) true cs).
  set (blk' := mkBlock (base blk) (on_heap blk)
                 (take (Z.to_nat ofs) (cells blk) ++ (r ++ [0])
                  ++ drop (Z.to_nat ofs + length (r ++ [0])) (cells blk))).
  match goal with |- _ ?st = _ => set (s2 := st) end.
  assert (Hm2 : mem s2 = <[b := T tmp']> (mem s)) by reflexivity.
  assert (Hload : load (mem s2) (Ptr b 0) (len r + 1) = Some (r ++ [0])).
  { unfold load. rewrite Hm2, (view_start _ b _ (lookup_insert_eq _ _ _)).
    step. cbn [cells T].
    rewrite decide_True by (unfold len in *; lia). f_equal.
    unfold tmp'.
    replace (Z.to_nat (len r + 1)) with (length (r ++ [0]))
      by (rewrite length_app; unfold len; simpl; lia).
    apply take_app_length. }
  assert (Hstore : store (mem s2) (Ptr sb ofs) (r ++ [0])
                   = Some (<[sb := blk']> (mem s2))).
  { unfold store. rewrite Hm2, lookup_insert_ne by congruence. rewrite Hblk.
    step. rewrite write_at_Some by (try rewrite len_app, len_cons, len_nil; lia).
    reflexivity. }
  rewrite (bind_Ret _ _ _ _ _ (memmove_ok _ _ _ _ _ _ Hload Hstore)).
  match goal with |- _ ?st = _ => set (s3 := st) end.
  assert (Hm3 : mem s3 !! b = Some (T tmp')).
  { unfold s3. cbn [mem set_mem]. rewrite Hm2.
    rewrite lookup_insert_ne by congruence. apply lookup_insert_eq. }
  rewrite (bind_Ret _ _ _ _ _ (free_ok b _ s3 Hm3 eq_refl)).
  unfold mret, M_ret, ret. f_equal.
  unfold set_heap, set_mem. cbn. f_equal.
  - rewrite delete_insert_ne by congruence.
    rewrite delete_insert_eq. f_equal. apply delete_id. assumption.
  - rewrite Hz. reflexivity.
  - unfold len in *. rewrite Hlen'. lia.
Qed.

Lemma len_nonzero (l : list Z) : l <> [] -> 0 < len l.
Proof. destruct l; [congruence|]. rewrite len_cons. pose proof (len_nonneg l). lia. Qed.

Lemma replaced_elem (old new h : list Z) (k : nat) (x : Z) :
  x ∈ replaced k old new h -> x ∈ new \/ x ∈ h.
Proof.
  revert k. induction h as [|c h IH]; intros k; simpl.
  - intros H. by right.
  - destruct k as [|k].
    + destruct (is_prefix old (c :: h)).
      * rewrite elem_of_app. intros [H|H]; [by left|].
        apply IH in H as [H|H]; [by left | right; by apply list_elem_of_further].
      * rewrite elem_of_cons. intros [->|H]; [right; apply list_elem_of_here|].
        apply IH in H as [H|H]; [by left | right; by apply list_elem_of_further].
    + intros H. apply IH in H as [H|H]; [by left | right; by apply list_elem_of_further].
Qed.

Lemma string_at_bounds (m : gmap nat block) (b : nat) (ofs : Z) (t : list Z) :
  string_at m (Ptr b ofs) = Some t ->
  exists blk, m !! b = Some blk /\ 0 <= ofs
              /\ ofs + len t + 1 <= len (cells blk)
              /\ c_str (drop (Z.to_nat ofs) (cells blk)) = Some t.
Proof.
  unfold string_at, view. destruct (m !! b) as [blk|]; simpl; [|discriminate].
  case_decide as Hd; simpl; [|discriminate]. intros H.
  exists blk. split; [reflexivity|]. split; [lia|]. split; [|assumption].
  apply c_str_length in H. rewrite length_drop in H. unfold len. lia.
Qed.

Lemma string_at_replaced_state
  (s : state) (sb : nat) (ofs strSize : Z) (blk : block) (r : list Z) :
  mem s !! sb = Some blk -> 0 <= ofs -> ofs + len r + 1 <= len (cells blk) ->
  0 ∉ r ->
  string_at (mem (replaced_state s sb ofs strSize r)) (Ptr sb ofs) = Some r.
Proof.
  intros Hblk Hofs Hfit Hr. unfold replaced_state. rewrite Hblk.
  cbn [mem set_heap]. unfold string_at, view. rewrite lookup_insert_eq.
  step. cbn [cells]. unfold len in *.
  rewrite decide_True by (rewrite !length_app, length_take; lia). step.
  replace (Z.to_nat ofs) with (length (take (Z.to_nat ofs) (cells blk))) at 1
    by (rewrite length_take; lia).
  rewrite drop_app_length, <- app_assoc. simpl. by apply c_str_app.
Qed.

Lemma SafeStrReplace_success
  (s : state) (sb : nat) (ofs strSize : Z) (blk : block) (oldStr newStr : ptr)
  (text old new : list Z) :
  let r := replaced O old new text in
  mem s !! sb = Some blk ->
  string_at (mem s) (Ptr sb ofs) = Some text ->
  string_at (mem s) oldStr = Some old ->
  string_at (mem s) newStr = Some new ->
  old <> [] ->
  count_nonoverlapping O old text <> O ->
  len r < strSize <= SIZE_MAX - sizeof_size_t ->
  strSize <= avail s ->
  ofs + len r + 1 <= len (cells blk) ->
  SafeStrReplace (Ptr sb ofs) strSize oldStr newStr true s
  = Ret (true, Some (len r)) (replaced_state s sb ofs strSize r)
  /\ string_at (mem (replaced_state s sb ofs strSize r)) (Ptr sb ofs) = Some r.
Proof.
  intros r Hblk Htext Hold Hnew Ho Hc Hsz Hav Hfit.
  destruct (string_at_bounds _ _ _ _ Htext) as (blk0 & Hb0 & Hofs & _ & Hstr).
  pose proof (len_nonneg r) as Hr0.
  assert (Hexact : final_length (len text)
                     (Z.of_nat (count_nonoverlapping O old text)) (len new) (len old)
                   = len r).
  { apply final_length_exact; [assumption|]. fold r.
    unfold sizeof_size_t in Hsz. lia. }
  split.
  - rewrite (SafeStrReplace_checked s _ _ _ _ text old new Htext Hold Hnew Ho).
    rewrite Hexact. rewrite decide_False by lia. rewrite decide_False by lia.
    by apply (replace_commit_ok s sb ofs strSize blk).
  - apply (string_at_replaced_state s sb ofs strSize blk r); try assumption.
    intros Hin. apply replaced_elem in Hin as [Hin|Hin].
    + unfold string_at in Hnew.
      destruct (view (mem s) newStr) as [v|]; [|discriminate].
      by apply (c_str_nonzero v new Hnew).
    + by apply (c_str_nonzero _ text Hstr).
Qed.

(** X22.  Within what [size_t] represents, [SafeStrReplace] follows the
    algorithm of its comments.  With an empty [oldStr] it fails with
    InvalidParam.  Otherwise its counting loop terminates with the number
    of non-overlapping occurrences found by a scan that advances past each
    match by the full match length; the final length it computes is
    [strLen + count * (newLen - oldLen)] in [size_t] arithmetic, which is
    that integer whenever [strLen + count * newLen <= SIZE_MAX]; when the
    computed length reaches the capacity the call fails with OutOfBounds
    in a state whose memory is the initial one; and when nothing occurs in
    a buffer terminated within its capacity the call succeeds in the
    unchanged state and reports the original length. *)
Theorem SafeStrReplace_algorithm
  (s : state) (str oldStr newStr : ptr) (strSize : Z) (text old new : list Z)
  (Htext : string_at (mem s) str = Some text)
  (Hold : string_at (mem s) oldStr = Some old)
  (Hnew : string_at (mem s) newStr = Some new)
  (Hsize : strSize <= SIZE_MAX) :
  let count := Z.of_nat (count_nonoverlapping O old text) in
  let finalLen := final_length (len text) count (len new) (len old) in
  let run := SafeStrReplace str strSize oldStr newStr true s in
  (old = [] ->
   run = Ret (false, None)
             (reported SAFEOPS_ERR_INVALID_PARAM "Empty string to replace" s))
  /\ (old <> [] ->
      count_loop (enough text) text old 0 = Some count
      /\ (len text + count * len new <= SIZE_MAX ->
          finalLen = len text + count * (len new - len old))
      /\ (finalLen >= strSize ->
          run = Ret (false, None)
                    (reported SAFEOPS_ERR_OUT_OF_BOUNDS
                              "Replacement would overflow buffer" s)
          /\ mem (reported SAFEOPS_ERR_OUT_OF_BOUNDS
                           "Replacement would overflow buffer" s) = mem s)
      /\ (count = 0 -> len text < strSize ->
          run = Ret (true, Some (len text)) s)).
Proof.
  intros count finalLen run. split.
  - intros Ho. by apply (SafeStrReplace_empty_old s _ _ _ _ text old new).
  - intros Ho.
    pose proof (SafeStrReplace_checked s str oldStr newStr strSize text old new
                  Htext Hold Hnew Ho) as Hrun.
    fold count finalLen run in Hrun.
    pose proof (len_nonneg text). pose proof (len_nonneg new).
    pose proof (len_nonzero old Ho).
    pose proof (count_bound old text Ho) as Hcb.
    split; [|split; [|split]].
    + rewrite count_loop_spec by (assumption || (unfold enough; lia)).
      reflexivity.
    + intros Hrep. unfold finalLen, count.
      rewrite final_length_exact; [apply replaced_length; assumption | assumption |].
      rewrite replaced_length by assumption. fold count. unfold len in *. nia.
    + intros Hge. rewrite Hrun, decide_True by assumption.
      split; [reflexivity | apply mem_reported].
    + intros Hc Hlt. rewrite Hrun.
      assert (finalLen = len text) as ->.
      { unfold finalLen. rewrite final_length_mod, Hc.
        rewrite Z.mul_0_l, Z.add_0_r. apply wrap_small. lia. }
      rewrite decide_False by lia. rewrite decide_True by assumption.
      reflexivity.
Qed.

Lemma SafeStrReplace_algorithm_witness :
  string_at (mem dashed) (Ptr 0 0) = Some (bytes "a-b-c")
  /\ string_at (mem dashed) (Ptr 1 0) = Some (bytes "-")
  /\ string_at (mem dashed) (Ptr 2 0) = Some (bytes "+")
  /\ 4 <= SIZE_MAX
  /\ SafeStrReplace (Ptr 0 0) 4 (Ptr 1 0) (Ptr 2 0) true dashed
     = Ret (false, None)
           (reported SAFEOPS_ERR_OUT_OF_BOUNDS
                     "Replacement would overflow buffer" dashed).
Proof.
  split; [reflexivity|]. split; [reflexivity|]. split; [reflexivity|].
  split; [by vm_compute|].
  destruct (SafeStrReplace_algorithm dashed (Ptr 0 0) (Ptr 1 0) (Ptr 2 0) 4
              (bytes "a-b-c") (bytes "-") (bytes "+")
              eq_refl eq_refl eq_refl ltac:(by vm_compute)) as [_ H].
  destruct H as (_ & _ & H & _); [discriminate|].
  apply H. by vm_compute.
Defined.

(** When the [size_t] computation of the final length wraps around below
    the capacity although the rewritten text does not fit, the check of
    line 344 passes and the rewriting loop writes past the end of the
    scratch buffer of [strSize] bytes. *)
Lemma SafeStrReplace_overrun
  (s : state) (str oldStr newStr : ptr) (strSize : Z) (text old new : list Z) :
  string_at (mem s) str = Some text ->
  string_at (mem s) oldStr = Some old ->
  string_at (mem s) newStr = Some new ->
  old <> [] ->
  count_nonoverlapping O old text <> O ->
  final_length (len text) (Z.of_nat (count_nonoverlapping O old text))
               (len new) (len old) < strSize ->
  strSize <= len (replaced O old new text) ->
  0 < strSize <= SIZE_MAX - sizeof_size_t ->
  strSize <= avail s ->
  SafeStrReplace str strSize oldStr newStr true s = Fault.
Proof.
  intros Ht Hol Hn Ho Hc Hwrap Hlong Hsz Hav.
  rewrite (SafeStrReplace_checked s _ _ _ _ text old new Ht Hol Hn Ho).
  rewrite decide_False by lia. rewrite decide_False by lia.
  unfold replace_commit.
  rewrite (bind_Ret _ _ s _ _ (SafeMalloc_granted strSize s ltac:(lia) Hav)).
  unfold is_null. rewrite bool_decide_false by discriminate.
  step. cbn [mem set_heap].
  rewrite (view_start _ _ _ (lookup_insert_eq _ _ _)). cbn [cells]. step.
  rewrite replace_loop_spec by (assumption || (unfold enough; lia)).
  step. unfold write_at. rewrite decide_False; [reflexivity|].
  rewrite len_app, len_cons, len_nil, len_replicate by lia. lia.
Qed.

Lemma c_str_replicate (k : nat) (c : Z) :
  c <> 0 -> c_str (replicate k c ++ [0]) = Some (replicate k c).
Proof.
  intros Hc. apply c_str_app. intros [H _]%elem_of_replicate. congruence.
Qed.

Lemma count_run (k : nat) (c : Z) :
  count_nonoverlapping O [c] (replicate k c) = k.
Proof.
  induction k as [|k IH]; [reflexivity|].
  cbn [replicate count_nonoverlapping is_prefix length Nat.sub].
  rewrite bool_decide_true by reflexivity. cbn [andb].
  destruct (replicate k c); by rewrite IH.
Qed.

Section Wrap.
Variable n : nat.
Hypothesis Hn : Z.of_nat n = 2 ^ 32.

Lemma long_run_text :
  string_at (mem (long_run n)) (Ptr 0 0) = Some (replicate n 97).
Proof.
  unfold string_at, long_run. cbn [mem].
  rewrite (view_start _ _ _ (lookup_insert_eq _ _ _)). cbn [cells]. step.
  by apply c_str_replicate.
Qed.

Lemma long_run_old : string_at (mem (long_run n)) (Ptr 1 0) = Some [97].
Proof.
  unfold string_at, long_run. cbn [mem].
  erewrite view_start;
    [|rewrite lookup_insert_ne by discriminate; apply lookup_insert_eq].
  reflexivity.
Qed.

Lemma long_run_new :
  string_at (mem (long_run n)) (Ptr 2 0) = Some (replicate (S n) 98).
Proof.
  unfold string_at, long_run. cbn [mem].
  erewrite view_start;
    [|rewrite !lookup_insert_ne by discriminate; apply lookup_insert_eq].
  cbn [cells]. step. by apply c_str_replicate.
Qed.

Lemma long_run_lengths :
  len (replicate n 97) = 2 ^ 32 /\ len (replicate (S n) 98) = 2 ^ 32 + 1
  /\ len [97] = 1.
Proof.
  unfold len. rewrite !length_replicate. cbn [length]. lia.
Qed.

Lemma long_run_overrun :
  let text := replicate n 97 in
  let old := [97] in
  let new := replicate (S n) 98 in
  let count := Z.of_nat (count_nonoverlapping O old text) in
  string_at (mem (long_run n)) (Ptr 0 0) = Some text
  /\ string_at (mem (long_run n)) (Ptr 1 0) = Some old
  /\ string_at (mem (long_run n)) (Ptr 2 0) = Some new
  /\ count = 2 ^ 32
  /\ len text + count * (len new - len old) = 2 ^ 64 + 2 ^ 32
  /\ final_length (len text) count (len new) (len old) = 2 ^ 32
  /\ SafeStrReplace (Ptr 0 0) (2 ^ 32 + 1) (Ptr 1 0) (Ptr 2 0) true (long_run n)
     = Fault.
Proof.
  intros text old new count.
  destruct long_run_lengths as (Ht & Hnw & Ho).
  fold text in Ht. fold new in Hnw. fold old in Ho.
  assert (Hcount : count = 2 ^ 32).
  { unfold count, text, old. by rewrite count_run. }
  assert (Hfinal : final_length (len text) count (len new) (len old) = 2 ^ 32).
  { rewrite Ht, Hnw, Ho, Hcount. reflexivity. }
  split; [apply long_run_text|]. split; [apply long_run_old|].
  split; [apply long_run_new|]. split; [exact Hcount|].
  split; [rewrite Ht, Hnw, Ho, Hcount; reflexivity|].
  split; [exact Hfinal|].
  apply (SafeStrReplace_overrun _ _ _ _ _ text old new).
  - apply long_run_text.
  - apply long_run_old.
  - apply long_run_new.
  - discriminate.
  - fold count. lia.
  - fold count. rewrite Hfinal. lia.
  - rewrite replaced_length by discriminate. fold count.
    rewrite Ht, Hnw, Ho, Hcount. lia.
  - unfold SIZE_MAX, sizeof_size_t. lia.
  - unfold long_run. cbn [avail]. lia.
Qed.
End Wrap.

(** C4 at the input where the code departs from it: a text of [2^32]
    letters 'a' in a buffer of [2^32 + 1] bytes, every 'a' to be replaced
    by [2^32 + 1] letters 'b'.  There are [2^32] occurrences, so the
    specified final length is [2^64 + 2^32], far above the capacity, and
    the claim asks for an OutOfBounds failure before any byte is written.
    The [size_t] product of line 343 wraps around: the computed length is
    [2^32], the check passes, and the rewriting loop overruns the scratch
    buffer, which is undefined behaviour. *)
Theorem SafeStrReplace_length_wraps :
  let text := replicate (Z.to_nat (2 ^ 32)) 97 in
  let old := [97] in
  let new := replicate (S (Z.to_nat (2 ^ 32))) 98 in
  let count := Z.of_nat (count_nonoverlapping O old text) in
  string_at (mem wrapping) (Ptr 0 0) = Some text
  /\ string_at (mem wrapping) (Ptr 1 0) = Some old
  /\ string_at (mem wrapping) (Ptr 2 0) = Some new
  /\ count = 2 ^ 32
  /\ len text + count * (len new - len old) = 2 ^ 64 + 2 ^ 32
  /\ final_length (len text) count (len new) (len old) = 2 ^ 32
  /\ SafeStrReplace (Ptr 0 0) (2 ^ 32 + 1) (Ptr 1 0) (Ptr 2 0) true wrapping
     = Fault.
Proof.
  exact (long_run_overrun (Z.to_nat (2 ^ 32)) (Z2Nat.id (2 ^ 32) ltac:(lia))).
Qed.

(** C9 (amended).  Deleting ([newStr] empty) from a terminated buffer obeys
    the same formula: the wrapped [size_t] computation yields exactly
    [L = strLen - count * oldLen], the length of the text without the
    counted occurrences.  The call fails with OutOfBounds when
    [L >= strSize]; it succeeds unchanged when nothing occurs; and when
    something occurs and [L < strSize] it succeeds exactly when the scratch
    allocation of [strSize] bytes is granted, leaving the text without the
    occurrences in the buffer and reporting [L]; otherwise it fails with
    Overflow or AllocationFailed. *)
Theorem SafeStrReplace_deletion
  (s : state) (sb : nat) (ofs strSize : Z) (blk : block) (oldStr newStr : ptr)
  (text old : list Z)
  (Hblk : mem s !! sb = Some blk)
  (Hobj : len (cells blk) <= SIZE_MAX)
  (Htext : string_at (mem s) (Ptr sb ofs) = Some text)
  (Hold : string_at (mem s) oldStr = Some old)
  (Hnew : string_at (mem s) newStr = Some [])
  (Ho : old <> []) :
  let count := Z.of_nat (count_nonoverlapping O old text) in
  let L := len text - count * len old in
  let r := replaced O old [] text in
  let run := SafeStrReplace (Ptr sb ofs) strSize oldStr newStr true s in
  final_length (len text) count 0 (len old) = L
  /\ len r = L
  /\ (L >= strSize ->
      run = Ret (false, None)
                (reported SAFEOPS_ERR_OUT_OF_BOUNDS
                          "Replacement would overflow buffer" s))
  /\ (L < strSize -> count = 0 -> run = Ret (true, Some L) s)
  /\ (L < strSize -> count <> 0 -> strSize > SIZE_MAX - sizeof_size_t ->
      run = Ret (false, None)
                (reported SAFEOPS_ERR_OVERFLOW "Allocation size would overflow" s))
  /\ (L < strSize -> count <> 0 -> strSize <= SIZE_MAX - sizeof_size_t ->
      avail s < strSize ->
      run = Ret (false, None)
                (reported SAFEOPS_ERR_ALLOCATION_FAILED "Memory allocation failed" s))
  /\ (L < strSize -> count <> 0 -> strSize <= SIZE_MAX - sizeof_size_t ->
      strSize <= avail s ->
      run = Ret (true, Some L) (replaced_state s sb ofs strSize r)
      /\ string_at (mem (replaced_state s sb ofs strSize r)) (Ptr sb ofs) = Some r).
Proof.
  intros count L r run.
  destruct (string_at_bounds _ _ _ _ Htext) as (blk0 & Hb0 & Hofs & Hfit & Hstr).
  assert (blk0 = blk) as -> by congruence.
  pose proof (len_nonneg text). pose proof (len_nonzero old Ho).
  pose proof (count_bound old text Ho) as Hcb.
  assert (HL : len r = L).
  { unfold r, L. rewrite replaced_length by assumption. rewrite len_nil.
    fold count. lia. }
  assert (HL0 : 0 <= L <= len text).
  { split; [rewrite <- HL; apply len_nonneg|]. unfold L, count, len in *. nia. }
  assert (Hexact : final_length (len text) count 0 (len old) = L).
  { rewrite <- HL. change 0 with (len []) at 1.
    apply final_length_exact; [assumption|]. fold r. lia. }
  pose proof (SafeStrReplace_checked s (Ptr sb ofs) oldStr newStr strSize
                text old [] Htext Hold Hnew Ho) as Hrun.
  rewrite len_nil in Hrun. fold count run in Hrun. rewrite Hexact in Hrun.
  split; [assumption|]. split; [assumption|].
  split; [|split; [|split; [|split]]].
  - intros Hge. rewrite Hrun. by rewrite decide_True.
  - intros Hlt Hc. rewrite Hrun. rewrite decide_False by lia.
    rewrite decide_True by assumption. do 3 f_equal. unfold L. rewrite Hc. lia.
  - intros Hlt Hc Hbig. rewrite Hrun. rewrite !decide_False by lia.
    unfold replace_commit.
    rewrite (bind_Ret _ _ _ _ _ (SafeMalloc_overflow strSize s Hbig)).
    reflexivity.
  - intros Hlt Hc Hsz Hav. rewrite Hrun. rewrite !decide_False by lia.
    unfold replace_commit.
    rewrite (bind_Ret _ _ _ _ _ (SafeMalloc_exhausted strSize s ltac:(lia) Hav)).
    reflexivity.
  - intros Hlt Hc Hsz Hav. rewrite <- HL.
    apply (SafeStrReplace_success s sb ofs strSize blk oldStr newStr text old []);
      try assumption.
    + unfold count in Hc. lia.
    + fold r. lia.
    + fold r. lia.
Qed.

Lemma SafeStrReplace_deletion_witness :
  mem dashed !! 0%nat = Some (mkBlock 4096 false (buffer 16 "a-b-c"))
  /\ len (buffer 16 "a-b-c") <= SIZE_MAX
  /\ string_at (mem dashed) (Ptr 0 0) = Some (bytes "a-b-c")
  /\ string_at (mem dashed) (Ptr 1 0) = Some (bytes "-")
  /\ string_at (mem dashed) (Ptr 3 0) = Some []
  /\ bytes "-" <> []
  /\ SafeStrReplace (Ptr 0 0) 16 (Ptr 1 0) (Ptr 3 0) true dashed
     = Ret (true, Some 3) (replaced_state dashed 0 0 16 (bytes "abc"))
  /\ string_at (mem (replaced_state dashed 0 0 16 (bytes "abc"))) (Ptr 0 0)
     = Some (bytes "abc").
Proof.
  split; [reflexivity|]. split; [by vm_compute|]. split; [reflexivity|].
  split; [reflexivity|]. split; [reflexivity|]. split; [discriminate|].
  destruct (SafeStrReplace_deletion dashed 0 0 16
              (mkBlock 4096 false (buffer 16 "a-b-c")) (Ptr 1 0) (Ptr 3 0)
              (bytes "a-b-c") (bytes "-")
              eq_refl ltac:(by vm_compute) eq_refl eq_refl eq_refl
              ltac:(discriminate)) as (_ & _ & _ & _ & _ & _ & H).
  apply H; by vm_compute.
Defined.

(** C9 as it is written fails: deleting "a" from a buffer of capacity 8
    holding "a" has [strLen - count * oldLen = 0 < 8], yet the call fails
    with AllocationFailed when the allocator cannot grant the scratch
    buffer, and the buffer keeps its occurrence. *)
Lemma SafeStrReplace_deletion_without_scratch :
  string_at (mem exhausted) (Ptr 0 0) = Some (bytes "a")
  /\ len (bytes "a")
     - Z.of_nat (count_nonoverlapping O (bytes "a") (bytes "a")) * len (bytes "a")
     < 8
  /\ exists s',
      SafeStrReplace (Ptr 0 0) 8 (Ptr 1 0) (Ptr 2 0) true exhausted
      = Ret (false, None) s'
      /\ g_lastError s' = SAFEOPS_ERR_ALLOCATION_FAILED
      /\ string_at (mem s') (Ptr 0 0) = Some (bytes "a").
Proof.
  split; [reflexivity|]. split; [by vm_compute|].
  eexists. split; [vm_compute; reflexivity|]. split; reflexivity.
Qed.

(** ** End to end *)

(** C5 (amended).  On a buffer of capacity 50 holding "Hello, World!",
    concatenating " How are you?" succeeds and yields
    "Hello, World! How are you?"; replacing "World" by "Everyone" then
    succeeds, yields "Hello, Everyone! How are you?" and reports the
    length 29. *)
Theorem end_to_end_length_29 :
  string_at (mem greeting) (Ptr 0 0) = Some (bytes "Hello, World!")
  /\ value_of (end_to_end greeting)
     = Some (true, Some (bytes "Hello, World! How are you?"),
             (true, Some 29), Some (bytes "Hello, Everyone! How are you?"))
  /\ len (bytes "Hello, Everyone! How are you?") = 29.
Proof. split; [reflexivity|]. split; [vm_compute; reflexivity | reflexivity]. Qed.

(** C5 as it is written fails: no run of the scenario reports the
    length 31. *)
Lemma end_to_end_length_not_31 :
  ~ exists text1 text2,
      value_of (end_to_end greeting) = Some (true, text1, (true, Some 31), text2).
Proof.
  intros (text1 & text2 & H). vm_compute in H. discriminate H.
Qed.

(** ** Concatenation onto an unterminated destination *)

(** When the destination object is exactly [destSize] elements long and
    holds no terminator, the length scan of [SafeStrCat] reads
    [dest[destSize]], one element past the object. *)
Lemma SafeStrCat_unterminated_dest
  (s : state) (b : nat) (blk : block) (src : ptr) :
  mem s !! b = Some blk -> 0 ∉ cells blk -> src <> NULL ->
  SafeStrCat (Ptr b 0) (len (cells blk)) src s = Fault.
Proof.
  intros Hb Hn Hs. unfold SafeStrCat, is_null.
  rewrite bool_decide_false by discriminate.
  rewrite bool_decide_false by assumption. cbn [orb].
  unfold mbind, M_bind, bind. rewrite SafeStrLen_eq by discriminate.
  rewrite (view_start _ _ _ Hb). step.
  rewrite bounded_scan_spec by apply len_nonneg.
  unfold len. rewrite Nat2Z.id. rewrite take_ge by lia.
  apply c_str_None_iff in Hn. rewrite Hn.
  rewrite decide_False by lia. reflexivity.
Qed.

(** When the destination object extends past [destSize] and holds no
    terminator, the element read past the capacity belongs to the same
    object and the call fails with OutOfBounds. *)
Lemma SafeStrCat_unterminated_prefix
  (s : state) (dest src : ptr) (destSize : Z) (v : list Z) :
  view (mem s) dest = Some v -> 0 ∉ v -> 0 <= destSize < len v -> src <> NULL ->
  SafeStrCat dest destSize src s
  = Ret false
        (reported SAFEOPS_ERR_OUT_OF_BOUNDS "String exceeds maximum length" s).
Proof.
  intros Hv Hn Hd Hs.
  assert (Hp : dest <> NULL) by (intros ->; discriminate).
  unfold SafeStrCat, is_null. rewrite !bool_decide_false by assumption. cbn [orb].
  unfold mbind, M_bind, bind. rewrite SafeStrLen_eq by assumption.
  rewrite Hv. step. rewrite bounded_scan_spec by lia.
  assert (c_str (take (S (Z.to_nat destSize)) v) = None) as ->.
  { apply c_str_None_iff. intros Hin. apply Hn.
    apply elem_of_take in Hin as (i & Hi & _).
    apply list_elem_of_lookup. by exists i. }
  rewrite decide_True by (unfold len in Hd; lia). reflexivity.
Qed.

(** C10 at the input where the code departs from it: a destination of
    capacity 4 holding "ABCD" without terminator.  The claim asks for an
    OutOfBounds failure; the scan reads [dest[4]], outside the
    destination, which is undefined behaviour. *)
Lemma SafeStrCat_reads_past_capacity :
  (0 ∉ bytes "ABCD")
  /\ len (bytes "ABCD") = 4
  /\ SafeStrCat (Ptr 0 0) 4 (Ptr 1 0) unterminated = Fault.
Proof.
  split; [|split; reflexivity].
  apply (proj1 (c_str_None_iff _)). reflexivity.
Qed.

(** ** Release *)

Lemma new_block_allocated (cs : list Z) (s s' : state) (p : ptr) (size : Z) :
  length cs = Z.to_nat size ->
  new_block cs s = Ret p s' -> allocated s s' size p.
Proof.
  intros Hl [= <- <-]. eexists _, _. split; [reflexivity|].
  split; [apply not_elem_of_dom, is_fresh|].
  split; [reflexivity|]. split; [reflexivity|].
  split; [assumption|]. split; reflexivity.
Qed.

Lemma SafeMalloc_allocated (size : Z) (s s' : state) (p : ptr) :
  SafeMalloc size s = Ret p s' -> p <> NULL -> allocated s s' size p.
Proof.
  unfold SafeMalloc, calloc, new_block. intros H Hp. run.
  repeat case_decide; injection H as <- <-; try congruence.
  apply (new_block_allocated (replicate (Z.to_nat size) 0)); [|reflexivity].
  apply length_replicate.
Qed.

Lemma SafeMallocUninitialized_allocated
  (junk : nat -> Z) (size : Z) (s s' : state) (p : ptr) :
  SafeMallocUninitialized junk size s = Ret p s' -> p <> NULL ->
  allocated s s' size p.
Proof.
  unfold SafeMallocUninitialized, malloc, new_block. intros H Hp. run.
  repeat case_decide; injection H as <- <-; try congruence.
  apply (new_block_allocated (junk <$> seq 0 (Z.to_nat size))); [|reflexivity].
  rewrite length_fmap. apply length_seq.
Qed.

Lemma deref_eq (r : nat) (p : ptr) (s : state) :
  ptrvars s !! r = Some p -> deref r s = Ret p s.
Proof. intros H. unfold deref. step. rewrite H. reflexivity. Qed.

Lemma SafeFree_live (r b : nat) (blk : block) (s : state) :
  ptrvars s !! r = Some (Ptr b 0) -> mem s !! b = Some blk ->
  on_heap blk = true ->
  SafeFree (Some r) s
  = Ret tt (set_ptrvars (<[r := NULL]> (ptrvars s))
              (set_heap (delete b (mem s)) (brk s)
                        (avail s + len (cells blk)) s)).
Proof.
  intros Hr Hb Hh. unfold SafeFree.
  rewrite (bind_Ret _ _ _ _ _ (deref_eq r _ s Hr)).
  rewrite decide_False by discriminate.
  rewrite (bind_Ret _ _ _ _ _ (free_ok b blk s Hb Hh)). reflexivity.
Qed.

Lemma SafeFree_empty (r : nat) (s : state) :
  ptrvars s !! r = Some NULL -> SafeFree (Some r) s = Ret tt s.
Proof.
  intros Hr. unfold SafeFree.
  rewrite (bind_Ret _ _ _ _ _ (deref_eq r _ s Hr)). reflexivity.
Qed.

(** C8.  A handle [h] that holds the result of a successful allocation can
    be released twice.  The first [SafeFree] returns the object to the
    allocator and stores NULL in the handle; the second finds the handle
    empty and returns without calling [free], in the same state. *)
Theorem SafeFree_twice
  (s0 s1 : state) (zeroed : bool) (junk : nat -> Z) (size : Z) (p : ptr) (h : nat)
  (Halloc : (if zeroed then SafeMalloc size s0
             else SafeMallocUninitialized junk size s0) = Ret p s1)
  (Hp : p <> NULL) :
  exists s2 s3,
    assign h p s1 = Ret tt s2
    /\ SafeFree (Some h) s2 = Ret tt s3
    /\ ptrvars s3 !! h = Some NULL
    /\ view (mem s3) p = None
    /\ mem s3 = mem s0
    /\ avail s3 = avail s0
    /\ SafeFree (Some h) s3 = Ret tt s3.
Proof.
  assert (Ha : allocated s0 s1 size p).
  { destruct zeroed.
    - by apply SafeMalloc_allocated.
    - by apply (SafeMallocUninitialized_allocated junk). }
  destruct Ha as (b & blk & -> & Hfresh & Hmem & Hheap & Hlen & Hav & Hpv).
  assert (Hb : mem s1 !! b = Some blk) by (rewrite Hmem; apply lookup_insert_eq).
  eexists _, _. split; [reflexivity|].
  split.
  { apply (SafeFree_live h b blk); [apply lookup_insert_eq | exact Hb | exact Hheap]. }
  cbn [ptrvars set_ptrvars set_heap mem avail].
  split; [apply lookup_insert_eq|].
  split; [unfold view; by rewrite lookup_delete_eq|].
  split; [rewrite Hmem, delete_insert_eq; by apply delete_id|].
  split; [lia|].
  apply SafeFree_empty. apply lookup_insert_eq.
Qed.

Lemma SafeFree_twice_witness :
  exists p s1 s2 s3,
    SafeMalloc 100 (init_state ∅) = Ret p s1 /\ p <> NULL
    /\ assign 7%nat p s1 = Ret tt s2
    /\ SafeFree (Some 7%nat) s2 = Ret tt s3
    /\ ptrvars s3 !! 7%nat = Some NULL
    /\ SafeFree (Some 7%nat) s3 = Ret tt s3.
Proof.
  destruct (SafeMalloc 100 (init_state ∅)) as [|p s1] eqn:Hm; [discriminate Hm|].
  assert (Hp : p <> NULL) by (intros ->; discriminate Hm).
  destruct (SafeFree_twice (init_state ∅) s1 true (fun _ => 0) 100 p 7%nat Hm Hp)
    as (s2 & s3 & H1 & H2 & H3 & _ & _ & _ & H4).
  exists p, s1, s2, s3. repeat split; assumption.
Defined.

(** ** File acquisition *)

Lemma fresh_fd_unused (s : state) : fds s !! fresh (dom (fds s)) = None.
Proof. apply not_elem_of_dom, is_fresh. Qed.

Lemma close_fresh_fd (s : state) (st : Z) :
  delete (fresh (dom (fds s))) (<[fresh (dom (fds s)) := st]> (fds s)) = fds s.
Proof. rewrite delete_insert_eq. apply delete_id, fresh_fd_unused. Qed.

Lemma syscalls_reported e msg s : syscalls (reported e msg s) = syscalls s.
Proof. unfold reported. simpl. destruct (g_logger s); reflexivity. Qed.

Lemma sys_open_Some (E : os) (path : list Z) (flags mode st : Z) (s : state) :
  os_open E path flags mode = Some st ->
  sys_open E path flags mode s
  = Ret (Some (fresh (dom (fds s))))
        (add_syscall (SysOpen path flags mode (Some (fresh (dom (fds s)))))
                     (set_fds (<[fresh (dom (fds s)) := st]> (fds s)) s)).
Proof. intros H. unfold sys_open. by rewrite H. Qed.

Lemma sys_open_None (E : os) (path : list Z) (flags mode : Z) (s : state) :
  os_open E path flags mode = None ->
  sys_open E path flags mode s
  = Ret None (add_syscall (SysOpen path flags mode None) s).
Proof. intros H. unfold sys_open. by rewrite H. Qed.

Lemma sys_fopen_Some (E : os) (path mode : list Z) (st : Z) (s : state) :
  os_fopen E path mode = Some st ->
  sys_fopen E path mode s
  = Ret (Some (fresh (dom (fds s))))
        (add_syscall (SysFopen path mode (Some (fresh (dom (fds s)))))
                     (set_fds (<[fresh (dom (fds s)) := st]> (fds s)) s)).
Proof. intros H. unfold sys_fopen. by rewrite H. Qed.

Lemma sys_fopen_None (E : os) (path mode : list Z) (s : state) :
  os_fopen E path mode = None ->
  sys_fopen E path mode s
  = Ret None (add_syscall (SysFopen path mode None) s).
Proof. intros H. unfold sys_fopen. by rewrite H. Qed.

Lemma sys_fstat_eq (E : os) (fd : nat) (r : option Z) (s : state) :
  (if os_fstat_ok E fd then fds s !! fd else None) = r ->
  sys_fstat E fd s = Ret r (add_syscall (SysFstat fd r) s).
Proof. intros H. unfold sys_fstat. by rewrite H. Qed.

Lemma sys_fdopen_eq (E : os) (fd : nat) (mode : list Z) (s : state) :
  sys_fdopen E fd mode s
  = Ret (os_fdopen_ok E fd mode)
        (add_syscall (SysFdopen fd mode (os_fdopen_ok E fd mode)) s).
Proof. reflexivity. Qed.

Lemma bind_close {B} (fd : nat) (k : unit -> M B) (s : state) :
  (sys_close fd ≫= k) s
  = k tt (add_syscall (SysClose fd) (set_fds (delete fd (fds s)) s)).
Proof. reflexivity. Qed.

Lemma bind_fclose {B} (fd : nat) (k : unit -> M B) (s : state) :
  (sys_fclose fd ≫= k) s
  = k tt (add_syscall (SysFclose fd) (set_fds (delete fd (fds s)) s)).
Proof. reflexivity. Qed.

(** A failing path: the table is the initial one, the last event closes
    what was opened, and the error is FileAccess. *)
Ltac failing_path Hclose :=
  eexists None, _, _; split; [reflexivity|];
  split; [rewrite syscalls_reported; cbn [syscalls add_syscall set_fds];
          rewrite <- ?app_assoc; reflexivity|];
  rewrite fds_reported, g_lastError_reported; cbn [fds set_fds add_syscall];
  split; [intros; split; reflexivity|];
  split; [try apply Hclose; reflexivity|];
  split; [|reflexivity];
  let fd := fresh "fd" in let e := fresh "e" in let H := fresh "H" in
  intros fd e H; cbn in H; rewrite ?elem_of_cons, elem_of_nil in H;
  decompose [or] H; subst; cbn; try tauto;
  intros <-; eexists; split; reflexivity.

(** A successful path: the stream wraps the descriptor whose identity
    [fstat] reported. *)
Ltac opening_path st Hfresh Hreg :=
  eexists (Some (Stream _)), _, _; split; [reflexivity|];
  split; [cbn [syscalls add_syscall set_fds]; rewrite <- ?app_assoc; reflexivity|];
  split;
  [ let fd := fresh "fd" in let st' := fresh "st" in let H := fresh "H" in
    let Hn := fresh "Hn" in
    intros fd st' H Hn; cbn in H; rewrite ?elem_of_cons, elem_of_nil in H;
    decompose [or] H; try discriminate; try contradiction;
    match goal with E : SysFstat _ _ = SysFstat _ _ |- _ => injection E as <- <- end;
    congruence
  | exists st; split; [exact Hfresh|]; split; [reflexivity|];
    split; [cbn; rewrite ?elem_of_cons; auto | exact Hreg] ].

(** C7.  With [requireRegularFile] set (or default options), [SafeFOpen]
    always returns, and a stream is returned only for a descriptor whose
    identity, queried with [fstat] on that descriptor, is a regular file.
    On every failure the descriptor table is the initial one: whenever the
    call opened a descriptor, its last event closes that descriptor, and
    when the queried identity is not a regular file the call fails with
    FileAccess. *)
Theorem SafeFOpen_regular_or_closed
  (P : platform) (E : os) (s : state) (filePath mode : ptr)
  (opts : option SafeFileOpts)
  (Hpath : filePath = NULL \/ is_Some (string_at (mem s) filePath))
  (Hmode : mode = NULL \/ is_Some (string_at (mem s) mode))
  (Hreq : required_regular opts = true) :
  exists r s' evs,
    SafeFOpen P E filePath mode opts s = Ret r s'
    /\ events_since s s' evs
    /\ (forall fd st, SysFstat fd (Some st) ∈ evs -> S_ISREG st = false ->
        r = None /\ g_lastError s' = SAFEOPS_ERR_FILE_ACCESS)
    /\ match r with
       | Some (Stream fd) =>
           exists st,
             fds s !! fd = None /\ fds s' = <[fd := st]> (fds s)
             /\ SysFstat fd (Some st) ∈ evs /\ S_ISREG st = true
       | None =>
           fds s' = fds s
           /\ (forall fd e, e ∈ evs -> opens fd e ->
               exists e', last evs = Some e' /\ closes fd e')
           /\ (evs <> [] -> g_lastError s' = SAFEOPS_ERR_FILE_ACCESS)
       end.
Proof.
  unfold SafeFOpen, events_since, is_null.
  destruct Hpath as [->|[path Hp]].
  { exists None, (reported SAFEOPS_ERR_NULL_POINTER "NULL pointer in SafeFOpen" s), [].
    split; [reflexivity|]. rewrite syscalls_reported, fds_reported, app_nil_r.
    split; [reflexivity|]. split; [intros ? ? H; by apply elem_of_nil in H|].
    split; [reflexivity|]. split; [intros ? ? H; by apply elem_of_nil in H | congruence]. }
  assert (filePath <> NULL) by (intros ->; discriminate).
  rewrite (bool_decide_false (filePath = NULL)) by assumption.
  destruct Hmode as [->|[md Hm]].
  { exists None, (reported SAFEOPS_ERR_NULL_POINTER "NULL pointer in SafeFOpen" s), [].
    split; [reflexivity|]. rewrite syscalls_reported, fds_reported, app_nil_r.
    split; [reflexivity|]. split; [intros ? ? H0; by apply elem_of_nil in H0|].
    split; [reflexivity|]. split; [intros ? ? H0; by apply elem_of_nil in H0 | congruence]. }
  assert (mode <> NULL) by (intros ->; discriminate).
  rewrite (bool_decide_false (mode = NULL)) by assumption. cbn [orb].
  step. rewrite Hp, Hm. step.
  set (o := match opts with Some o => o | None => defaultOpts end).
  assert (Hr : requireRegularFile o = true).
  { unfold o. destruct opts; [exact Hreq | reflexivity]. }
  rewrite Hr. cbn [andb].
  pose proof (fresh_fd_unused s) as Hfresh.
  pose proof (close_fresh_fd s) as Hclose.
  set (fd := fresh (dom (fds s))) in *.
  destruct P as [nf|].
  - destruct (os_open E path (open_flags nf md o) (createMode o)) as [st|] eqn:Ho.
    + rewrite (bind_Ret _ _ _ _ _ (sys_open_Some E _ _ _ st s Ho)). fold fd.
      destruct (os_fstat_ok E fd) eqn:Hf.
      * erewrite bind_Ret;
          [|apply sys_fstat_eq; rewrite Hf; cbn [fds set_fds add_syscall];
            apply lookup_insert_eq].
        cbv beta iota. destruct (S_ISREG st) eqn:Hreg; cbn [negb].
        -- rewrite (bind_Ret _ _ _ _ _ (sys_fdopen_eq E fd md _)).
           destruct (os_fdopen_ok E fd md).
           ++ opening_path st Hfresh Hreg.
           ++ rewrite bind_close, bind_SetError. failing_path Hclose.
        -- rewrite bind_close, bind_SetError. failing_path Hclose.
      * erewrite bind_Ret; [|apply sys_fstat_eq; rewrite Hf; reflexivity].
        cbv beta iota.
        rewrite bind_close, bind_SetError. failing_path Hclose.
    + rewrite (bind_Ret _ _ _ _ _ (sys_open_None E _ _ _ s Ho)).
      cbv beta iota.
      rewrite bind_SetError. failing_path Hclose.
  - destruct (os_fopen E path md) as [st|] eqn:Ho.
    + rewrite (bind_Ret _ _ _ _ _ (sys_fopen_Some E _ _ st s Ho)). fold fd.
      destruct (os_fstat_ok E fd) eqn:Hf.
      * erewrite bind_Ret;
          [|apply sys_fstat_eq; rewrite Hf; cbn [fds set_fds add_syscall];
            apply lookup_insert_eq].
        cbv beta iota. destruct (S_ISREG st) eqn:Hreg; cbn [negb].
        -- opening_path st Hfresh Hreg.
        -- rewrite bind_fclose, bind_SetError. failing_path Hclose.
      * erewrite bind_Ret; [|apply sys_fstat_eq; rewrite Hf; reflexivity].
        cbv beta iota.
        rewrite bind_fclose, bind_SetError. failing_path Hclose.
    + rewrite (bind_Ret _ _ _ _ _ (sys_fopen_None E _ _ s Ho)).
      cbv beta iota.
      rewrite bind_SetError. failing_path Hclose.
Qed.

Lemma SafeFOpen_regular_or_closed_witness :
  (Ptr 0 0 = NULL \/ is_Some (string_at (mem tmp_dir) (Ptr 0 0)))
  /\ (Ptr 1 0 = NULL \/ is_Some (string_at (mem tmp_dir) (Ptr 1 0)))
  /\ required_regular None = true
  /\ exists s',
      SafeFOpen (POSIX false) dir_os (Ptr 0 0) (Ptr 1 0) None tmp_dir
      = Ret None s'
      /\ fds s' = fds tmp_dir
      /\ g_lastError s' = SAFEOPS_ERR_FILE_ACCESS.
Proof.
  assert (H1 : Ptr 0 0 = NULL \/ is_Some (string_at (mem tmp_dir) (Ptr 0 0)))
    by (right; eexists; reflexivity).
  assert (H2 : Ptr 1 0 = NULL \/ is_Some (string_at (mem tmp_dir) (Ptr 1 0)))
    by (right; eexists; reflexivity).
  split; [exact H1|]. split; [exact H2|]. split; [reflexivity|].
  destruct (SafeFOpen_regular_or_closed (POSIX false) dir_os tmp_dir
              (Ptr 0 0) (Ptr 1 0) None H1 H2 eq_refl) as (r & s' & evs & Hrun & Hev & _ & Hcase).
  assert (r = None) as ->.
  { destruct r; [|reflexivity]. vm_compute in Hrun. discriminate Hrun. }
  destruct Hcase as (Hfds & _ & Herr).
  exists s'. split; [exact Hrun|]. split; [exact Hfds|].
  apply Herr. intros ->. unfold events_since in Hev.
  vm_compute in Hrun. injection Hrun as <-. discriminate Hev.
Defined.

(** ** Writes that exceed the capacity *)

Lemma c_str_take (v t : list Z) (k : nat) :
  c_str v = Some t ->
  c_str (take k v) = if decide (length t < k)%nat then Some t else None.
Proof.
  intros H. pose proof (c_str_nonzero v t H) as Hn.
  apply c_str_split in H. rewrite H at 1.
  case_decide as Hk.
  - rewrite take_app_ge by lia.
    replace (k - length t)%nat with (S (k - length t - 1)) by lia.
    simpl. by apply c_str_app.
  - rewrite take_app_le by lia. apply c_str_None_iff.
    intros Hin. apply Hn. apply elem_of_take in Hin as (i & Hi & _).
    apply list_elem_of_lookup. by exists i.
Qed.

Lemma string_at_view (m : gmap nat block) (p : ptr) (t : list Z) :
  string_at m p = Some t ->
  p <> NULL /\ exists v, view m p = Some v /\ c_str v = Some t.
Proof.
  unfold string_at. intros H. split; [intros ->; discriminate|].
  destruct (view m p) as [v|]; [|discriminate]. by exists v.
Qed.

(** The scan of a terminated string: its length when that is at most
    [maxLen], a failure otherwise. *)
Lemma SafeStrLen_string (str : ptr) (maxLen : Z) (t : list Z) (s : state) :
  string_at (mem s) str = Some t -> 0 <= maxLen ->
  SafeStrLen str maxLen true s
  = if decide (len t <= maxLen) then Ret (true, Some (len t)) s
    else Ret (false, None)
             (reported SAFEOPS_ERR_OUT_OF_BOUNDS "String exceeds maximum length" s).
Proof.
  intros H Hm. destruct (string_at_view _ _ _ H) as (Hp & v & Hv & Hc).
  rewrite SafeStrLen_eq by assumption. rewrite Hv. step.
  rewrite bounded_scan_spec by assumption.
  rewrite (c_str_take v t _ Hc).
  pose proof (c_str_length v t Hc). unfold len.
  destruct (decide (length t < S (Z.to_nat maxLen))%nat).
  - rewrite decide_True by lia. reflexivity.
  - rewrite (decide_True (P := (Z.to_nat maxLen < length v)%nat)) by lia.
    rewrite decide_False by lia. reflexivity.
Qed.

Lemma SafeStrCat_too_long (dest src : ptr) (destSize : Z) (d t : list Z) (s : state) :
  string_at (mem s) dest = Some d -> string_at (mem s) src = Some t ->
  0 <= destSize -> len d + len t + 1 > destSize -> len d + len t <= SIZE_MAX ->
  exists msg,
    SafeStrCat dest destSize src s
    = Ret false (reported SAFEOPS_ERR_OUT_OF_BOUNDS msg s).
Proof.
  intros Hd Ht Hc HL Hrep.
  destruct (string_at_view _ _ _ Hd) as (Hpd & _).
  destruct (string_at_view _ _ _ Ht) as (Hpt & _).
  pose proof (len_nonneg d). pose proof (len_nonneg t).
  unfold SafeStrCat, is_null. rewrite !bool_decide_false by assumption. cbn [orb].
  destruct (decide (len d <= destSize)) as [Hle|Hgt].
  - erewrite bind_Ret;
      [|rewrite (SafeStrLen_string dest destSize d s Hd Hc);
        rewrite decide_True by assumption; reflexivity].
    cbv beta iota.
    erewrite bind_Ret;
      [|rewrite (SafeStrLen_string src SIZE_MAX t s Ht ltac:(by vm_compute));
        rewrite decide_True by lia; reflexivity].
    cbv beta iota. rewrite wrap_small by lia. rewrite decide_True by lia.
    eexists. reflexivity.
  - erewrite bind_Ret;
      [|rewrite (SafeStrLen_string dest destSize d s Hd Hc);
        rewrite decide_False by assumption; reflexivity].
    eexists. reflexivity.
Qed.

Lemma SafeStrCopy_too_long (dest src : ptr) (destSize : Z) (t : list Z) (s : state) :
  dest <> NULL -> string_at (mem s) src = Some t -> len t + 1 > destSize ->
  SafeStrCopy dest destSize src s
  = Ret false (set_errno (if decide (destSize > 0) then EOVERFLOW else EINVAL) s).
Proof.
  intros Hd Ht HL. destruct (string_at_view _ _ _ Ht) as (Hpt & _).
  unfold SafeStrCopy, is_null. rewrite !bool_decide_false by assumption.
  cbn [negb andb]. destruct (decide (destSize > 0)) as [Hpos|Hz].
  - rewrite bool_decide_true by assumption. cbn [negb].
    rewrite (bind_Ret _ _ _ _ _ (strlen_eq src t s Ht)).
    rewrite decide_True by lia. reflexivity.
  - rewrite bool_decide_false by assumption. reflexivity.
Qed.

Lemma SafeMemCopy_too_long (dest src : ptr) (destSize srcSize : Z) (s : state) :
  dest <> NULL -> src <> NULL -> srcSize > destSize ->
  SafeMemCopy dest destSize src srcSize s
  = Ret false (reported SAFEOPS_ERR_OUT_OF_BOUNDS
                        "Source size exceeds destination buffer" s).
Proof.
  intros Hd Hs HL. unfold SafeMemCopy, is_null.
  rewrite !bool_decide_false by assumption. cbn [orb].
  rewrite decide_True by assumption. reflexivity.
Qed.

Lemma SafeStrReplace_too_long
  (str oldStr newStr : ptr) (strSize : Z) (text old new : list Z) (s : state) :
  string_at (mem s) str = Some text -> string_at (mem s) oldStr = Some old ->
  string_at (mem s) newStr = Some new -> old <> [] ->
  len (replaced O old new text) + 1 > strSize ->
  len (replaced O old new text) <= SIZE_MAX ->
  SafeStrReplace str strSize oldStr newStr true s
  = Ret (false, None)
        (reported SAFEOPS_ERR_OUT_OF_BOUNDS "Replacement would overflow buffer" s).
Proof.
  intros Ht Ho Hn Hne HL Hrep.
  rewrite (SafeStrReplace_checked s str oldStr newStr strSize text old new Ht Ho Hn Hne).
  rewrite final_length_exact by assumption.
  rewrite decide_True by lia. reflexivity.
Qed.

(** C1 (amended).  When the required write size [L] exceeds the
    destination capacity and is representable ([L <= SIZE_MAX]), each of
    the four operations returns false in a state whose memory is the
    initial one: nothing is written.
    [SafeStrCat], [SafeMemCopy] and [SafeStrReplace] leave OutOfBounds in
    the last-error cell; [SafeStrCopy] does not touch that cell and sets
    [errno] to [EOVERFLOW], or to [EINVAL] when the capacity is 0. *)
Theorem write_beyond_capacity_rejected
  (s : state) (o : write_op) (L : Z)
  (Hreq : required_size (mem s) o = Some L)
  (Hcap : 0 <= capacity o) (Hbig : L > capacity o) (Hrep : L <= SIZE_MAX) :
  exists s',
    run_op o s = Ret false s'
    /\ mem s' = mem s
    /\ match o with
       | Copy _ destSize _ =>
           s' = set_errno (if decide (destSize > 0) then EOVERFLOW else EINVAL) s
           /\ g_lastError s' = g_lastError s
       | _ => g_lastError s' = SAFEOPS_ERR_OUT_OF_BOUNDS
       end.
Proof.
  destruct o as [dest C src|dest C src|dest C src n|str C oldStr newStr];
    cbn [run_op capacity required_size] in *.
  - unfold is_null in Hreq. case_bool_decide as Hd; [discriminate|].
    destruct (string_at (mem s) src) as [t|] eqn:Ht; [|discriminate].
    injection Hreq as <-.
    rewrite (SafeStrCopy_too_long dest src C t s Hd Ht Hbig).
    eexists. split; [reflexivity|]. split; [reflexivity|]. split; reflexivity.
  - destruct (string_at (mem s) dest) as [d|] eqn:Hd; [|discriminate].
    destruct (string_at (mem s) src) as [t|] eqn:Ht; [|discriminate].
    injection Hreq as <-.
    destruct (SafeStrCat_too_long dest src C d t s Hd Ht Hcap Hbig ltac:(lia))
      as [msg ->].
    eexists. split; [reflexivity|].
    split; [apply mem_reported | apply g_lastError_reported].
  - unfold is_null in Hreq.
    case_bool_decide as Hd; [discriminate|].
    case_bool_decide as Hs; [discriminate|]. injection Hreq as <-.
    rewrite (SafeMemCopy_too_long dest src C n s Hd Hs Hbig).
    eexists. split; [reflexivity|].
    split; [apply mem_reported | apply g_lastError_reported].
  - destruct (string_at (mem s) str) as [text|] eqn:Ht; [|discriminate].
    destruct (string_at (mem s) oldStr) as [old|] eqn:Ho; [|discriminate].
    destruct (string_at (mem s) newStr) as [new|] eqn:Hn; [|discriminate].
    cbn in Hreq. case_decide as He; [discriminate|]. injection Hreq as <-.
    rewrite (bind_Ret _ _ _ _ _
               (SafeStrReplace_too_long str oldStr newStr C text old new s
                  Ht Ho Hn He Hbig ltac:(lia))).
    eexists. split; [reflexivity|].
    split; [apply mem_reported | apply g_lastError_reported].
Qed.

Lemma write_beyond_capacity_rejected_witness :
  required_size (mem small_dest) (Concatenate (Ptr 0 0) 4 (Ptr 1 0)) = Some 6
  /\ 0 <= 4 /\ 6 > 4 /\ 6 <= SIZE_MAX
  /\ exists s',
      SafeStrCat (Ptr 0 0) 4 (Ptr 1 0) small_dest = Ret false s'
      /\ mem s' = mem small_dest
      /\ g_lastError s' = SAFEOPS_ERR_OUT_OF_BOUNDS.
Proof.
  split; [reflexivity|]. split; [lia|]. split; [lia|]. split; [by vm_compute|].
  apply (write_beyond_capacity_rejected small_dest
           (Concatenate (Ptr 0 0) 4 (Ptr 1 0)) 6);
    [reflexivity | simpl; lia | simpl; lia | by vm_compute].
Defined.

(** C1 as it is written fails for copy: "Hello" needs 6 bytes, the
    destination has 4; [SafeStrCopy] returns false and writes nothing, but
    the last-error cell still holds Ok. *)
Lemma SafeStrCopy_fails_without_OutOfBounds :
  required_size (mem small_dest) (Copy (Ptr 0 0) 4 (Ptr 1 0)) = Some 6
  /\ 6 > capacity (Copy (Ptr 0 0) 4 (Ptr 1 0))
  /\ exists s',
      SafeStrCopy (Ptr 0 0) 4 (Ptr 1 0) small_dest = Ret false s'
      /\ mem s' = mem small_dest
      /\ g_lastError s' = SAFEOPS_OK
      /\ g_lastError s' <> SAFEOPS_ERR_OUT_OF_BOUNDS.
Proof.
  split; [reflexivity|]. split; [simpl; lia|].
  eexists. split; [vm_compute; reflexivity|].
  split; [reflexivity|]. split; [reflexivity | discriminate].
Qed.

(** ** The last-error cell *)

Lemma Ret_inj {A} (a a' : A) (s s' : state) :
  Ret a s = Ret a' s' -> a = a' /\ s = s'.
Proof. intros [= -> ->]. split; reflexivity. Qed.

(** Case analysis along the paths of a call that returned. *)
Ltac paths :=
  repeat match goal with
    | H : Fault = Ret _ _ |- _ => discriminate H
    | H : Ret _ _ = Ret _ _ |- _ =>
        apply Ret_inj in H; destruct H as [? ?]; subst; try discriminate
    | H : ret _ _ = Ret _ _ |- _ => unfold ret in H
    | H : fault _ = Ret _ _ |- _ => discriminate H
    | H : ?lhs = Ret _ _ |- _ =>
        match lhs with
        | context [match ?x with _ => _ end] => destruct x eqn:?
        end
    end.

Lemma is_null_NULL : is_null NULL = true.
Proof. unfold is_null. by rewrite bool_decide_true. Qed.

Lemma is_null_Ptr (b : nat) (ofs : Z) : is_null (Ptr b ofs) = false.
Proof. unfold is_null. by rewrite bool_decide_false. Qed.

Ltac settle :=
  unfold last_error_contract, failure_codes, reported;
  rewrite ?is_null_NULL, ?is_null_Ptr; cbn;
  repeat match goal with |- context [g_logger ?s] => destruct (g_logger s) end;
  cbn; rewrite ?elem_of_cons; auto 10.

Lemma SafeStrLen_contract str maxLen outLen s r s' :
  SafeStrLen str maxLen outLen s = Ret r s' -> last_error_contract true s (fst r) s'.
Proof. unfold SafeStrLen. intros H. run. paths; settle. Qed.

Lemma SafeWStrLen_contract str maxLen outLen s r s' :
  SafeWStrLen str maxLen outLen s = Ret r s' -> last_error_contract true s (fst r) s'.
Proof. unfold SafeWStrLen. intros H. run. paths; settle. Qed.

Lemma SafeMalloc_contract size s p s' :
  SafeMalloc size s = Ret p s' -> last_error_contract true s (negb (is_null p)) s'.
Proof. unfold SafeMalloc, calloc, new_block. intros H. run. paths; settle. Qed.

Lemma SafeMallocUninitialized_contract junk size s p s' :
  SafeMallocUninitialized junk size s = Ret p s' ->
  last_error_contract true s (negb (is_null p)) s'.
Proof.
  unfold SafeMallocUninitialized, malloc, new_block. intros H. run. paths; settle.
Qed.

Lemma SafeFreeTyped_contract ptrRef size s ok s' :
  SafeFreeTyped ptrRef size s = Ret ok s' -> last_error_contract false s ok s'.
Proof.
  unfold SafeFreeTyped, deref, assign, free. intros H.
  destruct ptrRef; run; paths; settle.
Qed.

Lemma SafeMemCopy_contract dest destSize src srcSize s ok s' :
  SafeMemCopy dest destSize src srcSize s = Ret ok s' ->
  last_error_contract true s ok s'.
Proof. unfold SafeMemCopy, memmove. intros H. run. paths; settle. Qed.

Lemma SafeStrCat_contract dest destSize src s ok s' :
  SafeStrCat dest destSize src s = Ret ok s' -> last_error_contract true s ok s'.
Proof.
  unfold SafeStrCat, SafeStrLen, memcpy, memmove. intros H. run. paths; settle.
Qed.

Lemma SafeStrCopy_contract dest destSize src s ok s' :
  SafeStrCopy dest destSize src s = Ret ok s' -> last_error_contract false s ok s'.
Proof.
  unfold SafeStrCopy, strlen, strncpy, store_cell. intros H. run. paths; settle.
Qed.

Lemma SafeWStrNCopy_contract dest destSize src count s ok s' :
  SafeWStrNCopy dest destSize src count s = Ret ok s' ->
  last_error_contract true s ok s'.
Proof.
  unfold SafeWStrNCopy, SafeWStrLen, strncpy, store_cell. intros H. run.
  paths; settle.
Qed.

Lemma SafeWStrNCat_contract dest destSize src count s ok s' :
  SafeWStrNCat dest destSize src count s = Ret ok s' ->
  last_error_contract true s ok s'.
Proof.
  unfold SafeWStrNCat, SafeWStrLen, wcsncat, store_cell. intros H. run.
  paths; settle.
Qed.

Lemma SafeStrFind_contract haystack haystackLen needle outPos s r s' :
  SafeStrFind haystack haystackLen needle outPos s = Ret r s' ->
  last_error_contract true s (fst r) s'.
Proof. unfold SafeStrFind, strlen. intros H. run. paths; settle. Qed.

Lemma SafeWriteInt_contract array arraySize index value s ok s' :
  SafeWriteInt array arraySize index value s = Ret ok s' ->
  last_error_contract false s ok s'.
Proof. unfold SafeWriteInt, store_cell. intros H. run. paths; settle. Qed.

Lemma SafeReadInt_contract array arraySize index outValue s r s' :
  SafeReadInt array arraySize index outValue s = Ret r s' ->
  last_error_contract false s (fst r) s'.
Proof. unfold SafeReadInt. intros H. run. paths; settle. Qed.

Lemma SafePointerOffset_contract base_ baseSize offset s p s' :
  SafePointerOffset base_ baseSize offset s = Ret p s' ->
  last_error_contract false s (negb (is_null p)) s'.
Proof.
  unfold SafePointerOffset. intros H. run. paths; try settle.
  destruct base_; [rewrite is_null_NULL in *; discriminate|].
  cbn [ptr_add]. rewrite is_null_Ptr. reflexivity.
Qed.

Lemma SafeAddInt_contract gnuc a b result s r s' :
  SafeAddInt gnuc a b result s = Ret r s' ->
  last_error_contract false s (fst r) s'.
Proof. unfold SafeAddInt. intros H. run. paths; settle. Qed.

Lemma SafeCastLongLongToInt_contract val out s r s' :
  SafeCastLongLongToInt val out s = Ret r s' ->
  last_error_contract false s (fst r) s'.
Proof. unfold SafeCastLongLongToInt. intros H. run. paths; settle. Qed.

Lemma SafeStrReplace_contract str strSize oldStr newStr outLen s r s' :
  SafeStrReplace str strSize oldStr newStr outLen s = Ret r s' ->
  last_error_contract true s (fst r) s'.
Proof.
  unfold SafeStrReplace, strlen, SafeMalloc, calloc, new_block, memcpy, memmove,
    free, enough.
  intros H. run. paths; settle.
Qed.

Lemma SafeFOpen_contract P E filePath mode opts s r s' :
  SafeFOpen P E filePath mode opts s = Ret r s' ->
  last_error_contract true s (bool_decide (is_Some r)) s'.
Proof.
  unfold SafeFOpen, sys_open, sys_fopen, sys_fstat, sys_close, sys_fclose,
    sys_fdopen.
  intros H. run. paths; settle.
Qed.

(** C2 (amended).  For every call that returns: on success the last-error
    cell is untouched.  On failure, the operations that report through
    [SetError] ([SafeMalloc], [SafeMallocUninitialized], [SafeMemCopy],
    [SafeStrLen], [SafeWStrLen], [SafeStrCat], [SafeWStrNCopy],
    [SafeWStrNCat], [SafeStrFind], [SafeStrReplace], [SafeFOpen]) leave one
    of the failure codes NullPointer, OutOfBounds, Overflow, InvalidParam,
    AllocationFailed, FileAccess in the cell; the others ([SafeStrCopy],
    [SafeFreeTyped], [SafeWriteInt], [SafeReadInt], [SafePointerOffset],
    [SafeAddInt], [SafeCastLongLongToInt]) leave the cell untouched and set
    [errno] to [EINVAL] or [EOVERFLOW]. *)
Theorem last_error_cell_contract
  (c : call) (s s' : state) (ok : bool)
  (Hrun : run_call c s = Ret ok s') :
  if ok then g_lastError s' = g_lastError s
  else if reports_through_SetError c then g_lastError s' ∈ failure_codes
       else g_lastError s' = g_lastError s
            /\ (errno s' = EINVAL \/ errno s' = EOVERFLOW).
Proof.
  change (last_error_contract (reports_through_SetError c) s ok s').
  destruct c; cbn [run_call reports_through_SetError] in *;
    unfold mbind, M_bind, bind, mret, M_ret, ret in Hrun;
    try match type of Hrun with
        | match ?m with _ => _ end = _ =>
            destruct m as [|r s1] eqn:Hm; [discriminate|];
            apply Ret_inj in Hrun; destruct Hrun as [<- <-]
        end.
  - by apply (SafeMalloc_contract size).
  - by apply (SafeMallocUninitialized_contract junk size).
  - by apply (SafeFreeTyped_contract ptrRef size).
  - by apply (SafeMemCopy_contract dest destSize src srcSize).
  - by apply (SafeStrLen_contract str maxLen outLen).
  - by apply (SafeWStrLen_contract str maxLen outLen).
  - by apply (SafeStrCat_contract dest destSize src).
  - by apply (SafeStrCopy_contract dest destSize src).
  - by apply (SafeWStrNCopy_contract dest destSize src count).
  - by apply (SafeWStrNCat_contract dest destSize src count).
  - by apply (SafeStrFind_contract haystack haystackLen needle outPos).
  - by apply (SafeStrReplace_contract str strSize oldStr newStr outLen).
  - by apply (SafeWriteInt_contract array arraySize index value).
  - by apply (SafeReadInt_contract array arraySize index outValue).
  - by apply (SafePointerOffset_contract base_ baseSize offset).
  - by apply (SafeAddInt_contract gnuc a b result).
  - by apply (SafeCastLongLongToInt_contract val out).
  - by apply (SafeFOpen_contract P E filePath mode opts).
Qed.

Lemma last_error_cell_contract_witness :
  run_call (CallStrFind (Ptr 0 0) 3 NULL true) abcdef
  = Ret false (reported SAFEOPS_ERR_NULL_POINTER "NULL pointer in SafeStrFind" abcdef)
  /\ g_lastError
       (reported SAFEOPS_ERR_NULL_POINTER "NULL pointer in SafeStrFind" abcdef)
     ∈ failure_codes.
Proof.
  assert (H : run_call (CallStrFind (Ptr 0 0) 3 NULL true) abcdef
              = Ret false (reported SAFEOPS_ERR_NULL_POINTER
                                    "NULL pointer in SafeStrFind" abcdef))
    by reflexivity.
  split; [exact H|].
  apply (last_error_cell_contract _ _ _ false H).
Defined.

(** C2 as it is written fails: [SafeAddInt(INT_MAX, 1)] fails, and the
    last-error cell, which held Ok before the call, still holds Ok after
    it; only [errno] records the overflow. *)
Lemma SafeAddInt_overflow_leaves_last_error :
  exists r s',
    SafeAddInt true INT_MAX 1 true (init_state ∅) = Ret (false, r) s'
    /\ g_lastError (init_state ∅) = SAFEOPS_OK
    /\ g_lastError s' = SAFEOPS_OK
    /\ (g_lastError s' ∉ failure_codes)
    /\ errno s' = EOVERFLOW.
Proof.
  eexists _, _.
  split; [reflexivity|]. split; [reflexivity|]. split; [reflexivity|].
  split; [|reflexivity].
  cbn. unfold failure_codes. rewrite !not_elem_of_cons.
  repeat split; try discriminate. apply not_elem_of_nil.
Qed.

(** * Further properties of the operations *)

(** ** Stores and loads *)

Lemma store_block (m : gmap nat block) (b : nat) (ofs : Z) (blk : block)
      (bs : list Z) :
  m !! b = Some blk -> 0 <= ofs -> ofs + len bs <= len (cells blk) ->
  store m (Ptr b ofs) bs
  = Some (<[b := mkBlock (base blk) (on_heap blk)
                         (take (Z.to_nat ofs) (cells blk) ++ bs
                          ++ drop (Z.to_nat ofs + length bs) (cells blk))]> m).
Proof.
  intros Hb Ho Hfit. unfold store. rewrite Hb. step.
  rewrite write_at_Some by assumption. reflexivity.
Qed.

Lemma mem_with_cells (s : state) (b : nat) (ofs : Z) (blk : block) (bs : list Z) :
  mem s !! b = Some blk ->
  mem (with_cells s b ofs bs)
  = <[b := mkBlock (base blk) (on_heap blk)
                   (take (Z.to_nat ofs) (cells blk) ++ bs
                    ++ drop (Z.to_nat ofs + length bs) (cells blk))]> (mem s).
Proof. intros Hb. unfold with_cells. rewrite Hb. reflexivity. Qed.

Lemma store_with_cells (s : state) (b : nat) (ofs : Z) (blk : block) (bs : list Z) :
  mem s !! b = Some blk -> 0 <= ofs -> ofs + len bs <= len (cells blk) ->
  store (mem s) (Ptr b ofs) bs = Some (mem (with_cells s b ofs bs))
  /\ set_mem (mem (with_cells s b ofs bs)) s = with_cells s b ofs bs.
Proof.
  intros Hb Ho Hfit. rewrite (store_block _ _ _ _ _ Hb Ho Hfit).
  unfold with_cells. rewrite Hb. split; reflexivity.
Qed.

(** After a store, the stored elements are what the object holds there. *)
Lemma view_with_cells (s : state) (b : nat) (ofs : Z) (blk : block) (bs : list Z) :
  mem s !! b = Some blk -> 0 <= ofs -> ofs + len bs <= len (cells blk) ->
  view (mem (with_cells s b ofs bs)) (Ptr b ofs)
  = Some (bs ++ drop (Z.to_nat ofs + length bs) (cells blk)).
Proof.
  intros Hb Ho Hfit. rewrite (mem_with_cells _ _ _ _ _ Hb).
  unfold view. rewrite lookup_insert_eq. step. cbn [cells]. unfold len in *.
  rewrite decide_True by (rewrite !length_app, length_take; lia). f_equal.
  replace (Z.to_nat ofs) with (length (take (Z.to_nat ofs) (cells blk))) at 1
    by (rewrite length_take; lia).
  apply drop_app_length.
Qed.

Lemma other_block_with_cells (s : state) (b b' : nat) (ofs : Z) (bs : list Z) :
  b' <> b -> mem (with_cells s b ofs bs) !! b' = mem s !! b'.
Proof.
  intros Hne. unfold with_cells. destruct (mem s !! b); [|reflexivity].
  cbn [mem set_mem]. by rewrite lookup_insert_ne.
Qed.

Lemma g_lastError_with_cells (s : state) (b : nat) (ofs : Z) (bs : list Z) :
  g_lastError (with_cells s b ofs bs) = g_lastError s.
Proof. unfold with_cells. destruct (mem s !! b); reflexivity. Qed.

Lemma strncpy_data_string (v t : list Z) (k : nat) :
  c_str v = Some t -> (length t <= k)%nat ->
  strncpy_data v k = Some (t ++ replicate (k - length t) 0).
Proof.
  revert t k. induction v as [|c v IH]; intros t k H Hk; simpl in H; [discriminate|].
  destruct k as [|k].
  - destruct t; [|simpl in Hk; lia]. reflexivity.
  - simpl. destruct (decide (c = 0)) as [->|Hc].
    + injection H as <-. reflexivity.
    + destruct (c_str v) as [t'|] eqn:Ht; simpl in H; [|discriminate].
      injection H as <-. simpl in Hk. rewrite (IH t' k eq_refl) by lia.
      reflexivity.
Qed.

Lemma c_str_upto_string (v t : list Z) (k : nat) :
  c_str v = Some t -> is_Some (c_str_upto v k).
Proof.
  revert t k. induction v as [|c v IH]; intros t k H; simpl in H; [discriminate|].
  destruct k as [|k]; simpl; [by eexists|].
  destruct (decide (c = 0)); [by eexists|].
  destruct (c_str v) as [t'|] eqn:Ht; simpl in H; [|discriminate].
  destruct (IH t' k eq_refl) as [u Hu]. rewrite Hu. by eexists.
Qed.

Lemma strncat_data_string (v t : list Z) (k : nat) :
  c_str v = Some t -> (length t <= k)%nat -> strncat_data v k = Some (t ++ [0]).
Proof.
  revert t k. induction v as [|c v IH]; intros t k H Hk; simpl in H; [discriminate|].
  destruct k as [|k].
  - destruct t; [|simpl in Hk; lia]. reflexivity.
  - simpl. destruct (decide (c = 0)) as [->|Hc].
    + injection H as <-. reflexivity.
    + destruct (c_str v) as [t'|] eqn:Ht; simpl in H; [|discriminate].
      injection H as <-. simpl in Hk. rewrite (IH t' k eq_refl) by lia.
      reflexivity.
Qed.

Lemma store_cell_eq (p : ptr) (i c : Z) (s : state) (m' : gmap nat block) :
  store (mem s) (ptr_add p i) [c] = Some m' ->
  store_cell p i c s = Ret tt (set_mem m' s).
Proof. intros H. unfold store_cell. step. rewrite H. reflexivity. Qed.

(** Two adjacent stores into one object are one store of the
    concatenation. *)
Lemma store_app (m : gmap nat block) (b : nat) (ofs : Z) (blk : block)
      (a c : list Z) :
  m !! b = Some blk -> 0 <= ofs -> ofs + len (a ++ c) <= len (cells blk) ->
  exists m1,
    store m (Ptr b ofs) a = Some m1
    /\ store m1 (Ptr b (ofs + len a)) c = store m (Ptr b ofs) (a ++ c).
Proof.
  intros Hb Ho Hfit. pose proof (len_nonneg a). pose proof (len_nonneg c).
  rewrite len_app in Hfit.
  eexists. split; [apply (store_block m b ofs blk a Hb Ho); lia|].
  pose proof (write_at_app (cells blk) ofs a c) as Happ.
  rewrite (write_at_Some (cells blk) ofs a) in Happ by lia. simpl in Happ.
  unfold store. rewrite lookup_insert_eq, Hb. step. cbn [cells base on_heap].
  rewrite <- Happ.
  destruct (write_at (cells blk) ofs (a ++ c)); simpl; [|reflexivity].
  by rewrite insert_insert_eq.
Qed.

Lemma string_at_with_cells (s : state) (b : nat) (ofs : Z) (blk : block)
      (t r : list Z) :
  mem s !! b = Some blk -> 0 <= ofs ->
  ofs + len (t ++ 0 :: r) <= len (cells blk) -> 0 ∉ t ->
  string_at (mem (with_cells s b ofs (t ++ 0 :: r))) (Ptr b ofs) = Some t.
Proof.
  intros Hb Ho Hfit Hn. unfold string_at.
  rewrite (view_with_cells s b ofs blk _ Hb Ho Hfit). step.
  rewrite <- app_assoc. simpl. by apply c_str_app.
Qed.

Lemma string_at_other_block (s : state) (b b' : nat) (ofs ofs' : Z) (bs : list Z) :
  b' <> b ->
  string_at (mem (with_cells s b ofs bs)) (Ptr b' ofs')
  = string_at (mem s) (Ptr b' ofs').
Proof.
  intros Hne. unfold string_at, view.
  by rewrite other_block_with_cells.
Qed.

Lemma strncpy_ok (dest src : ptr) (n : Z) (s : state) (v bs u : list Z)
      (m' : gmap nat block) :
  view (mem s) src = Some v ->
  strncpy_data v (Z.to_nat n) = Some bs ->
  c_str_upto v (Z.to_nat n) = Some u ->
  disjoint_regions dest n src (len u) = true ->
  store (mem s) dest bs = Some m' ->
  strncpy dest src n s = Ret tt (set_mem m' s).
Proof.
  intros Hv Hb Hu Hd Hs. unfold strncpy. step. rewrite Hv. step.
  rewrite Hb. step. rewrite Hu. step. rewrite Hd. rewrite Hs. reflexivity.
Qed.

(** X1.  [SafeStrCopy] of a string that fits: the destination holds the
    string followed by zeros up to its capacity (stale content is erased),
    so the bounded length of the result is the source length, below the
    capacity; the source is unchanged. *)
Theorem SafeStrCopy_copies
  (s : state) (db sb : nat) (dofs sofs destSize : Z) (dblk : block) (t : list Z)
  (Hd : mem s !! db = Some dblk)
  (Hofs : 0 <= dofs) (Hcap : dofs + destSize <= len (cells dblk))
  (Hsrc : string_at (mem s) (Ptr sb sofs) = Some t)
  (Hne : sb <> db) (Hfit : len t < destSize) :
  let s' := with_cells s db dofs (t ++ replicate (Z.to_nat (destSize - len t)) 0) in
  SafeStrCopy (Ptr db dofs) destSize (Ptr sb sofs) s = Ret true s'
  /\ string_at (mem s') (Ptr db dofs) = Some t
  /\ SafeStrLen (Ptr db dofs) destSize true s' = Ret (true, Some (len t)) s'
  /\ string_at (mem s') (Ptr sb sofs) = Some t
  /\ g_lastError s' = g_lastError s.
Proof.
  intros s'. pose proof (len_nonneg t) as Ht0.
  destruct (string_at_view _ _ _ Hsrc) as (_ & v & Hv & Hc).
  pose proof (c_str_nonzero v t Hc) as Hnz.
  set (n := Z.to_nat (destSize - 1)).
  set (bs := t ++ replicate (n - length t) 0).
  assert (Hbs : len bs = destSize - 1).
  { unfold bs, n. rewrite len_app. unfold len in *. rewrite length_replicate. lia. }
  assert (Hall : bs ++ [0] = t ++ replicate (Z.to_nat (destSize - len t)) 0).
  { unfold bs. rewrite <- app_assoc, <- replicate_S_end. do 2 f_equal.
    unfold n, len in *. lia. }
  assert (Hlen : len (bs ++ [0]) = destSize).
  { rewrite len_app, len_cons, len_nil. lia. }
  assert (Hstr : string_at (mem s') (Ptr db dofs) = Some t).
  { unfold s'. replace (Z.to_nat (destSize - len t))
      with (S (Z.to_nat (destSize - len t - 1))) by (unfold len in *; lia).
    simpl replicate.
    apply (string_at_with_cells s db dofs dblk); try assumption.
    change (0 :: replicate (Z.to_nat (destSize - len t - 1)) 0)
      with (replicate (S (Z.to_nat (destSize - len t - 1))) 0).
    rewrite len_app. unfold len in *. rewrite length_replicate. lia. }
  split; [|split; [exact Hstr|split; [|split]]].
  - unfold SafeStrCopy, is_null. rewrite !bool_decide_false by discriminate.
    rewrite bool_decide_true by lia. cbn [negb andb].
    rewrite (bind_Ret _ _ _ _ _ (strlen_eq _ t s Hsrc)).
    rewrite decide_False by lia.
    destruct (store_app (mem s) db dofs dblk bs [0] Hd Hofs ltac:(lia))
      as (m1 & Hs1 & Hs2).
    destruct (c_str_upto_string v t n Hc) as [u Hu].
    erewrite bind_Ret;
      [|eapply (strncpy_ok _ _ _ s v bs u m1 Hv);
        [apply strncpy_data_string; [exact Hc | unfold n, len in *; lia]
        | exact Hu
        | unfold disjoint_regions; rewrite bool_decide_false by congruence;
          reflexivity
        | exact Hs1 ]].
    assert (Hs3 : store (mem (set_mem m1 s)) (ptr_add (Ptr db dofs) (destSize - 1)) [0]
                  = Some (mem s')).
    { cbn [mem set_mem ptr_add]. rewrite <- Hbs, Hs2, Hall.
      unfold s'. rewrite <- Hall.
      apply (store_with_cells s db dofs dblk (bs ++ [0]) Hd Hofs). lia. }
    rewrite (bind_Ret _ _ _ _ _ (store_cell_eq _ _ _ _ _ Hs3)).
    unfold ret. f_equal. unfold s'. rewrite <- Hall.
    destruct (store_with_cells s db dofs dblk (bs ++ [0]) Hd Hofs ltac:(lia))
      as [_ Hset].
    rewrite <- Hset at 2. reflexivity.
  - rewrite (SafeStrLen_string _ destSize t s' Hstr) by lia.
    rewrite decide_True by lia. reflexivity.
  - unfold s'. rewrite string_at_other_block by assumption. exact Hsrc.
  - apply g_lastError_with_cells.
Qed.

Lemma SafeStrCopy_copies_witness :
  mem greeting !! 0%nat = Some (mkBlock 4096 false (buffer 50 "Hello, World!"))
  /\ 0 <= 0 /\ 0 + 50 <= len (buffer 50 "Hello, World!")
  /\ string_at (mem greeting) (Ptr 2 0) = Some (bytes "World")
  /\ 2%nat <> 0%nat /\ len (bytes "World") < 50
  /\ exists s',
      SafeStrCopy (Ptr 0 0) 50 (Ptr 2 0) greeting = Ret true s'
      /\ string_at (mem s') (Ptr 0 0) = Some (bytes "World").
Proof.
  split; [reflexivity|]. split; [lia|]. split; [by vm_compute|].
  split; [reflexivity|]. split; [lia|]. split; [by vm_compute|].
  destruct (SafeStrCopy_copies greeting 0 2 0 0 50
              (mkBlock 4096 false (buffer 50 "Hello, World!")) (bytes "World")
              eq_refl ltac:(lia) ltac:(by vm_compute) eq_refl ltac:(lia)
              ltac:(by vm_compute)) as (H1 & H2 & _).
  eexists. split; [exact H1 | exact H2].
Defined.

Lemma load_string (m : gmap nat block) (p : ptr) (t : list Z) :
  string_at m p = Some t -> load m p (len t + 1) = Some (t ++ [0]).
Proof.
  intros H. destruct (string_at_view _ _ _ H) as (_ & v & Hv & Hc).
  unfold load. rewrite Hv. step.
  pose proof (c_str_length v t Hc).
  rewrite decide_True by (unfold len; lia). f_equal.
  rewrite (c_str_split v t Hc).
  replace (Z.to_nat (len t + 1)) with (length t + 1)%nat by (unfold len; lia).
  rewrite take_app_add. reflexivity.
Qed.

(** The elements from the start of a string up to an offset inside an
    object, after a store right behind that string. *)
Lemma view_before_with_cells
  (s : state) (b : nat) (ofs : Z) (blk : block) (d bs : list Z) :
  mem s !! b = Some blk -> 0 <= ofs ->
  c_str (drop (Z.to_nat ofs) (cells blk)) = Some d ->
  ofs + len d + len bs <= len (cells blk) ->
  view (mem (with_cells s b (ofs + len d) bs)) (Ptr b ofs)
  = Some (d ++ bs ++ drop (Z.to_nat (ofs + len d) + length bs) (cells blk)).
Proof.
  intros Hb Ho Hc Hfit. pose proof (len_nonneg d). pose proof (len_nonneg bs).
  rewrite (mem_with_cells _ _ _ _ _ Hb). unfold view. rewrite lookup_insert_eq.
  step. cbn [cells]. unfold len in *.
  rewrite decide_True by (rewrite !length_app, length_take; lia). f_equal.
  rewrite drop_app_le by (rewrite length_take; lia).
  f_equal.
  replace (Z.to_nat (ofs + Z.of_nat (length d)))
    with (Z.to_nat ofs + length d)%nat by lia.
  rewrite <- take_drop_commute.
  rewrite (c_str_split _ d Hc). apply take_app_length.
Qed.

(** X2.  [SafeStrCat] of a string that fits appends it with its terminator
    directly after the existing content: the destination then holds the
    concatenation, nothing else of the state changes, and the source is
    unchanged. *)
Theorem SafeStrCat_appends
  (s : state) (db sb : nat) (dofs sofs destSize : Z) (dblk : block) (d t : list Z)
  (Hd : mem s !! db = Some dblk)
  (Hdst : string_at (mem s) (Ptr db dofs) = Some d)
  (Hsrc : string_at (mem s) (Ptr sb sofs) = Some t)
  (Hne : sb <> db)
  (Hsize : destSize <= SIZE_MAX)
  (Hcap : dofs + destSize <= len (cells dblk))
  (Hfit : len d + len t < destSize) :
  let s' := with_cells s db (dofs + len d) (t ++ [0]) in
  SafeStrCat (Ptr db dofs) destSize (Ptr sb sofs) s = Ret true s'
  /\ string_at (mem s') (Ptr db dofs) = Some (d ++ t)
  /\ string_at (mem s') (Ptr sb sofs) = Some t
  /\ g_lastError s' = g_lastError s.
Proof.
  intros s'. pose proof (len_nonneg d). pose proof (len_nonneg t).
  destruct (string_at_bounds _ _ _ _ Hdst) as (blk0 & Hb0 & Hofs & Hdfit & Hcd).
  assert (blk0 = dblk) as -> by congruence.
  destruct (string_at_view _ _ _ Hsrc) as (_ & v & Hv & Hc).
  assert (Hlt : len (t ++ [0]) = len t + 1)
    by (rewrite len_app, len_cons, len_nil; lia).
  split; [|split; [|split]].
  - unfold SafeStrCat, is_null. rewrite !bool_decide_false by discriminate.
    cbn [orb].
    erewrite bind_Ret;
      [|rewrite (SafeStrLen_string _ destSize d s Hdst) by lia;
        rewrite decide_True by lia; reflexivity].
    cbv beta iota.
    erewrite bind_Ret;
      [|rewrite (SafeStrLen_string _ SIZE_MAX t s Hsrc) by (by vm_compute);
        rewrite decide_True by lia; reflexivity].
    cbv beta iota. rewrite !wrap_small by lia. rewrite decide_False by lia.
    unfold memcpy, disjoint_regions. cbn [ptr_add].
    rewrite bool_decide_false by congruence. cbn [negb orb].
    destruct (store_with_cells s db (dofs + len d) dblk (t ++ [0]) Hd
                ltac:(lia) ltac:(lia)) as [Hst Hset].
    rewrite (bind_Ret _ _ _ _ _
               (memmove_ok _ _ _ s _ _ (load_string _ _ t Hsrc) Hst)).
    fold s'. unfold s' in *. rewrite Hset. reflexivity.
  - unfold string_at, s'.
    rewrite (view_before_with_cells s db dofs dblk d (t ++ [0]) Hd Hofs Hcd)
      by lia.
    step. rewrite <- app_assoc. simpl. rewrite app_assoc.
    apply c_str_app. rewrite elem_of_app. intros [Hin|Hin].
    + by apply (c_str_nonzero _ d Hcd).
    + by apply (c_str_nonzero _ t Hc).
  - unfold s'. rewrite string_at_other_block by assumption. exact Hsrc.
  - apply g_lastError_with_cells.
Qed.

Lemma SafeStrCat_appends_witness :
  mem greeting !! 0%nat = Some (mkBlock 4096 false (buffer 50 "Hello, World!"))
  /\ string_at (mem greeting) (Ptr 0 0) = Some (bytes "Hello, World!")
  /\ string_at (mem greeting) (Ptr 1 0) = Some (bytes " How are you?")
  /\ 1%nat <> 0%nat /\ 50 <= SIZE_MAX
  /\ 0 + 50 <= len (buffer 50 "Hello, World!")
  /\ len (bytes "Hello, World!") + len (bytes " How are you?") < 50
  /\ exists s',
      SafeStrCat (Ptr 0 0) 50 (Ptr 1 0) greeting = Ret true s'
      /\ string_at (mem s') (Ptr 0 0)
         = Some (bytes "Hello, World!" ++ bytes " How are you?").
Proof.
  split; [reflexivity|]. split; [reflexivity|]. split; [reflexivity|].
  split; [lia|]. split; [by vm_compute|]. split; [by vm_compute|].
  split; [by vm_compute|].
  destruct (SafeStrCat_appends greeting 0 1 0 0 50
              (mkBlock 4096 false (buffer 50 "Hello, World!"))
              (bytes "Hello, World!") (bytes " How are you?")
              eq_refl eq_refl eq_refl ltac:(lia) ltac:(by vm_compute)
              ltac:(by vm_compute) ltac:(by vm_compute)) as (H1 & H2 & _).
  eexists. split; [exact H1 | exact H2].
Defined.

Lemma load_length (m : gmap nat block) (p : ptr) (n : Z) (bs : list Z) :
  load m p n = Some bs -> len bs = n /\ 0 <= n /\ p <> NULL /\ is_Some (addr m p).
Proof.
  unfold load. intros H.
  assert (Hp : p <> NULL) by (intros ->; discriminate).
  destruct p as [|b ofs]; [congruence|]. unfold view, addr in *.
  destruct (m !! b) as [blk|]; simpl in *; [|discriminate].
  case_decide; simpl in H; [|discriminate].
  case_decide as Hn; [|discriminate]. injection H as <-.
  unfold len in *. rewrite length_take.
  repeat split; try lia; try discriminate. by eexists.
Qed.

Lemma load_with_cells (s : state) (b : nat) (ofs : Z) (blk : block) (bs : list Z) :
  mem s !! b = Some blk -> 0 <= ofs -> ofs + len bs <= len (cells blk) ->
  load (mem (with_cells s b ofs bs)) (Ptr b ofs) (len bs) = Some bs.
Proof.
  intros Hb Ho Hfit. unfold load.
  rewrite (view_with_cells s b ofs blk bs Hb Ho Hfit). step.
  rewrite decide_True by (rewrite len_app; pose proof (len_nonneg bs);
                          pose proof (len_nonneg (drop (Z.to_nat ofs + length bs)
                                                       (cells blk))); lia).
  f_equal. unfold len. rewrite Nat2Z.id. apply take_app_length.
Qed.

(** X3.  [SafeMemCopy] of a readable source region that fits the
    destination stores exactly the elements the source held before the
    call, also when the two regions overlap inside one object; the
    last-error cell and [errno] are left as they were. *)
Theorem SafeMemCopy_moves
  (s : state) (db : nat) (dofs destSize srcSize : Z) (dblk : block) (src : ptr)
  (bs : list Z)
  (Hd : mem s !! db = Some dblk) (Hofs : 0 <= dofs)
  (Hcap : dofs + destSize <= len (cells dblk))
  (Hsrc : load (mem s) src srcSize = Some bs)
  (Hfit : srcSize <= destSize) :
  exists s',
    SafeMemCopy (Ptr db dofs) destSize src srcSize s = Ret true s'
    /\ mem s' = mem (with_cells s db dofs bs)
    /\ load (mem s') (Ptr db dofs) srcSize = Some bs
    /\ g_lastError s' = g_lastError s /\ errno s' = errno s.
Proof.
  destruct (load_length _ _ _ _ Hsrc) as (Hlen & Hn & Hp & [a Ha]).
  destruct (store_with_cells s db dofs dblk bs Hd Hofs ltac:(lia)) as [Hst Hset].
  assert (Hload : load (mem (with_cells s db dofs bs)) (Ptr db dofs) srcSize = Some bs).
  { rewrite <- Hlen. apply (load_with_cells s db dofs dblk); [assumption..|lia]. }
  unfold SafeMemCopy, is_null. rewrite (bool_decide_false (Ptr db dofs = NULL))
    by discriminate.
  rewrite bool_decide_false by assumption. cbn [orb].
  rewrite decide_False by lia. step. rewrite Ha. step.
  unfold addr at 1. rewrite Hd. step.
  match goal with |- context [if ?c then _ else _] => destruct c end.
  - destruct (g_logger s) eqn:Hlog.
    + step.
      rewrite (bind_Ret _ _ _ _ _
                 (memmove_ok _ _ _ (add_log SAFEOPS_OK
                                      "Memory regions overlap, using memmove" s)
                    _ _ Hsrc Hst)).
      eexists. split; [reflexivity|]. cbn. repeat split; assumption.
    + unfold mbind at 1, M_bind at 1, bind at 1, ret at 1.
      rewrite (bind_Ret _ _ _ _ _ (memmove_ok _ _ _ s _ _ Hsrc Hst)).
      eexists. split; [reflexivity|]. cbn. repeat split; assumption.
  - unfold mbind at 1, M_bind at 1, bind at 1, ret at 1.
    rewrite (bind_Ret _ _ _ _ _ (memmove_ok _ _ _ s _ _ Hsrc Hst)).
    eexists. split; [reflexivity|]. cbn. repeat split; assumption.
Qed.

Lemma SafeMemCopy_moves_witness :
  mem one_object !! 0%nat = Some (mkBlock 4096 false [1; 2; 3; 4; 5; 0; 0; 0])
  /\ 0 <= 2 /\ 2 + 6 <= len [1; 2; 3; 4; 5; 0; 0; 0]
  /\ load (mem one_object) (Ptr 0 0) 5 = Some [1; 2; 3; 4; 5]
  /\ 5 <= 6
  /\ exists s',
      SafeMemCopy (Ptr 0 2) 6 (Ptr 0 0) 5 one_object = Ret true s'
      /\ load (mem s') (Ptr 0 2) 5 = Some [1; 2; 3; 4; 5].
Proof.
  split; [reflexivity|]. split; [lia|]. split; [by vm_compute|].
  split; [reflexivity|]. split; [lia|].
  destruct (SafeMemCopy_moves one_object 0 2 6 5
              (mkBlock 4096 false [1; 2; 3; 4; 5; 0; 0; 0]) (Ptr 0 0)
              [1; 2; 3; 4; 5] eq_refl ltac:(lia) ltac:(by vm_compute) eq_refl
              ltac:(lia)) as (s' & H1 & _ & H2 & _).
  exists s'. split; assumption.
Defined.

(** ** Allocation *)

(** X4.  [SafeMalloc] either returns a fresh object of exactly [size]
    zero elements, leaving every existing object and the last-error cell
    as they were, or returns NULL with the heap unchanged and the error
    that names the cause: InvalidParam for size 0, Overflow for a size
    above [SIZE_MAX - sizeof(size_t)], AllocationFailed otherwise. *)
Theorem SafeMalloc_zeroed_or_null
  (s s' : state) (size : Z) (p : ptr)
  (Hsize : 0 <= size)
  (Hrun : SafeMalloc size s = Ret p s') :
  (p <> NULL ->
   0 < size <= SIZE_MAX - sizeof_size_t
   /\ load (mem s') p size = Some (replicate (Z.to_nat size) 0)
   /\ view (mem s) p = None
   /\ (forall b blk, mem s !! b = Some blk -> mem s' !! b = Some blk)
   /\ avail s' = avail s - size
   /\ g_lastError s' = g_lastError s)
  /\ (p = NULL ->
      mem s' = mem s /\ avail s' = avail s
      /\ g_lastError s'
         = if decide (size = 0) then SAFEOPS_ERR_INVALID_PARAM
           else if decide (size > SIZE_MAX - sizeof_size_t)
                then SAFEOPS_ERR_OVERFLOW
                else SAFEOPS_ERR_ALLOCATION_FAILED).
Proof.
  destruct (decide (size = 0)) as [->|Hnz].
  { unfold SafeMalloc in Hrun. rewrite decide_True in Hrun by reflexivity.
    rewrite bind_SetError in Hrun. apply Ret_inj in Hrun as [<- <-].
    split; [congruence|]. intros _.
    rewrite mem_reported, g_lastError_reported. unfold reported.
    destruct (g_logger _); repeat split; reflexivity. }
  destruct (decide (size > SIZE_MAX - sizeof_size_t)) as [Hbig|Hok].
  { rewrite (SafeMalloc_overflow size s Hbig) in Hrun.
    apply Ret_inj in Hrun as [<- <-]. split; [congruence|]. intros _.
    rewrite mem_reported, g_lastError_reported. unfold reported.
    destruct (g_logger _); repeat split; reflexivity. }
  destruct (decide (size <= avail s)) as [Hav|Hex].
  - rewrite (SafeMalloc_granted size s ltac:(lia) Hav) in Hrun.
    unfold new_block in Hrun. apply Ret_inj in Hrun as [<- <-].
    split; [|discriminate]. intros _.
    assert (Hfresh : mem s !! fresh (dom (mem s)) = None)
      by apply not_elem_of_dom, is_fresh.
    cbn [mem set_heap avail g_lastError]. split; [lia|]. split.
    { unfold load. rewrite (view_start _ _ _ (lookup_insert_eq _ _ _)).
      step. cbn [cells]. rewrite len_replicate by lia.
      rewrite decide_True by lia. f_equal. apply take_ge.
      rewrite length_replicate. lia. }
    split; [unfold view; by rewrite Hfresh|].
    split; [|split; [rewrite len_replicate by lia; reflexivity | reflexivity]].
    intros b blk Hb. rewrite lookup_insert_ne; [assumption | congruence].
  - rewrite (SafeMalloc_exhausted size s ltac:(lia) ltac:(lia)) in Hrun.
    apply Ret_inj in Hrun as [<- <-]. split; [congruence|]. intros _.
    rewrite mem_reported, g_lastError_reported. unfold reported.
    destruct (g_logger _); repeat split; reflexivity.
Qed.

Lemma SafeMalloc_zeroed_or_null_witness :
  0 <= 100
  /\ exists p s',
      SafeMalloc 100 (init_state ∅) = Ret p s' /\ p <> NULL
      /\ load (mem s') p 100 = Some (replicate 100 0).
Proof.
  split; [lia|].
  destruct (SafeMalloc 100 (init_state ∅)) as [|p s'] eqn:Hm; [discriminate Hm|].
  assert (Hp : p <> NULL) by (intros ->; discriminate Hm).
  destruct (SafeMalloc_zeroed_or_null (init_state ∅) s' 100 p ltac:(lia) Hm)
    as [H _].
  destruct (H Hp) as (_ & Hl & _).
  exists p, s'. repeat split; assumption.
Defined.



(** X6.  [SafeFreeTyped] on a live allocation zeroes [size] elements,
    frees the object and clears the handle; on the now empty handle a
    second [SafeFreeTyped] fails with [errno = EINVAL] and changes nothing
    else, where [SafeFree] returns silently. *)
Theorem SafeFreeTyped_once
  (s : state) (h b : nat) (blk : block) (size : Z)
  (Hh : ptrvars s !! h = Some (Ptr b 0))
  (Hb : mem s !! b = Some blk) (Hheap : on_heap blk = true)
  (Hsize : 0 <= size <= len (cells blk)) :
  exists s',
    SafeFreeTyped (Some h) size s = Ret true s'
    /\ ptrvars s' !! h = Some NULL
    /\ mem s' = delete b (mem s)
    /\ avail s' = avail s + len (cells blk)
    /\ g_lastError s' = g_lastError s
    /\ SafeFreeTyped (Some h) size s' = Ret false (set_errno EINVAL s')
    /\ SafeFree (Some h) s' = Ret tt s'.
Proof.
  set (zeros := replicate (Z.to_nat size) 0).
  assert (Hz : len zeros = size) by (apply len_replicate; lia).
  pose proof (store_block (mem s) b 0 blk zeros Hb ltac:(lia) ltac:(lia)) as Hst.
  set (blk' := mkBlock (base blk) (on_heap blk)
                 (take (Z.to_nat 0) (cells blk) ++ zeros
                  ++ drop (Z.to_nat 0 + length zeros) (cells blk))) in Hst.
  assert (Hlen : len (cells blk') = len (cells blk)).
  { unfold blk', len in *. cbn [cells]. simpl.
    rewrite length_app, length_drop. lia. }
  unfold SafeFreeTyped at 1.
  rewrite (bind_Ret _ _ _ _ _ (deref_eq h _ s Hh)).
  rewrite decide_False by discriminate. step. fold zeros. rewrite Hst. step.
  rewrite (bind_Ret _ _ _ _ _
             (free_ok b blk' (set_mem (<[b:=blk']> (mem s)) s)
                (lookup_insert_eq _ _ _) Hheap)).
  unfold assign. step. eexists. split; [reflexivity|].
  cbn [ptrvars mem avail g_lastError set_ptrvars set_heap set_mem].
  split; [apply lookup_insert_eq|].
  split; [apply delete_insert_eq|]. split; [lia|]. split; [reflexivity|].
  split.
  - unfold SafeFreeTyped.
    erewrite bind_Ret; [|apply deref_eq; cbn; apply lookup_insert_eq].
    reflexivity.
  - apply SafeFree_empty. cbn. apply lookup_insert_eq.
Qed.

Lemma SafeFreeTyped_once_witness :
  ptrvars held !! 7%nat = Some (Ptr 5 0)
  /\ mem held !! 5%nat = Some (mkBlock 8192 true [1; 2; 3; 4])
  /\ 0 <= 4 <= len [1; 2; 3; 4]
  /\ exists s',
      SafeFreeTyped (Some 7%nat) 4 held = Ret true s'
      /\ SafeFreeTyped (Some 7%nat) 4 s' = Ret false (set_errno EINVAL s').
Proof.
  split; [reflexivity|]. split; [reflexivity|]. split; [by vm_compute|].
  destruct (SafeFreeTyped_once held 7 5 (mkBlock 8192 true [1; 2; 3; 4]) 4
              eq_refl eq_refl eq_refl ltac:(by vm_compute))
    as (s' & H1 & _ & _ & _ & _ & H2 & _).
  exists s'. split; assumption.
Defined.

(** ** Indexed access *)

Lemma nth_cell_drop (l : list Z) (ofs i : Z) :
  0 <= ofs -> 0 <= i ->
  nth_cell (drop (Z.to_nat ofs) l) i = l !! Z.to_nat (ofs + i).
Proof.
  intros Ho Hi. unfold nth_cell. rewrite decide_True by assumption.
  rewrite lookup_drop. f_equal. lia.
Qed.

Lemma SafeReadInt_eq (s : state) (b : nat) (ofs arraySize index : Z) (blk : block) :
  mem s !! b = Some blk -> 0 <= ofs <= len (cells blk) ->
  0 <= index < arraySize ->
  SafeReadInt (Ptr b ofs) arraySize index true s
  = match cells blk !! Z.to_nat (ofs + index) with
    | Some c => Ret (true, Some c) s
    | None => Fault
    end.
Proof.
  intros Hb Ho Hi. unfold SafeReadInt, is_null.
  rewrite bool_decide_false by discriminate. cbn [negb andb].
  rewrite bool_decide_true by lia. cbn [negb]. step.
  unfold view. rewrite Hb. step. rewrite decide_True by (unfold len in *; lia).
  step. rewrite nth_cell_drop by lia.
  destruct (cells blk !! Z.to_nat (ofs + index)); reflexivity.
Qed.

(** X7.  Indexed access: an in-range [SafeWriteInt] stores the value, the
    following [SafeReadInt] at that index returns it and reads at the other
    indices return what they returned before; with [index >= arraySize]
    both fail with [errno = EINVAL] and nothing is written. *)
Theorem SafeWriteInt_then_SafeReadInt
  (s : state) (b : nat) (ofs arraySize index value : Z) (blk : block)
  (Hb : mem s !! b = Some blk) (Hofs : 0 <= ofs)
  (Hcap : ofs + arraySize <= len (cells blk)) (Hidx : 0 <= index) :
  (index < arraySize ->
   let s1 := with_cells s b (ofs + index) [value] in
   SafeWriteInt (Ptr b ofs) arraySize index value s = Ret true s1
   /\ SafeReadInt (Ptr b ofs) arraySize index true s1 = Ret (true, Some value) s1
   /\ forall j, 0 <= j < arraySize -> j <> index ->
        value_of (SafeReadInt (Ptr b ofs) arraySize j true s1)
        = value_of (SafeReadInt (Ptr b ofs) arraySize j true s))
  /\ (arraySize <= index ->
      SafeWriteInt (Ptr b ofs) arraySize index value s
      = Ret false (set_errno EINVAL s)
      /\ SafeReadInt (Ptr b ofs) arraySize index true s
         = Ret (false, None) (set_errno EINVAL s)).
Proof.
  split.
  - intros Hlt s1.
    destruct (store_with_cells s b (ofs + index) blk [value] Hb ltac:(lia)
                ltac:(rewrite len_cons, len_nil; lia)) as [Hst Hset].
    fold s1 in Hst, Hset.
    set (cells1 := take (Z.to_nat (ofs + index)) (cells blk) ++ [value]
                   ++ drop (Z.to_nat (ofs + index) + length [value]) (cells blk)).
    assert (Hm1 : mem s1 !! b = Some (mkBlock (base blk) (on_heap blk) cells1)).
    { unfold s1. rewrite (mem_with_cells _ _ _ _ _ Hb). apply lookup_insert_eq. }
    assert (Hins : cells1 = <[Z.to_nat (ofs + index) := value]> (cells blk)).
    { unfold cells1. rewrite insert_take_drop by (unfold len in *; lia).
      simpl. do 3 f_equal. lia. }
    assert (Hl1 : len cells1 = len (cells blk))
      by (rewrite Hins; unfold len; by rewrite length_insert).
    split; [|split].
    + unfold SafeWriteInt, is_null. rewrite bool_decide_false by discriminate.
      rewrite bool_decide_true by lia. cbn [negb].
      rewrite (bind_Ret _ _ _ _ _
                 (store_cell_eq (Ptr b ofs) index value s (mem s1) Hst)).
      rewrite Hset. reflexivity.
    + rewrite (SafeReadInt_eq s1 b ofs arraySize index _ Hm1)
        by (cbn [cells]; lia).
      cbn [cells]. rewrite Hins.
      rewrite list_lookup_insert_eq by (unfold len in *; lia). reflexivity.
    + intros j Hj Hne.
      rewrite (SafeReadInt_eq s1 b ofs arraySize j _ Hm1) by (cbn [cells]; lia).
      rewrite (SafeReadInt_eq s b ofs arraySize j _ Hb) by lia.
      cbn [cells]. rewrite Hins. rewrite list_lookup_insert_ne by lia.
      destruct (cells blk !! Z.to_nat (ofs + j)); reflexivity.
  - intros Hge. unfold SafeWriteInt, SafeReadInt, is_null.
    rewrite bool_decide_false by discriminate.
    rewrite bool_decide_false by lia. split; reflexivity.
Qed.

Lemma SafeWriteInt_then_SafeReadInt_witness :
  mem numbers !! 0%nat = Some (mkBlock 4096 false [10; 20; 30; 40])
  /\ 0 <= 0 /\ 0 + 4 <= len [10; 20; 30; 40] /\ 0 <= 2 /\ 2 < 4
  /\ exists s1,
      SafeWriteInt (Ptr 0 0) 4 2 42 numbers = Ret true s1
      /\ SafeReadInt (Ptr 0 0) 4 2 true s1 = Ret (true, Some 42) s1.
Proof.
  split; [reflexivity|]. split; [lia|]. split; [by vm_compute|].
  split; [lia|]. split; [lia|].
  destruct (SafeWriteInt_then_SafeReadInt numbers 0 0 4 2 42
              (mkBlock 4096 false [10; 20; 30; 40]) eq_refl ltac:(lia)
              ltac:(by vm_compute) ltac:(lia)) as [H _].
  destruct (H ltac:(lia)) as (H1 & H2 & _).
  eexists. split; [exact H1 | exact H2].
Defined.

(** ** Checked arithmetic *)

Lemma wrap_int_exact (z : Z) : INT_MIN <= z <= INT_MAX -> wrap_int z = z.
Proof.
  unfold wrap_int, INT_MIN, INT_MAX. intros H.
  rewrite Z.mod_small by lia. lia.
Qed.

(** X8.  On [int] operands [SafeAddInt] succeeds exactly when the sum is
    an [int], and then returns the exact sum; otherwise it fails with
    [errno = EOVERFLOW].  Both compiled variants take the same decision,
    which is also the decision of [SafeCastLongLongToInt] on the 64-bit
    sum. *)
Theorem SafeAddInt_exact
  (gnuc : bool) (a b : Z) (s : state)
  (Ha : INT_MIN <= a <= INT_MAX) (Hb : INT_MIN <= b <= INT_MAX) :
  (INT_MIN <= a + b <= INT_MAX ->
   SafeAddInt gnuc a b true s = Ret (true, Some (a + b)) s
   /\ SafeCastLongLongToInt (a + b) true s = Ret (true, Some (a + b)) s)
  /\ (~ (INT_MIN <= a + b <= INT_MAX) ->
      (exists r, SafeAddInt gnuc a b true s = Ret (false, r) (set_errno EOVERFLOW s))
      /\ SafeCastLongLongToInt (a + b) true s
         = Ret (false, None) (set_errno EOVERFLOW s)).
Proof.
  unfold SafeAddInt, SafeCastLongLongToInt. cbn [negb]. split.
  - intros Hs. rewrite !(bool_decide_false (a + b > INT_MAX)) by lia.
    rewrite !(bool_decide_false (a + b < INT_MIN)) by lia. cbn [orb].
    split; [|reflexivity]. destruct gnuc.
    + by rewrite wrap_int_exact.
    + destruct (bool_decide (b > 0)) eqn:Hb0; destruct (bool_decide (b < 0)) eqn:Hb1;
        cbn [andb orb];
        try (apply bool_decide_eq_true in Hb0); try (apply bool_decide_eq_true in Hb1);
        try (rewrite (bool_decide_false (a > INT_MAX - b)) by lia);
        try (rewrite (bool_decide_false (a < INT_MIN - b)) by lia);
        reflexivity.
  - intros Hs.
    assert (Hcase : a + b > INT_MAX \/ a + b < INT_MIN) by lia.
    split.
    + destruct gnuc.
      * destruct Hcase as [H|H].
        -- rewrite (bool_decide_true (a + b > INT_MAX)) by assumption.
           eexists. reflexivity.
        -- rewrite (bool_decide_true (a + b < INT_MIN)) by assumption.
           rewrite orb_true_r. eexists. reflexivity.
      * destruct Hcase as [H|H].
        -- rewrite (bool_decide_true (b > 0)) by (unfold INT_MAX in *; lia).
           rewrite (bool_decide_true (a > INT_MAX - b)) by lia.
           eexists. reflexivity.
        -- rewrite (bool_decide_true (b < 0)) by (unfold INT_MIN in *; lia).
           rewrite (bool_decide_true (a < INT_MIN - b)) by lia.
           rewrite orb_true_r. eexists. reflexivity.
    + destruct Hcase as [H|H].
      * rewrite (bool_decide_true (a + b > INT_MAX)) by assumption. reflexivity.
      * rewrite (bool_decide_true (a + b < INT_MIN)) by assumption.
        rewrite orb_true_r. reflexivity.
Qed.

Lemma SafeAddInt_exact_witness :
  INT_MIN <= 5 <= INT_MAX /\ INT_MIN <= 3 <= INT_MAX /\ INT_MIN <= 5 + 3 <= INT_MAX
  /\ SafeAddInt false 5 3 true (init_state ∅) = Ret (true, Some (5 + 3)) (init_state ∅).
Proof.
  assert (H5 : INT_MIN <= 5 <= INT_MAX) by (by vm_compute).
  assert (H3 : INT_MIN <= 3 <= INT_MAX) by (by vm_compute).
  assert (H8 : INT_MIN <= 5 + 3 <= INT_MAX) by (by vm_compute).
  split; [exact H5|]. split; [exact H3|]. split; [exact H8|].
  destruct (SafeAddInt_exact false 5 3 (init_state ∅) H5 H3) as [H _].
  apply (H H8).
Defined.

(** ** Pointer offsets *)

(** X9.  [SafePointerOffset] on a pointer into a live object returns the
    pointer advanced by [offset] exactly when [offset <= baseSize] and the
    address does not wrap; otherwise it returns NULL with
    [errno = EOVERFLOW].  Offsets compose: advancing by [offset] and then
    by [k] against the remaining capacity is advancing by [offset + k]. *)
Theorem SafePointerOffset_bounds
  (s : state) (b : nat) (ofs baseSize offset : Z) (blk : block)
  (Hb : mem s !! b = Some blk)
  (Haddr : 0 <= base blk + ofs <= SIZE_MAX)
  (Hoff : 0 <= offset <= SIZE_MAX) (Hsize : baseSize <= SIZE_MAX) :
  (offset <= baseSize -> base blk + ofs + offset <= SIZE_MAX ->
   SafePointerOffset (Ptr b ofs) baseSize offset s = Ret (Ptr b (ofs + offset)) s
   /\ addr (mem s) (Ptr b (ofs + offset)) = Some (base blk + ofs + offset)
   /\ forall k, 0 <= k -> offset + k <= SIZE_MAX ->
        SafePointerOffset (Ptr b (ofs + offset)) (baseSize - offset) k s
        = SafePointerOffset (Ptr b ofs) baseSize (offset + k) s)
  /\ (offset > baseSize \/ base blk + ofs + offset > SIZE_MAX ->
      SafePointerOffset (Ptr b ofs) baseSize offset s
      = Ret NULL (set_errno EOVERFLOW s)).
Proof.
  assert (Hrun : forall o n d, 0 <= d <= SIZE_MAX ->
            0 <= base blk + o <= SIZE_MAX ->
            SafePointerOffset (Ptr b o) n d s
            = if decide (d <= n /\ base blk + o + d <= SIZE_MAX)
              then Ret (Ptr b (o + d)) s
              else Ret NULL (set_errno EOVERFLOW s)).
  { intros o n d Hd Ho. unfold SafePointerOffset, is_null.
    rewrite bool_decide_false by discriminate. step.
    unfold addr. rewrite Hb. step.
    destruct (decide (d <= n /\ base blk + o + d <= SIZE_MAX)) as [[H1 H2]|Hn].
    - rewrite bool_decide_false by lia. rewrite wrap_small by lia.
      rewrite bool_decide_false by lia. reflexivity.
    - destruct (decide (d > n)).
      + rewrite bool_decide_true by assumption. reflexivity.
      + rewrite bool_decide_false by assumption. cbn [orb].
        assert (Hw : wrap (base blk + o + d) = base blk + o + d - 2 ^ 64).
        { unfold wrap, SIZE_MAX in *.
          rewrite <- (Z.mod_add _ (-1) (2 ^ 64)) by lia.
          apply Z.mod_small. lia. }
        rewrite Hw. rewrite bool_decide_true by (unfold SIZE_MAX in *; lia).
        reflexivity. }
  split.
  - intros Hle Hfit. split; [|split].
    + rewrite Hrun by lia. rewrite decide_True by lia. reflexivity.
    + unfold addr. rewrite Hb. step. f_equal. lia.
    + intros k Hk Hk'. rewrite !Hrun by lia.
      destruct (decide (k <= baseSize - offset
                        /\ base blk + (ofs + offset) + k <= SIZE_MAX)) as [H|H].
      * rewrite decide_True by lia. do 2 f_equal. lia.
      * rewrite decide_False by lia. reflexivity.
  - intros Hbad. rewrite Hrun by lia. rewrite decide_False by lia. reflexivity.
Qed.

Lemma SafePointerOffset_bounds_witness :
  mem numbers !! 0%nat = Some (mkBlock 4096 false [10; 20; 30; 40])
  /\ 0 <= 4096 + 0 <= SIZE_MAX /\ 0 <= 3 <= SIZE_MAX /\ 4 <= SIZE_MAX
  /\ 3 <= 4 /\ 4096 + 0 + 3 <= SIZE_MAX
  /\ SafePointerOffset (Ptr 0 0) 4 3 numbers = Ret (Ptr 0 (0 + 3)) numbers.
Proof.
  split; [reflexivity|]. split; [by vm_compute|]. split; [by vm_compute|].
  split; [by vm_compute|]. split; [lia|]. split; [by vm_compute|].
  destruct (SafePointerOffset_bounds numbers 0 0 4 3
              (mkBlock 4096 false [10; 20; 30; 40]) eq_refl
              ltac:(by vm_compute) ltac:(by vm_compute) ltac:(by vm_compute))
    as [H _].
  destruct (H ltac:(lia) ltac:(by vm_compute)) as [H1 _]. exact H1.
Defined.

(** ** Search *)

(** X10.  [SafeStrFind] rejects an empty needle and a needle longer than
    [haystackLen] with InvalidParam.  Called with the length of the
    haystack, it succeeds with a position in [0, haystackLen]: the position
    is [haystackLen] exactly when the needle occurs nowhere, and otherwise
    the needle occurs at that offset and at no smaller one. *)
Theorem SafeStrFind_first_occurrence
  (s : state) (haystack needle : ptr) (haystackLen : Z) (h n : list Z)
  (Hh : string_at (mem s) haystack = Some h)
  (Hn : string_at (mem s) needle = Some n) :
  (n = [] \/ len n > haystackLen ->
   SafeStrFind haystack haystackLen needle true s
   = Ret (false, None)
         (reported SAFEOPS_ERR_INVALID_PARAM "Invalid needle length" s))
  /\ (n <> [] -> len n <= len h -> haystackLen = len h ->
      exists pos : nat,
        SafeStrFind haystack haystackLen needle true s
        = Ret (true, Some (Z.of_nat pos)) s
        /\ (pos <= length h)%nat
        /\ (pos = length h <-> forall j, ~ n `prefix_of` drop j h)
        /\ (pos <> length h ->
            n `prefix_of` drop pos h
            /\ forall j, (j < pos)%nat -> ~ n `prefix_of` drop j h)).
Proof.
  split.
  - intros Hbad.
    destruct (string_at_view _ _ _ Hh) as (Hph & _).
    destruct (string_at_view _ _ _ Hn) as (Hpn & _).
    unfold SafeStrFind, is_null. rewrite !bool_decide_false by assumption.
    cbn [orb negb]. rewrite (bind_Ret _ _ _ _ _ (strlen_eq _ n s Hn)).
    destruct Hbad as [->|Hlong].
    + rewrite len_nil. rewrite bool_decide_true by reflexivity. reflexivity.
    + rewrite (bool_decide_true (len n > haystackLen)) by assumption.
      rewrite orb_true_r. reflexivity.
  - intros Hne Hle ->.
    destruct (SafeStrFind_whole_string s haystack needle h n Hh Hn Hne Hle)
      as (pos & Hrun & Hnone & Hsome).
    assert (Hspec : forall j, is_prefix n (drop j h) = false <-> ~ n `prefix_of` drop j h).
    { intros j. rewrite <- is_prefix_spec. destruct (is_prefix n (drop j h)); split;
        congruence. }
    assert (Hpos : 0 <= pos <= len h).
    { destruct (decide (pos = len h)) as [->|Hd]; [pose proof (len_nonneg h); lia|].
      destruct (Hsome Hd) as [Hocc _].
      revert Hrun. unfold SafeStrFind, is_null.
      destruct (string_at_view _ _ _ Hh) as (Hph & _).
      destruct (string_at_view _ _ _ Hn) as (Hpn & _).
      rewrite !bool_decide_false by assumption. cbn [orb negb].
      rewrite (bind_Ret _ _ _ _ _ (strlen_eq _ n s Hn)).
      pose proof (len_nonzero n Hne).
      rewrite !bool_decide_false by lia. cbn [orb]. step. rewrite Hh, Hn. step.
      destruct (strstr h n) as [i|] eqn:Hs.
      - intros [= <-]. apply strstr_bound_nonempty in Hs; [|assumption].
        unfold len. lia.
      - intros [= <-]. congruence. }
    exists (Z.to_nat pos). rewrite Z2Nat.id by lia.
    split; [exact Hrun|]. split; [unfold len in Hpos; lia|]. split.
    + split.
      * intros Hp j. apply Hspec. apply Hnone. unfold len. lia.
      * intros Hall. assert (pos = len h) as ->.
        { apply Hnone. intros j. by apply Hspec. }
        unfold len. lia.
    + intros Hd. destruct Hsome as [Hocc Hfirst]; [unfold len; lia|].
      split; [by apply is_prefix_spec|]. intros j Hj. apply Hspec. by apply Hfirst.
Qed.

Lemma SafeStrFind_first_occurrence_witness :
  string_at (mem abcdef) (Ptr 0 0) = Some (bytes "abcdef")
  /\ string_at (mem abcdef) (Ptr 1 0) = Some (bytes "ef")
  /\ bytes "ef" <> [] /\ len (bytes "ef") <= len (bytes "abcdef")
  /\ exists pos : nat,
      SafeStrFind (Ptr 0 0) (len (bytes "abcdef")) (Ptr 1 0) true abcdef
      = Ret (true, Some (Z.of_nat pos)) abcdef
      /\ (pos <= length (bytes "abcdef"))%nat.
Proof.
  split; [reflexivity|]. split; [reflexivity|]. split; [discriminate|].
  split; [by vm_compute|].
  destruct (SafeStrFind_first_occurrence abcdef (Ptr 0 0) (Ptr 1 0)
              (len (bytes "abcdef")) (bytes "abcdef") (bytes "ef")
              eq_refl eq_refl) as [_ H].
  destruct (H ltac:(discriminate) ltac:(by vm_compute) eq_refl)
    as (pos & H1 & H2 & _).
  exists pos. split; assumption.
Defined.

(** ** Wide strings *)

Lemma SafeWStrLen_string (str : ptr) (maxLen : Z) (t : list Z) (s : state) :
  string_at (mem s) str = Some t -> 0 <= maxLen ->
  SafeWStrLen str maxLen true s
  = if decide (len t <= maxLen) then Ret (true, Some (len t)) s
    else Ret (false, None)
             (reported SAFEOPS_ERR_OUT_OF_BOUNDS "String exceeds maximum length" s).
Proof.
  intros H Hm. destruct (string_at_view _ _ _ H) as (Hp & _).
  rewrite SafeWStrLen_eq, <- SafeStrLen_eq by assumption.
  by apply SafeStrLen_string.
Qed.

Lemma write_at_cell (l : list Z) (i x : Z) :
  0 <= i < len l -> write_at l i [x] = Some (<[Z.to_nat i := x]> l).
Proof.
  intros Hi. rewrite write_at_Some; [|lia|rewrite len_cons, len_nil; lia].
  rewrite insert_take_drop by (unfold len in *; lia).
  simpl. do 4 f_equal. lia.
Qed.

(** Storing a value over an equal value changes nothing. *)
Lemma store_same_cell (m : gmap nat block) (b : nat) (ofs x : Z) (blk : block) :
  m !! b = Some blk -> 0 <= ofs -> cells blk !! Z.to_nat ofs = Some x ->
  store m (Ptr b ofs) [x] = Some m.
Proof.
  intros Hb Ho Hx. unfold store. rewrite Hb. step.
  rewrite write_at_cell
    by (apply lookup_lt_Some in Hx; unfold len; lia).
  step. rewrite list_insert_id by assumption. f_equal.
  apply insert_id. rewrite Hb. by destruct blk.
Qed.

(** X11.  [SafeWStrNCopy] never truncates: a source longer than [count]
    is rejected with OutOfBounds, as is a source that does not fit the
    destination, and in both cases nothing is written.  Otherwise the
    destination receives the whole source and its terminator. *)
Theorem SafeWStrNCopy_whole_or_nothing
  (s : state) (db sb : nat) (dofs sofs destSize count : Z) (dblk : block)
  (t : list Z)
  (Hd : mem s !! db = Some dblk)
  (Hofs : 0 <= dofs) (Hcap : dofs + destSize <= len (cells dblk))
  (Hsrc : string_at (mem s) (Ptr sb sofs) = Some t)
  (Hne : sb <> db) (Hsize : 0 < destSize) (Hcount : 0 <= count) :
  let run := SafeWStrNCopy (Ptr db dofs) destSize (Ptr sb sofs) count s in
  (len t > count ->
   run = Ret false (reported SAFEOPS_ERR_OUT_OF_BOUNDS
                             "String exceeds maximum length" s))
  /\ (len t <= count -> len t >= destSize ->
      run = Ret false (reported SAFEOPS_ERR_OUT_OF_BOUNDS
                                "Insufficient destination buffer size" s))
  /\ (len t <= count -> len t < destSize ->
      run = Ret true (with_cells s db dofs (t ++ [0]))
      /\ string_at (mem (with_cells s db dofs (t ++ [0]))) (Ptr db dofs) = Some t).
Proof.
  intros run. pose proof (len_nonneg t) as Ht0.
  destruct (string_at_view _ _ _ Hsrc) as (_ & v & Hv & Hc).
  assert (Hhead : run
    = match SafeWStrLen (Ptr sb sofs) count true s with
      | Fault => Fault
      | Ret r s1 =>
          match r with
          | (true, Some srcLen) =>
              let copyLen := if decide (srcLen < count) then srcLen else count in
              if decide (copyLen >= destSize) then
                SetError SAFEOPS_ERR_OUT_OF_BOUNDS
                         "Insufficient destination buffer size";;
                ret false
              else
                strncpy (Ptr db dofs) (Ptr sb sofs) copyLen;;
                store_cell (Ptr db dofs) copyLen 0;;
                ret true
          | _ => ret false
          end s1
      end).
  { unfold run, SafeWStrNCopy, is_null.
    rewrite !bool_decide_false by discriminate. cbn [orb].
    rewrite decide_False by lia. reflexivity. }
  rewrite Hhead. clear Hhead.
  rewrite (SafeWStrLen_string _ count t s Hsrc Hcount).
  assert (Hmin : len t <= count ->
                 (if decide (len t < count) then len t else count) = len t)
    by (intros; case_decide; lia).
  split; [|split].
  - intros Hlong. rewrite decide_False by lia. reflexivity.
  - intros Hle Hge. rewrite (decide_True (P := len t <= count)) by lia.
    cbv beta iota zeta. rewrite (Hmin Hle).
    rewrite decide_True by lia. reflexivity.
  - intros Hle Hfit. rewrite (decide_True (P := len t <= count)) by lia.
    cbv beta iota zeta. rewrite (Hmin Hle).
    rewrite decide_False by lia.
    assert (Hlen : len (t ++ [0]) = len t + 1)
      by (rewrite len_app, len_cons, len_nil; lia).
    destruct (store_app (mem s) db dofs dblk t [0] Hd Hofs ltac:(lia))
      as (m1 & Hs1 & Hs2).
    destruct (store_with_cells s db dofs dblk (t ++ [0]) Hd Hofs ltac:(lia))
      as [Hst Hset].
    destruct (c_str_upto_string v t (Z.to_nat (len t)) Hc) as [u Hu].
    split.
    + erewrite bind_Ret;
        [|eapply (strncpy_ok _ _ _ s v t u m1 Hv);
          [rewrite (strncpy_data_string v t _ Hc) by (unfold len; lia);
           unfold len; rewrite Nat2Z.id, Nat.sub_diag; simpl;
           by rewrite app_nil_r
          | exact Hu
          | unfold disjoint_regions; rewrite bool_decide_false by congruence;
            reflexivity
          | exact Hs1 ]].
      erewrite bind_Ret;
        [|apply store_cell_eq; cbn [mem set_mem ptr_add]; rewrite Hs2; exact Hst].
      unfold ret. f_equal. cbn. rewrite <- Hset at 2. reflexivity.
    + apply (string_at_with_cells s db dofs dblk t []); try assumption; [lia|].
      by apply (c_str_nonzero v t).
Qed.

Lemma SafeWStrNCopy_whole_or_nothing_witness :
  mem greeting !! 0%nat = Some (mkBlock 4096 false (buffer 50 "Hello, World!"))
  /\ 0 <= 0 /\ 0 + 50 <= len (buffer 50 "Hello, World!")
  /\ string_at (mem greeting) (Ptr 3 0) = Some (bytes "Everyone")
  /\ 3%nat <> 0%nat /\ 0 < 50 /\ 0 <= 4 /\ len (bytes "Everyone") > 4
  /\ SafeWStrNCopy (Ptr 0 0) 50 (Ptr 3 0) 4 greeting
     = Ret false (reported SAFEOPS_ERR_OUT_OF_BOUNDS
                           "String exceeds maximum length" greeting).
Proof.
  split; [reflexivity|]. split; [lia|]. split; [by vm_compute|].
  split; [reflexivity|]. split; [lia|]. split; [lia|]. split; [lia|].
  split; [by vm_compute|].
  destruct (SafeWStrNCopy_whole_or_nothing greeting 0 3 0 0 50 4
              (mkBlock 4096 false (buffer 50 "Hello, World!")) (bytes "Everyone")
              eq_refl ltac:(lia) ltac:(by vm_compute) eq_refl ltac:(lia)
              ltac:(lia) ltac:(lia)) as [H _].
  apply H. by vm_compute.
Defined.

Lemma wcsncat_ok (dest src : ptr) (n : Z) (s : state) (d v bs : list Z)
      (m' : gmap nat block) :
  string_at (mem s) dest = Some d ->
  view (mem s) src = Some v ->
  strncat_data v (Z.to_nat n) = Some bs ->
  disjoint_regions (ptr_add dest (len d)) (len bs) src (len bs) = true ->
  store (mem s) (ptr_add dest (len d)) bs = Some m' ->
  wcsncat dest src n s = Ret tt (set_mem m' s).
Proof.
  intros Hd Hv Hb Hdis Hs. unfold wcsncat. step. rewrite Hd. step.
  rewrite Hv. step. rewrite Hb. step. rewrite Hdis. rewrite Hs. reflexivity.
Qed.

Lemma set_mem_idem (s : state) : set_mem (mem s) s = s.
Proof. by destruct s. Qed.

(** X12.  [SafeWStrNCat] never truncates either: [count] only bounds
    the scan of the source, so a source longer than [count] is rejected
    and not cut; the sum of the lengths must stay below [destSize]; on
    success the destination holds the two texts joined, and the
    terminator stored afterwards changes nothing. *)
Theorem SafeWStrNCat_whole_or_nothing
  (s : state) (db sb : nat) (dofs sofs destSize count : Z) (dblk : block)
  (d t : list Z)
  (Hd : mem s !! db = Some dblk)
  (Hdst : string_at (mem s) (Ptr db dofs) = Some d)
  (Hsrc : string_at (mem s) (Ptr sb sofs) = Some t)
  (Hne : sb <> db)
  (Hdlen : len d <= destSize)
  (Hcap : dofs + destSize <= len (cells dblk))
  (Hcount : 0 <= count)
  (Hmax : len d + len t <= SIZE_MAX) :
  let run := SafeWStrNCat (Ptr db dofs) destSize (Ptr sb sofs) count s in
  let s' := with_cells s db (dofs + len d) (t ++ [0]) in
  (len t > count ->
   run = Ret false (reported SAFEOPS_ERR_OUT_OF_BOUNDS
                             "String exceeds maximum length" s))
  /\ (len t <= count -> len d + len t >= destSize ->
      run = Ret false (reported SAFEOPS_ERR_OUT_OF_BOUNDS
                                "Concatenation would overflow buffer" s))
  /\ (len t <= count -> len d + len t < destSize ->
      run = Ret true s'
      /\ string_at (mem s') (Ptr db dofs) = Some (d ++ t)).
Proof.
  intros run s'. pose proof (len_nonneg d). pose proof (len_nonneg t).
  destruct (string_at_bounds _ _ _ _ Hdst) as (blk0 & Hb0 & Hofs & Hdfit & Hcd).
  assert (blk0 = dblk) as -> by congruence.
  destruct (string_at_view _ _ _ Hsrc) as (_ & v & Hv & Hc).
  assert (Hhead : run
    = match SafeWStrLen (Ptr sb sofs) count true s with
      | Fault => Fault
      | Ret r s1 =>
          match r with
          | (true, Some srcLen) =>
              let copyLen := if decide (srcLen < count) then srcLen else count in
              if decide (wrap (len d + copyLen) >= destSize) then
                SetError SAFEOPS_ERR_OUT_OF_BOUNDS
                         "Concatenation would overflow buffer";;
                ret false
              else
                wcsncat (Ptr db dofs) (Ptr sb sofs) copyLen;;
                store_cell (Ptr db dofs) (wrap (len d + copyLen)) 0;;
                ret true
          | _ => ret false
          end s1
      end).
  { unfold run, SafeWStrNCat, is_null.
    rewrite !bool_decide_false by discriminate. cbn [orb].
    erewrite bind_Ret;
      [|rewrite (SafeWStrLen_string _ destSize d s Hdst) by lia;
        rewrite decide_True by lia; reflexivity].
    reflexivity. }
  rewrite Hhead. clear Hhead.
  rewrite (SafeWStrLen_string _ count t s Hsrc Hcount).
  assert (Hmin : len t <= count ->
                 (if decide (len t < count) then len t else count) = len t)
    by (intros; case_decide; lia).
  split; [|split].
  - intros Hlong. rewrite decide_False by lia. reflexivity.
  - intros Hle Hge. rewrite (decide_True (P := len t <= count)) by lia.
    cbv beta iota zeta. rewrite (Hmin Hle). rewrite wrap_small by lia.
    rewrite decide_True by lia. reflexivity.
  - intros Hle Hfit. rewrite (decide_True (P := len t <= count)) by lia.
    cbv beta iota zeta. rewrite (Hmin Hle). rewrite wrap_small by lia.
    rewrite decide_False by lia.
    assert (Hlt : len (t ++ [0]) = len t + 1)
      by (rewrite len_app, len_cons, len_nil; lia).
    destruct (store_with_cells s db (dofs + len d) dblk (t ++ [0]) Hd
                ltac:(lia) ltac:(lia)) as [Hst Hset].
    assert (Hjoined : string_at (mem s') (Ptr db dofs) = Some (d ++ t)).
    { unfold string_at, s'.
      rewrite (view_before_with_cells s db dofs dblk d (t ++ [0]) Hd Hofs Hcd)
        by lia.
      step. rewrite <- app_assoc. simpl. rewrite app_assoc.
      apply c_str_app. rewrite elem_of_app. intros [Hin|Hin].
      - by apply (c_str_nonzero _ d Hcd).
      - by apply (c_str_nonzero _ t Hc). }
    split; [|exact Hjoined].
    erewrite bind_Ret;
      [|eapply (wcsncat_ok _ _ _ s d v (t ++ [0]) _ Hdst Hv);
        [apply strncat_data_string; [exact Hc | unfold len; lia]
        | unfold disjoint_regions; cbn [ptr_add];
          rewrite bool_decide_false by congruence; reflexivity
        | cbn [ptr_add]; exact Hst ]].
    rewrite Hset. fold s'.
    destruct (string_at_bounds _ _ _ _ Hjoined)
      as (blk1 & Hb1 & _ & Hfit1 & Hc1).
    erewrite bind_Ret;
      [|apply store_cell_eq; cbn [ptr_add];
        apply (store_same_cell _ _ _ 0 blk1 Hb1); [lia|]].
    + by rewrite set_mem_idem.
    + pose proof (c_str_split _ _ Hc1) as Hsplit.
      assert (Hz : drop (Z.to_nat dofs) (cells blk1) !! length (d ++ t) = Some 0).
      { rewrite Hsplit. rewrite lookup_app_r by lia.
        by rewrite Nat.sub_diag. }
      rewrite lookup_drop in Hz. rewrite <- Hz. f_equal.
      rewrite length_app. unfold len. lia.
Qed.

Lemma SafeWStrNCat_whole_or_nothing_witness :
  mem greeting !! 0%nat = Some (mkBlock 4096 false (buffer 50 "Hello, World!"))
  /\ string_at (mem greeting) (Ptr 0 0) = Some (bytes "Hello, World!")
  /\ string_at (mem greeting) (Ptr 1 0) = Some (bytes " How are you?")
  /\ 1%nat <> 0%nat
  /\ len (bytes "Hello, World!") <= 50
  /\ 0 + 50 <= len (buffer 50 "Hello, World!")
  /\ 0 <= 13
  /\ len (bytes "Hello, World!") + len (bytes " How are you?") <= SIZE_MAX
  /\ len (bytes " How are you?") <= 13
  /\ len (bytes "Hello, World!") + len (bytes " How are you?") < 50
  /\ exists s',
      SafeWStrNCat (Ptr 0 0) 50 (Ptr 1 0) 13 greeting = Ret true s'
      /\ string_at (mem s') (Ptr 0 0)
         = Some (bytes "Hello, World!" ++ bytes " How are you?").
Proof.
  split; [reflexivity|]. split; [reflexivity|]. split; [reflexivity|].
  split; [lia|]. split; [by vm_compute|]. split; [by vm_compute|].
  split; [lia|]. split; [by vm_compute|]. split; [by vm_compute|].
  split; [by vm_compute|].
  destruct (SafeWStrNCat_whole_or_nothing greeting 0 1 0 0 50 13
              (mkBlock 4096 false (buffer 50 "Hello, World!"))
              (bytes "Hello, World!") (bytes " How are you?")
              eq_refl eq_refl eq_refl ltac:(lia) ltac:(by vm_compute)
              ltac:(by vm_compute) ltac:(lia) ltac:(by vm_compute))
    as (_ & _ & H).
  destruct (H ltac:(by vm_compute) ltac:(by vm_compute)) as [H1 H2].
  eexists. split; [exact H1 | exact H2].
Defined.

(** ** Replacement *)

(** Replacing a text by itself gives the text back. *)
Lemma replaced_same (old : list Z) (n : nat) (h : list Z) :
  old <> [] -> (length h <= n)%nat -> replaced O old old h = h.
Proof.
  intros Ho. revert h. induction n as [|n IH]; intros h Hn.
  - destruct h; [reflexivity | simpl in Hn; lia].
  - destruct (strstr h old) as [i|] eqn:Hs.
    + rewrite (replaced_match old old h i Ho Hs).
      destruct (strstr_Some _ _ _ Hs) as [Hp _].
      apply is_prefix_spec in Hp. destruct Hp as [rest Hrest].
      pose proof (len_nonzero old Ho) as Hpos. unfold len in Hpos.
      assert (Hlen : (i + length old <= length h)%nat).
      { apply (f_equal length) in Hrest.
        rewrite length_drop, length_app in Hrest. lia. }
      rewrite IH by (rewrite length_drop; lia).
      transitivity (take i h ++ drop i h); [|apply take_drop].
      f_equal. rewrite <- drop_drop, Hrest. by rewrite drop_app_length.
    + by apply replaced_no_match.
Qed.

(** X13.  The rewriting path of [SafeStrReplace].  When [oldStr] occurs
    and the result fits, the call needs [strSize] bytes of scratch
    memory.  If they are granted, the buffer afterwards holds the text
    with every non-overlapping occurrence replaced, the reported length
    is that of the new text, the scratch block has been released again,
    no other object has changed and the last error is untouched.  If they
    are not granted the call fails with AllocationFailed. *)
Theorem SafeStrReplace_rewrites
  (s : state) (sb : nat) (ofs strSize : Z) (blk : block) (oldStr newStr : ptr)
  (text old new : list Z)
  (Hblk : mem s !! sb = Some blk)
  (Htext : string_at (mem s) (Ptr sb ofs) = Some text)
  (Hold : string_at (mem s) oldStr = Some old)
  (Hnew : string_at (mem s) newStr = Some new)
  (Ho : old <> [])
  (Hc : count_nonoverlapping O old text <> O)
  (Hsz : len (replaced O old new text) < strSize <= SIZE_MAX - sizeof_size_t)
  (Hcap : ofs + strSize <= len (cells blk)) :
  let r := replaced O old new text in
  let run := SafeStrReplace (Ptr sb ofs) strSize oldStr newStr true s in
  (strSize <= avail s ->
   exists s',
     run = Ret (true, Some (len r)) s'
     /\ string_at (mem s') (Ptr sb ofs) = Some r
     /\ dom (mem s') = dom (mem s)
     /\ (forall b, b <> sb -> mem s' !! b = mem s !! b)
     /\ g_lastError s' = g_lastError s)
  /\ (avail s < strSize ->
      run = Ret (false, None)
                (reported SAFEOPS_ERR_ALLOCATION_FAILED
                          "Memory allocation failed" s)).
Proof.
  intros r run. pose proof (len_nonneg r) as Hr0. fold r in Hsz. split.
  - intros Hav.
    destruct (SafeStrReplace_success s sb ofs strSize blk oldStr newStr
                text old new Hblk Htext Hold Hnew Ho Hc Hsz Hav ltac:(fold r; lia))
      as [Hrun Hstr].
    exists (replaced_state s sb ofs strSize r).
    split; [exact Hrun|]. split; [exact Hstr|].
    unfold replaced_state. rewrite Hblk. cbn.
    split; [|split; [|reflexivity]].
    + rewrite dom_insert_L. apply elem_of_dom_2 in Hblk.
      apply set_eq. intros x. rewrite elem_of_union, elem_of_singleton.
      split; [intros [->|Hx]; assumption | by right].
    + intros b Hb. by rewrite lookup_insert_ne.
  - intros Hav. unfold run.
    rewrite (SafeStrReplace_checked s _ _ _ _ text old new Htext Hold Hnew Ho).
    rewrite final_length_exact
      by (try assumption; fold r; unfold sizeof_size_t in Hsz; lia).
    fold r. rewrite decide_False by lia. rewrite decide_False by lia.
    unfold replace_commit.
    erewrite bind_Ret; [|apply SafeMalloc_exhausted; lia].
    reflexivity.
Qed.

Lemma SafeStrReplace_rewrites_witness :
  mem dashed !! 0%nat = Some (mkBlock 4096 false (buffer 16 "a-b-c"))
  /\ string_at (mem dashed) (Ptr 0 0) = Some (bytes "a-b-c")
  /\ string_at (mem dashed) (Ptr 1 0) = Some (bytes "-")
  /\ string_at (mem dashed) (Ptr 2 0) = Some (bytes "+")
  /\ bytes "-" <> []
  /\ count_nonoverlapping O (bytes "-") (bytes "a-b-c") <> O
  /\ len (replaced O (bytes "-") (bytes "+") (bytes "a-b-c")) < 16
     <= SIZE_MAX - sizeof_size_t
  /\ 0 + 16 <= len (buffer 16 "a-b-c")
  /\ 16 <= avail dashed
  /\ exists s',
      SafeStrReplace (Ptr 0 0) 16 (Ptr 1 0) (Ptr 2 0) true dashed
      = Ret (true, Some 5) s'
      /\ string_at (mem s') (Ptr 0 0) = Some (bytes "a+b+c")
      /\ dom (mem s') = dom (mem dashed).
Proof.
  split; [reflexivity|]. split; [reflexivity|]. split; [reflexivity|].
  split; [reflexivity|]. split; [discriminate|]. split; [by vm_compute|].
  split; [by vm_compute|]. split; [by vm_compute|]. split; [by vm_compute|].
  destruct (SafeStrReplace_rewrites dashed 0 0 16
              (mkBlock 4096 false (buffer 16 "a-b-c")) (Ptr 1 0) (Ptr 2 0)
              (bytes "a-b-c") (bytes "-") (bytes "+")
              eq_refl eq_refl eq_refl eq_refl ltac:(discriminate)
              ltac:(by vm_compute) ltac:(by vm_compute) ltac:(by vm_compute))
    as [H _].
  destruct (H ltac:(by vm_compute)) as (s' & H1 & H2 & H3 & _).
  exists s'. split; [exact H1|]. split; [exact H2 | exact H3].
Defined.

(** X14.  Replacing a text by an equal text leaves the string as it
    was: the call succeeds, reports the original length, and the buffer
    still holds the original text, whether or not the text occurs. *)
Theorem SafeStrReplace_same_text
  (s : state) (sb : nat) (ofs strSize : Z) (blk : block) (oldStr newStr : ptr)
  (text old : list Z)
  (Hblk : mem s !! sb = Some blk)
  (Htext : string_at (mem s) (Ptr sb ofs) = Some text)
  (Hold : string_at (mem s) oldStr = Some old)
  (Hnew : string_at (mem s) newStr = Some old)
  (Ho : old <> [])
  (Hsz : len text < strSize <= SIZE_MAX - sizeof_size_t)
  (Hcap : ofs + strSize <= len (cells blk))
  (Hav : strSize <= avail s) :
  exists s',
    SafeStrReplace (Ptr sb ofs) strSize oldStr newStr true s
    = Ret (true, Some (len text)) s'
    /\ string_at (mem s') (Ptr sb ofs) = Some text.
Proof.
  pose proof (replaced_same old (length text) text Ho (Nat.le_refl _)) as Hsame.
  destruct (decide (count_nonoverlapping O old text = O)) as [Hz|Hnz].
  - exists s. split; [|exact Htext].
    rewrite (SafeStrReplace_checked s _ _ _ _ text old old Htext Hold Hnew Ho).
    rewrite final_length_exact
      by (try assumption; rewrite Hsame; unfold sizeof_size_t in Hsz; lia).
    rewrite Hsame. rewrite decide_False by lia.
    rewrite decide_True by lia. reflexivity.
  - destruct (SafeStrReplace_success s sb ofs strSize blk oldStr newStr
                text old old Hblk Htext Hold Hnew Ho Hnz
                ltac:(rewrite Hsame; exact Hsz) Hav
                ltac:(rewrite Hsame; lia)) as [Hrun Hstr].
    rewrite Hsame in Hrun, Hstr. eexists. split; [exact Hrun | exact Hstr].
Qed.

Lemma SafeStrReplace_same_text_witness :
  mem dashed !! 0%nat = Some (mkBlock 4096 false (buffer 16 "a-b-c"))
  /\ string_at (mem dashed) (Ptr 0 0) = Some (bytes "a-b-c")
  /\ string_at (mem dashed) (Ptr 1 0) = Some (bytes "-")
  /\ bytes "-" <> []
  /\ len (bytes "a-b-c") < 16 <= SIZE_MAX - sizeof_size_t
  /\ 0 + 16 <= len (buffer 16 "a-b-c")
  /\ 16 <= avail dashed
  /\ exists s',
      SafeStrReplace (Ptr 0 0) 16 (Ptr 1 0) (Ptr 1 0) true dashed
      = Ret (true, Some (len (bytes "a-b-c"))) s'
      /\ string_at (mem s') (Ptr 0 0) = Some (bytes "a-b-c").
Proof.
  split; [reflexivity|]. split; [reflexivity|]. split; [reflexivity|].
  split; [discriminate|]. split; [by vm_compute|]. split; [by vm_compute|].
  split; [by vm_compute|].
  exact (SafeStrReplace_same_text dashed 0 0 16
           (mkBlock 4096 false (buffer 16 "a-b-c")) (Ptr 1 0) (Ptr 1 0)
           (bytes "a-b-c") (bytes "-")
           eq_refl eq_refl eq_refl eq_refl ltac:(discriminate)
           ltac:(by vm_compute) ltac:(by vm_compute) ltac:(by vm_compute)).
Defined.

(** ** Failure leaves the program state alone *)

Ltac keeps :=
  unfold kept, reported;
  rewrite ?is_null_NULL, ?is_null_Ptr in *; cbn in *; try discriminate;
  repeat match goal with |- context [g_logger ?s] => destruct (g_logger s) end;
  cbn; rewrite ?close_fresh_fd; auto 10.

Lemma SafeMalloc_kept size s p s' :
  SafeMalloc size s = Ret p s' -> negb (is_null p) = false -> kept s s'.
Proof.
  unfold SafeMalloc, calloc, new_block. intros H Hf. run. paths; keeps.
Qed.

Lemma SafeMallocUninitialized_kept junk size s p s' :
  SafeMallocUninitialized junk size s = Ret p s' ->
  negb (is_null p) = false -> kept s s'.
Proof.
  unfold SafeMallocUninitialized, malloc, new_block. intros H Hf. run.
  paths; keeps.
Qed.

Lemma SafeFreeTyped_kept ptrRef size s s' :
  SafeFreeTyped ptrRef size s = Ret false s' -> kept s s'.
Proof.
  unfold SafeFreeTyped, deref, assign, free. intros H.
  destruct ptrRef; run; paths; keeps.
Qed.

Lemma SafeMemCopy_kept dest destSize src srcSize s s' :
  SafeMemCopy dest destSize src srcSize s = Ret false s' -> kept s s'.
Proof. unfold SafeMemCopy, memmove. intros H. run. paths; keeps. Qed.

Lemma SafeStrLen_kept str maxLen outLen s r s' :
  SafeStrLen str maxLen outLen s = Ret r s' -> fst r = false -> kept s s'.
Proof. unfold SafeStrLen. intros H Hf. run. paths; keeps. Qed.

Lemma SafeWStrLen_kept str maxLen outLen s r s' :
  SafeWStrLen str maxLen outLen s = Ret r s' -> fst r = false -> kept s s'.
Proof. unfold SafeWStrLen. intros H Hf. run. paths; keeps. Qed.

Lemma SafeStrCat_kept dest destSize src s s' :
  SafeStrCat dest destSize src s = Ret false s' -> kept s s'.
Proof.
  unfold SafeStrCat, SafeStrLen, memcpy, memmove. intros H. run. paths; keeps.
Qed.

Lemma SafeStrCopy_kept dest destSize src s s' :
  SafeStrCopy dest destSize src s = Ret false s' -> kept s s'.
Proof.
  unfold SafeStrCopy, strlen, strncpy, store_cell. intros H. run. paths; keeps.
Qed.

Lemma SafeWStrNCopy_kept dest destSize src count s s' :
  SafeWStrNCopy dest destSize src count s = Ret false s' -> kept s s'.
Proof.
  unfold SafeWStrNCopy, SafeWStrLen, strncpy, store_cell. intros H. run.
  paths; keeps.
Qed.

Lemma SafeWStrNCat_kept dest destSize src count s s' :
  SafeWStrNCat dest destSize src count s = Ret false s' -> kept s s'.
Proof.
  unfold SafeWStrNCat, SafeWStrLen, wcsncat, store_cell. intros H. run.
  paths; keeps.
Qed.

Lemma SafeStrFind_kept haystack haystackLen needle outPos s r s' :
  SafeStrFind haystack haystackLen needle outPos s = Ret r s' ->
  fst r = false -> kept s s'.
Proof. unfold SafeStrFind, strlen. intros H Hf. run. paths; keeps. Qed.

Lemma SafeStrReplace_kept str strSize oldStr newStr outLen s r s' :
  SafeStrReplace str strSize oldStr newStr outLen s = Ret r s' ->
  fst r = false -> kept s s'.
Proof.
  unfold SafeStrReplace, strlen, SafeMalloc, calloc, new_block, memcpy, memmove,
    free, enough.
  intros H Hf. run. paths; keeps.
Qed.

Lemma SafeWriteInt_kept array arraySize index value s s' :
  SafeWriteInt array arraySize index value s = Ret false s' -> kept s s'.
Proof. unfold SafeWriteInt, store_cell. intros H. run. paths; keeps. Qed.

Lemma SafeReadInt_kept array arraySize index outValue s r s' :
  SafeReadInt array arraySize index outValue s = Ret r s' ->
  fst r = false -> kept s s'.
Proof. unfold SafeReadInt. intros H Hf. run. paths; keeps. Qed.

Lemma SafePointerOffset_kept base_ baseSize offset s p s' :
  SafePointerOffset base_ baseSize offset s = Ret p s' -> kept s s'.
Proof. unfold SafePointerOffset. intros H. run. paths; keeps. Qed.

Lemma SafeAddInt_kept gnuc a b result s r s' :
  SafeAddInt gnuc a b result s = Ret r s' -> kept s s'.
Proof. unfold SafeAddInt. intros H. run. paths; keeps. Qed.

Lemma SafeCastLongLongToInt_kept val out s r s' :
  SafeCastLongLongToInt val out s = Ret r s' -> kept s s'.
Proof. unfold SafeCastLongLongToInt. intros H. run. paths; keeps. Qed.

Lemma SafeFOpen_kept P E filePath mode opts s s' :
  SafeFOpen P E filePath mode opts s = Ret None s' -> kept s s'.
Proof.
  unfold SafeFOpen, sys_open, sys_fopen, sys_fstat, sys_close, sys_fclose,
    sys_fdopen.
  intros H. run. paths; keeps;
    match goal with
    | H0 : Some (fresh _) = Some ?n |- _ => injection H0 as <-
    end;
    rewrite close_fresh_fd; auto 10.
Qed.

(** X15.  Every operation is all-or-nothing towards the program state: a
    call that reports failure (a [false] result, a null pointer or a null
    stream) has left every object, every pointer variable, the descriptor
    table and the heap as they were.  Only the diagnostics ([errno], the
    last-error cell, the log) and the trace of system calls can differ. *)
Theorem failed_call_keeps_state (c : call) (s s' : state)
  (Hrun : run_call c s = Ret false s') :
  kept s s'.
Proof.
  destruct c; cbn [run_call] in *;
    unfold mbind, M_bind, bind, mret, M_ret, ret in Hrun;
    try match type of Hrun with
        | match ?m with _ => _ end = _ =>
            destruct m as [|r s1] eqn:Hm; [discriminate|];
            apply Ret_inj in Hrun; destruct Hrun as [Hok <-]
        end.
  - by apply (SafeMalloc_kept size s r).
  - by apply (SafeMallocUninitialized_kept junk size s r).
  - by apply (SafeFreeTyped_kept ptrRef size).
  - by apply (SafeMemCopy_kept dest destSize src srcSize).
  - by apply (SafeStrLen_kept str maxLen outLen s r).
  - by apply (SafeWStrLen_kept str maxLen outLen s r).
  - by apply (SafeStrCat_kept dest destSize src).
  - by apply (SafeStrCopy_kept dest destSize src).
  - by apply (SafeWStrNCopy_kept dest destSize src count).
  - by apply (SafeWStrNCat_kept dest destSize src count).
  - by apply (SafeStrFind_kept haystack haystackLen needle outPos s r).
  - by apply (SafeStrReplace_kept str strSize oldStr newStr outLen s r).
  - by apply (SafeWriteInt_kept array arraySize index value).
  - by apply (SafeReadInt_kept array arraySize index outValue s r).
  - by apply (SafePointerOffset_kept base_ baseSize offset s r).
  - by apply (SafeAddInt_kept gnuc a b result s r).
  - by apply (SafeCastLongLongToInt_kept val out s r).
  - apply (SafeFOpen_kept P E filePath mode opts).
    rewrite Hm. f_equal. destruct r; [|reflexivity].
    rewrite bool_decide_true in Hok by (by eexists). discriminate.
Qed.

Lemma failed_call_keeps_state_witness :
  exists s',
    run_call (CallStrCopy (Ptr 0 0) 4 (Ptr 1 0)) greeting = Ret false s'
    /\ kept greeting s'.
Proof.
  eexists. split; [vm_compute; reflexivity|].
  exact (failed_call_keeps_state (CallStrCopy (Ptr 0 0) 4 (Ptr 1 0))
           greeting _ eq_refl).
Defined.

(** ** The logger *)

Ltac logs :=
  unfold log_contract, reported;
  rewrite ?is_null_NULL, ?is_null_Ptr in *; cbn in *; try discriminate;
  repeat match goal with
    | |- context [g_logger ?s] => is_var s; destruct (g_logger s) eqn:?
    end;
  cbn; try congruence; eauto.

Lemma SafeMalloc_logs size s p s' :
  SafeMalloc size s = Ret p s' -> log_contract true s (negb (is_null p)) s'.
Proof. unfold SafeMalloc, calloc, new_block. intros H. run. paths; logs. Qed.

Lemma SafeMallocUninitialized_logs junk size s p s' :
  SafeMallocUninitialized junk size s = Ret p s' ->
  log_contract true s (negb (is_null p)) s'.
Proof.
  unfold SafeMallocUninitialized, malloc, new_block. intros H. run. paths; logs.
Qed.

Lemma SafeFreeTyped_logs ptrRef size s ok s' :
  SafeFreeTyped ptrRef size s = Ret ok s' -> log_contract false s ok s'.
Proof.
  unfold SafeFreeTyped, deref, assign, free. intros H.
  destruct ptrRef; run; paths; logs.
Qed.

Lemma SafeMemCopy_logs dest destSize src srcSize s ok s' :
  SafeMemCopy dest destSize src srcSize s = Ret ok s' -> log_contract true s ok s'.
Proof. unfold SafeMemCopy, memmove. intros H. run. paths; logs. Qed.

Lemma SafeStrLen_logs str maxLen outLen s r s' :
  SafeStrLen str maxLen outLen s = Ret r s' -> log_contract true s (fst r) s'.
Proof. unfold SafeStrLen. intros H. run. paths; logs. Qed.

Lemma SafeWStrLen_logs str maxLen outLen s r s' :
  SafeWStrLen str maxLen outLen s = Ret r s' -> log_contract true s (fst r) s'.
Proof. unfold SafeWStrLen. intros H. run. paths; logs. Qed.

Lemma SafeStrCat_logs dest destSize src s ok s' :
  SafeStrCat dest destSize src s = Ret ok s' -> log_contract true s ok s'.
Proof.
  unfold SafeStrCat, SafeStrLen, memcpy, memmove. intros H. run. paths; logs.
Qed.

Lemma SafeStrCopy_logs dest destSize src s ok s' :
  SafeStrCopy dest destSize src s = Ret ok s' -> log_contract false s ok s'.
Proof.
  unfold SafeStrCopy, strlen, strncpy, store_cell. intros H. run. paths; logs.
Qed.

Lemma SafeWStrNCopy_logs dest destSize src count s ok s' :
  SafeWStrNCopy dest destSize src count s = Ret ok s' -> log_contract true s ok s'.
Proof.
  unfold SafeWStrNCopy, SafeWStrLen, strncpy, store_cell. intros H. run.
  paths; logs.
Qed.

Lemma SafeWStrNCat_logs dest destSize src count s ok s' :
  SafeWStrNCat dest destSize src count s = Ret ok s' -> log_contract true s ok s'.
Proof.
  unfold SafeWStrNCat, SafeWStrLen, wcsncat, store_cell. intros H. run.
  paths; logs.
Qed.

Lemma SafeStrFind_logs haystack haystackLen needle outPos s r s' :
  SafeStrFind haystack haystackLen needle outPos s = Ret r s' ->
  log_contract true s (fst r) s'.
Proof. unfold SafeStrFind, strlen. intros H. run. paths; logs. Qed.

Lemma SafeStrReplace_logs str strSize oldStr newStr outLen s r s' :
  SafeStrReplace str strSize oldStr newStr outLen s = Ret r s' ->
  log_contract true s (fst r) s'.
Proof.
  unfold SafeStrReplace, strlen, SafeMalloc, calloc, new_block, memcpy, memmove,
    free, enough.
  intros H. run. paths; logs.
Qed.

Lemma SafeWriteInt_logs array arraySize index value s ok s' :
  SafeWriteInt array arraySize index value s = Ret ok s' ->
  log_contract false s ok s'.
Proof. unfold SafeWriteInt, store_cell. intros H. run. paths; logs. Qed.

Lemma SafeReadInt_logs array arraySize index outValue s r s' :
  SafeReadInt array arraySize index outValue s = Ret r s' ->
  log_contract false s (fst r) s'.
Proof. unfold SafeReadInt. intros H. run. paths; logs. Qed.

Lemma SafePointerOffset_logs base_ baseSize offset s p s' :
  SafePointerOffset base_ baseSize offset s = Ret p s' ->
  log_contract false s (negb (is_null p)) s'.
Proof.
  unfold SafePointerOffset. intros H. run. paths; logs.
  destruct base_; [rewrite is_null_NULL in *; discriminate|].
  cbn [ptr_add]. rewrite is_null_Ptr. cbn. auto.
Qed.

Lemma SafeAddInt_logs gnuc a b result s r s' :
  SafeAddInt gnuc a b result s = Ret r s' -> log_contract false s (fst r) s'.
Proof. unfold SafeAddInt. intros H. run. paths; logs. Qed.

Lemma SafeCastLongLongToInt_logs val out s r s' :
  SafeCastLongLongToInt val out s = Ret r s' -> log_contract false s (fst r) s'.
Proof. unfold SafeCastLongLongToInt. intros H. run. paths; logs. Qed.

Lemma SafeFOpen_logs P E filePath mode opts s r s' :
  SafeFOpen P E filePath mode opts s = Ret r s' ->
  log_contract true s (bool_decide (is_Some r)) s'.
Proof.
  unfold SafeFOpen, sys_open, sys_fopen, sys_fstat, sys_close, sys_fclose,
    sys_fdopen.
  intros H. run. paths; logs.
Qed.

Lemma run_call_logs (c : call) (s s' : state) (ok : bool) :
  run_call c s = Ret ok s' -> log_contract (reports_through_SetError c) s ok s'.
Proof.
  intros Hrun.
  destruct c; cbn [run_call reports_through_SetError] in *;
    unfold mbind, M_bind, bind, mret, M_ret, ret in Hrun;
    try match type of Hrun with
        | match ?m with _ => _ end = _ =>
            destruct m as [|r s1] eqn:Hm; [discriminate|];
            apply Ret_inj in Hrun; destruct Hrun as [<- <-]
        end.
  - by apply (SafeMalloc_logs size).
  - by apply (SafeMallocUninitialized_logs junk size).
  - by apply (SafeFreeTyped_logs ptrRef size).
  - by apply (SafeMemCopy_logs dest destSize src srcSize).
  - by apply (SafeStrLen_logs str maxLen outLen).
  - by apply (SafeWStrLen_logs str maxLen outLen).
  - by apply (SafeStrCat_logs dest destSize src).
  - by apply (SafeStrCopy_logs dest destSize src).
  - by apply (SafeWStrNCopy_logs dest destSize src count).
  - by apply (SafeWStrNCat_logs dest destSize src count).
  - by apply (SafeStrFind_logs haystack haystackLen needle outPos).
  - by apply (SafeStrReplace_logs str strSize oldStr newStr outLen).
  - by apply (SafeWriteInt_logs array arraySize index value).
  - by apply (SafeReadInt_logs array arraySize index outValue).
  - by apply (SafePointerOffset_logs base_ baseSize offset).
  - by apply (SafeAddInt_logs gnuc a b result).
  - by apply (SafeCastLongLongToInt_logs val out).
  - by apply (SafeFOpen_logs P E filePath mode opts).
Qed.

(** X16.  The logger sees each failure once.  After
    [SafeOpsSetLogger], any call followed by [SafeOpsGetLastError]: a
    failing call of the [SetError] family has handed the logger exactly
    one entry, whose code is the one [SafeOpsGetLastError] returns; a
    failing call of the [errno] family has handed it none; a successful
    call has handed it at most one entry, with code Ok (the overlap notice
    of [SafeMemCopy]); and with the logger removed nothing is logged. *)
Theorem logger_sees_each_failure_once
  (l : bool) (c : call) (s s' : state) (ok : bool) (e : SafeOpsError)
  (Hrun : (SafeOpsSetLogger l;;
           ok ← run_call c;
           e ← SafeOpsGetLastError;
           mret (ok, e)) s = Ret (ok, e) s') :
  if l then
    if ok then
      logged s' = logged s
      \/ exists msg, logged s' = logged s ++ [(SAFEOPS_OK, msg)]
    else if reports_through_SetError c then
      exists msg, logged s' = logged s ++ [(e, msg)]
    else logged s' = logged s
  else logged s' = logged s.
Proof.
  unfold SafeOpsSetLogger, SafeOpsGetLastError in Hrun.
  rewrite bind_modify in Hrun.
  unfold mbind, M_bind, bind, mret, M_ret, ret in Hrun.
  destruct (run_call c (set_logger l s)) as [|ok1 s1] eqn:Hc; [discriminate|].
  apply Ret_inj in Hrun. destruct Hrun as [Hpair <-].
  injection Hpair as <- <-.
  destruct (run_call_logs c _ _ _ Hc) as [_ Hlog].
  cbn [g_logger set_logger logged] in Hlog. exact Hlog.
Qed.

Lemma logger_sees_each_failure_once_witness :
  exists s',
    (SafeOpsSetLogger true;;
     ok ← run_call (CallStrLen (Ptr 0 0) 2 true);
     e ← SafeOpsGetLastError;
     mret (ok, e)) abcdef = Ret (false, SAFEOPS_ERR_OUT_OF_BOUNDS) s'
    /\ exists msg, logged s' = logged abcdef ++ [(SAFEOPS_ERR_OUT_OF_BOUNDS, msg)].
Proof.
  eexists. split; [vm_compute; reflexivity|].
  exact (logger_sees_each_failure_once true (CallStrLen (Ptr 0 0) 2 true)
           abcdef _ false SAFEOPS_ERR_OUT_OF_BOUNDS eq_refl).
Defined.

(** ** Integer results *)

(** X17.  What [SafeAddInt] leaves in [*result] when the sum of two
    [int]s overflows depends on the build: the variant compiled with the
    GCC/Clang builtin has stored the sum wrapped around to an [int] (off
    by exactly [2^32]) before it reports failure, the portable variant
    stores nothing.  The return value and [errno] are the same. *)
Theorem SafeAddInt_overflow_result
  (a b : Z) (s : state)
  (Ha : INT_MIN <= a <= INT_MAX) (Hb : INT_MIN <= b <= INT_MAX)
  (Hover : ~ (INT_MIN <= a + b <= INT_MAX)) :
  let w := if decide (a + b > INT_MAX) then a + b - 2 ^ 32 else a + b + 2 ^ 32 in
  SafeAddInt true a b true s = Ret (false, Some w) (set_errno EOVERFLOW s)
  /\ SafeAddInt false a b true s = Ret (false, None) (set_errno EOVERFLOW s)
  /\ INT_MIN <= w <= INT_MAX.
Proof.
  intros w. unfold INT_MIN, INT_MAX in *.
  assert (Hw : wrap_int (a + b) = w).
  { unfold wrap_int, w, INT_MIN, INT_MAX. case_decide.
    - rewrite <- (Z.mod_add _ (-1)) by lia.
      rewrite Z.mod_small by lia. lia.
    - rewrite <- (Z.mod_add _ 1) by lia.
      rewrite Z.mod_small by lia. lia. }
  split; [|split].
  - unfold SafeAddInt, INT_MIN, INT_MAX. cbn [negb].
    destruct (decide (a + b > 2147483647)).
    + rewrite (bool_decide_true (a + b > 2147483647)) by assumption.
      cbn [orb]. rewrite bind_modify. by rewrite Hw.
    + rewrite (bool_decide_false (a + b > 2147483647)) by assumption.
      rewrite (bool_decide_true (a + b < -2147483648)) by lia.
      cbn [orb]. rewrite bind_modify. by rewrite Hw.
  - unfold SafeAddInt, INT_MIN, INT_MAX. cbn [negb].
    destruct (decide (a + b > 2147483647)).
    + rewrite (bool_decide_true (b > 0)) by lia.
      rewrite (bool_decide_true (a > 2147483647 - b)) by lia.
      cbn [andb orb]. by rewrite bind_modify.
    + rewrite (bool_decide_false (b > 0)) by lia.
      rewrite (bool_decide_true (b < 0)) by lia.
      rewrite (bool_decide_true (a < -2147483648 - b)) by lia.
      cbn [andb orb]. by rewrite bind_modify.
  - unfold w. case_decide; lia.
Qed.

Lemma SafeAddInt_overflow_result_witness :
  INT_MIN <= INT_MAX <= INT_MAX /\ INT_MIN <= 1 <= INT_MAX
  /\ ~ (INT_MIN <= INT_MAX + 1 <= INT_MAX)
  /\ SafeAddInt true INT_MAX 1 true (init_state ∅)
     = Ret (false, Some INT_MIN) (set_errno EOVERFLOW (init_state ∅))
  /\ SafeAddInt false INT_MAX 1 true (init_state ∅)
     = Ret (false, None) (set_errno EOVERFLOW (init_state ∅)).
Proof.
  assert (H1 : INT_MIN <= INT_MAX <= INT_MAX) by (unfold INT_MIN, INT_MAX; lia).
  assert (H2 : INT_MIN <= 1 <= INT_MAX) by (unfold INT_MIN, INT_MAX; lia).
  assert (H3 : ~ (INT_MIN <= INT_MAX + 1 <= INT_MAX))
    by (unfold INT_MIN, INT_MAX; lia).
  split; [exact H1|]. split; [exact H2|]. split; [exact H3|].
  destruct (SafeAddInt_overflow_result INT_MAX 1 (init_state ∅) H1 H2 H3)
    as (Hg & Hp & _).
  split; [exact Hg | exact Hp].
Defined.

(** ** Opening files *)





(** X19.  With [requireRegularFile] switched off the kind of the file is
    not examined: whatever the system opened (a directory, a device) is
    returned as a stream over the new descriptor, provided [fstat] and, on
    POSIX, [fdopen] succeed.  The descriptor is entered in the table, and
    the objects and the last-error cell are untouched. *)
Theorem SafeFOpen_any_kind
  (P : platform) (E : os) (s : state) (filePath mode : ptr) (o : SafeFileOpts)
  (path md : list Z) (st : Z)
  (Hpath : string_at (mem s) filePath = Some path)
  (Hmode : string_at (mem s) mode = Some md)
  (Hreq : requireRegularFile o = false)
  (Hopen : match P with
           | POSIX nf => os_open E path (open_flags nf md o) (createMode o)
           | WIN32 => os_fopen E path md
           end = Some st)
  (Hstat : os_fstat_ok E (fresh (dom (fds s))) = true)
  (Hfdopen : P <> WIN32 -> os_fdopen_ok E (fresh (dom (fds s))) md = true) :
  exists s',
    SafeFOpen P E filePath mode (Some o) s
    = Ret (Some (Stream (fresh (dom (fds s))))) s'
    /\ fds s' = <[fresh (dom (fds s)) := st]> (fds s)
    /\ mem s' = mem s
    /\ g_lastError s' = g_lastError s.
Proof.
  assert (filePath <> NULL) by (intros ->; discriminate).
  assert (mode <> NULL) by (intros ->; discriminate).
  unfold SafeFOpen, is_null.
  rewrite !bool_decide_false by assumption. cbn [orb].
  step. rewrite Hpath, Hmode. step. rewrite Hreq. cbn [andb].
  destruct P as [nf|].
  - rewrite (bind_Ret _ _ _ _ _ (sys_open_Some E _ _ _ st s Hopen)).
    erewrite bind_Ret;
      [|apply sys_fstat_eq; rewrite Hstat; cbn [fds set_fds add_syscall];
        apply lookup_insert_eq].
    cbv beta iota.
    rewrite (bind_Ret _ _ _ _ _ (sys_fdopen_eq E _ md _)).
    rewrite (Hfdopen ltac:(discriminate)).
    eexists. split; [reflexivity|]. repeat split.
  - rewrite (bind_Ret _ _ _ _ _ (sys_fopen_Some E _ _ st s Hopen)).
    erewrite bind_Ret;
      [|apply sys_fstat_eq; rewrite Hstat; cbn [fds set_fds add_syscall];
        apply lookup_insert_eq].
    cbv beta iota.
    eexists. split; [reflexivity|]. repeat split.
Qed.

Lemma SafeFOpen_any_kind_witness :
  string_at (mem tmp_dir) (Ptr 0 0) = Some (bytes "/tmp")
  /\ string_at (mem tmp_dir) (Ptr 1 0) = Some (bytes "r")
  /\ S_ISREG 16877 = false
  /\ exists s',
      SafeFOpen (POSIX false) dir_os (Ptr 0 0) (Ptr 1 0)
                (Some (mkOpts false false 420 false)) tmp_dir
      = Ret (Some (Stream (fresh (dom (fds tmp_dir))))) s'
      /\ fds s' = <[fresh (dom (fds tmp_dir)) := 16877]> (fds tmp_dir).
Proof.
  split; [reflexivity|]. split; [reflexivity|]. split; [reflexivity|].
  destruct (SafeFOpen_any_kind (POSIX false) dir_os tmp_dir
              (Ptr 0 0) (Ptr 1 0)
              (mkOpts false false 420 false) (bytes "/tmp") (bytes "r") 16877
              eq_refl eq_refl eq_refl eq_refl eq_refl (fun _ => eq_refl))
    as (s' & Hrun & Hfds & _).
  exists s'. split; [exact Hrun | exact Hfds].
Defined.

(** ** What the operations do not guard *)

Lemma strlen_unterminated (p : ptr) (v : list Z) (s : state) :
  view (mem s) p = Some v -> 0 ∉ v -> strlen p s = Fault.
Proof.
  intros Hv H0. unfold strlen, string_at. rewrite bind_get, Hv.
  apply c_str_None_iff in H0. cbn. rewrite H0. reflexivity.
Qed.

(** X20.  Only the length functions bound their scan.  [SafeStrCopy],
    [SafeStrFind] and [SafeStrReplace] measure their string arguments
    with an unbounded [strlen]: when an argument has no terminator inside
    its object the call runs off the object (undefined behaviour),
    whatever sizes are passed. *)
Theorem unterminated_argument_is_undefined
  (s : state) (p : ptr) (v : list Z)
  (Hv : view (mem s) p = Some v) (H0 : 0 ∉ v) :
  (forall dest destSize, dest <> NULL -> destSize > 0 ->
     SafeStrCopy dest destSize p s = Fault)
  /\ (forall haystack haystackLen, haystack <> NULL ->
        SafeStrFind haystack haystackLen p true s = Fault)
  /\ (forall haystackLen needle t,
        string_at (mem s) needle = Some t -> 0 < len t <= haystackLen ->
        SafeStrFind p haystackLen needle true s = Fault)
  /\ (forall strSize oldStr newStr, oldStr <> NULL -> newStr <> NULL ->
        SafeStrReplace p strSize oldStr newStr true s = Fault).
Proof.
  assert (Hp : p <> NULL) by (intros ->; discriminate).
  pose proof (strlen_unterminated p v s Hv H0) as Hlen.
  assert (Hstr : string_at (mem s) p = None).
  { unfold string_at. rewrite Hv. cbn. by apply c_str_None_iff. }
  repeat split.
  - intros dest destSize Hd Hsz. unfold SafeStrCopy, is_null.
    rewrite !bool_decide_false by assumption.
    rewrite bool_decide_true by assumption. cbn [negb andb].
    by apply bind_Fault.
  - intros haystack haystackLen Hh. unfold SafeStrFind, is_null.
    rewrite !bool_decide_false by assumption. cbn [negb orb].
    by apply bind_Fault.
  - intros haystackLen needle t Ht Hlt.
    assert (needle <> NULL) by (intros ->; discriminate).
    unfold SafeStrFind, is_null.
    rewrite !bool_decide_false by assumption. cbn [negb orb].
    rewrite (bind_Ret _ _ _ _ _ (strlen_eq _ _ _ Ht)).
    rewrite !bool_decide_false by lia. cbn [orb].
    rewrite bind_get, Hstr. reflexivity.
  - intros strSize oldStr newStr Ho Hn. unfold SafeStrReplace, is_null.
    rewrite !bool_decide_false by assumption. cbn [negb orb].
    by apply bind_Fault.
Qed.

Lemma unterminated_argument_is_undefined_witness :
  view (mem unterminated) (Ptr 0 0) = Some (bytes "ABCD")
  /\ (0 ∉ bytes "ABCD")
  /\ SafeStrCopy (Ptr 1 0) 2 (Ptr 0 0) unterminated = Fault.
Proof.
  assert (H0 : 0 ∉ bytes "ABCD").
  { apply c_str_None_iff. reflexivity. }
  split; [reflexivity|]. split; [exact H0|].
  destruct (unterminated_argument_is_undefined unterminated (Ptr 0 0)
              (bytes "ABCD") eq_refl H0) as [H _].
  apply H; [discriminate | lia].
Defined.

(** X21.  [SafeFree] empties only the handle it is given.  When two
    handles hold the same allocation, releasing it through one leaves the
    other holding the stale pointer, which [IsValidPointer] still accepts;
    releasing through the other handle frees the object a second time
    (undefined behaviour), with [SafeFree] and with [SafeFreeTyped]. *)
Theorem SafeFree_leaves_aliases
  (s : state) (h1 h2 b : nat) (blk : block) (size : Z)
  (Hh1 : ptrvars s !! h1 = Some (Ptr b 0))
  (Hh2 : ptrvars s !! h2 = Some (Ptr b 0))
  (Hne : h1 <> h2)
  (Hb : mem s !! b = Some blk) (Hheap : on_heap blk = true) :
  exists s',
    SafeFree (Some h1) s = Ret tt s'
    /\ ptrvars s' !! h1 = Some NULL
    /\ ptrvars s' !! h2 = Some (Ptr b 0)
    /\ IsValidPointer (Ptr b 0) = true
    /\ view (mem s') (Ptr b 0) = None
    /\ SafeFree (Some h2) s' = Fault
    /\ SafeFreeTyped (Some h2) size s' = Fault.
Proof.
  rewrite (SafeFree_live h1 b blk s Hh1 Hb Hheap).
  eexists. split; [reflexivity|].
  cbn [ptrvars set_ptrvars set_heap mem].
  assert (Hgone : delete b (mem s) !! b = None) by apply lookup_delete_eq.
  split; [apply lookup_insert_eq|].
  assert (Hstale : <[h1 := NULL]> (ptrvars s) !! h2 = Some (Ptr b 0))
    by (by rewrite lookup_insert_ne).
  split; [exact Hstale|]. split; [reflexivity|].
  split; [unfold view; by rewrite Hgone|].
  split.
  - unfold SafeFree.
    erewrite bind_Ret; [|apply deref_eq; exact Hstale].
    rewrite decide_False by discriminate.
    apply bind_Fault. unfold free. cbn [mem set_ptrvars set_heap].
    by rewrite Hgone.
  - unfold SafeFreeTyped.
    erewrite bind_Ret; [|apply deref_eq; exact Hstale].
    rewrite decide_False by discriminate.
    rewrite bind_get. cbn [mem set_ptrvars set_heap].
    unfold store. rewrite Hgone. reflexivity.
Qed.

Lemma SafeFree_leaves_aliases_witness :
  ptrvars shared !! 7%nat = Some (Ptr 5 0)
  /\ ptrvars shared !! 8%nat = Some (Ptr 5 0)
  /\ 7%nat <> 8%nat
  /\ mem shared !! 5%nat = Some (mkBlock 8192 true [1; 2; 3; 4])
  /\ exists s',
      SafeFree (Some 7%nat) shared = Ret tt s'
      /\ ptrvars s' !! 8%nat = Some (Ptr 5 0)
      /\ SafeFree (Some 8%nat) s' = Fault.
Proof.
  split; [reflexivity|]. split; [reflexivity|]. split; [lia|].
  split; [reflexivity|].
  destruct (SafeFree_leaves_aliases shared 7 8 5
              (mkBlock 8192 true [1; 2; 3; 4]) 4
              eq_refl eq_refl ltac:(lia) eq_refl eq_refl)
    as (s' & H1 & _ & H2 & _ & _ & H3 & _).
  exists s'. split; [exact H1|]. split; [exact H2 | exact H3].
Defined.
